(** * The Kafka messaging proxy of voltha-go ([kafka/sarama_client.go])

    A shallow embedding of [SaramaClient]: the client struct, the registry
    [topicToConsumerChannelMap] from topic names to [*consumerChannels], and
    the operations [Start], [Stop], [CreateTopic], [DeleteTopic],
    [Subscribe], [UnSubscribe], [Send] and the two consumption loops.

    The Go runtime and the sarama libraries are the environment.  Every call
    that leaves the package is recorded in a trace of [event]s; what the
    broker answers is given by an oracle that sees the trace so far, so the
    theorems hold for every deterministic broker.  Each exported method runs
    under the registry lock or touches the registry through locked helpers;
    the model runs a method as one sequential step and exposes the steps of
    the spawned goroutines as functions of their own. *)

From Stdlib Require Import ZArith List String Lia Bool.
From Stdlib.Strings Require Import Byte.
From stdpp Require Import base option list gmap strings pretty.

Local Open Scope Z_scope.
Local Open Scope string_scope.
Local Open Scope list_scope.

(** ** Values of the Go program *)

(** A channel [chan *ca.InterContainerMessage] is known by its identity. *)
Definition chan_id := nat.

(** A pointer [*consumerChannels]. *)
Definition loc := nat.

(** Go [error] values: sarama's [KError] codes, compared with [==], and every
    other error, known by its message. *)
Inductive error : Type :=
  | KError (code : Z)
  | errorString (msg : string).

Definition ErrUnknownTopicOrPartition : error := KError 3.
Definition ErrTopicAlreadyExists : error := KError 36.

Definition error_eqb (a b : error) : bool :=
  match a, b with
  | KError x, KError y => Z.eqb x y
  | errorString x, errorString y => String.eqb x y
  | _, _ => false
  end.

(** The handles sarama and sarama-cluster give out.  The registry keeps its
    consumers in a [[]interface{}], which can hold any of them. *)
Inductive handle : Type :=
  | sarama_ClusterAdmin (id : nat)
  | sarama_AsyncProducer (id : nat)
  | sarama_Consumer (id : nat)
  | sarama_PartitionConsumer (id : nat)
  | scc_Consumer (id : nat).

(** Modelled from the spec: the [Topic] struct of kafka/client.go, a logical
    identifier (name) for a broker log. *)
Record Topic : Type := { Name : string }.

(** [consumerChannels]: the consumers listening on a topic and the channels
    the messages are broadcast to. *)
Record consumerChannels : Type := {
  consumers : list handle;
  channels : list chan_id
}.

(** [sarama.ProducerMessage] and [sarama.ConsumerMessage], with the fields the
    client reads or writes. *)
Record ProducerMessage : Type := {
  pm_Topic : string;
  pm_Key : string;
  pm_Value : list byte
}.

Record ConsumerMessage : Type := {
  cm_Topic : string;
  cm_Partition : Z;
  cm_Offset : Z;
  cm_Value : list byte
}.

(** [SaramaClient], field by field; the lock is left out. *)
Record SaramaClient : Type := {
  cAdmin : option handle;
  KafkaHost : string;
  KafkaPort : Z;
  producer : option handle;
  consumer : option handle;
  groupConsumer : option handle;
  consumerType : Z;
  groupName : string;
  producerFlushFrequency : Z;
  producerFlushMessages : Z;
  producerFlushMaxmessages : Z;
  producerRetryMax : Z;
  producerRetryBackOff : Z;
  producerReturnSuccess : bool;
  producerReturnErrors : bool;
  consumerMaxwait : Z;
  maxProcessingTime : Z;
  numPartitions : Z;
  numReplicas : Z;
  autoCreateTopic : bool;
  doneCh : option (list Z);
  topicToConsumerChannelMap : option (gmap string loc)
}.

(** Field updates [args.f = v]. *)
Definition set_cAdmin (v : option handle) (c : SaramaClient) : SaramaClient :=
  Build_SaramaClient v (KafkaHost c) (KafkaPort c) (producer c) (consumer c) (groupConsumer c) (consumerType c) (groupName c) (producerFlushFrequency c) (producerFlushMessages c) (producerFlushMaxmessages c) (producerRetryMax c) (producerRetryBackOff c) (producerReturnSuccess c) (producerReturnErrors c) (consumerMaxwait c) (maxProcessingTime c) (numPartitions c) (numReplicas c) (autoCreateTopic c) (doneCh c) (topicToConsumerChannelMap c).
Definition set_KafkaHost (v : string) (c : SaramaClient) : SaramaClient :=
  Build_SaramaClient (cAdmin c) v (KafkaPort c) (producer c) (consumer c) (groupConsumer c) (consumerType c) (groupName c) (producerFlushFrequency c) (producerFlushMessages c) (producerFlushMaxmessages c) (producerRetryMax c) (producerRetryBackOff c) (producerReturnSuccess c) (producerReturnErrors c) (consumerMaxwait c) (maxProcessingTime c) (numPartitions c) (numReplicas c) (autoCreateTopic c) (doneCh c) (topicToConsumerChannelMap c).
Definition set_KafkaPort (v : Z) (c : SaramaClient) : SaramaClient :=
  Build_SaramaClient (cAdmin c) (KafkaHost c) v (producer c) (consumer c) (groupConsumer c) (consumerType c) (groupName c) (producerFlushFrequency c) (producerFlushMessages c) (producerFlushMaxmessages c) (producerRetryMax c) (producerRetryBackOff c) (producerReturnSuccess c) (producerReturnErrors c) (consumerMaxwait c) (maxProcessingTime c) (numPartitions c) (numReplicas c) (autoCreateTopic c) (doneCh c) (topicToConsumerChannelMap c).
Definition set_producer (v : option handle) (c : SaramaClient) : SaramaClient :=
  Build_SaramaClient (cAdmin c) (KafkaHost c) (KafkaPort c) v (consumer c) (groupConsumer c) (consumerType c) (groupName c) (producerFlushFrequency c) (producerFlushMessages c) (producerFlushMaxmessages c) (producerRetryMax c) (producerRetryBackOff c) (producerReturnSuccess c) (producerReturnErrors c) (consumerMaxwait c) (maxProcessingTime c) (numPartitions c) (numReplicas c) (autoCreateTopic c) (doneCh c) (topicToConsumerChannelMap c).
Definition set_consumer (v : option handle) (c : SaramaClient) : SaramaClient :=
  Build_SaramaClient (cAdmin c) (KafkaHost c) (KafkaPort c) (producer c) v (groupConsumer c) (consumerType c) (groupName c) (producerFlushFrequency c) (producerFlushMessages c) (producerFlushMaxmessages c) (producerRetryMax c) (producerRetryBackOff c) (producerReturnSuccess c) (producerReturnErrors c) (consumerMaxwait c) (maxProcessingTime c) (numPartitions c) (numReplicas c) (autoCreateTopic c) (doneCh c) (topicToConsumerChannelMap c).
Definition set_groupConsumer (v : option handle) (c : SaramaClient) : SaramaClient :=
  Build_SaramaClient (cAdmin c) (KafkaHost c) (KafkaPort c) (producer c) (consumer c) v (consumerType c) (groupName c) (producerFlushFrequency c) (producerFlushMessages c) (producerFlushMaxmessages c) (producerRetryMax c) (producerRetryBackOff c) (producerReturnSuccess c) (producerReturnErrors c) (consumerMaxwait c) (maxProcessingTime c) (numPartitions c) (numReplicas c) (autoCreateTopic c) (doneCh c) (topicToConsumerChannelMap c).
Definition set_consumerType (v : Z) (c : SaramaClient) : SaramaClient :=
  Build_SaramaClient (cAdmin c) (KafkaHost c) (KafkaPort c) (producer c) (consumer c) (groupConsumer c) v (groupName c) (producerFlushFrequency c) (producerFlushMessages c) (producerFlushMaxmessages c) (producerRetryMax c) (producerRetryBackOff c) (producerReturnSuccess c) (producerReturnErrors c) (consumerMaxwait c) (maxProcessingTime c) (numPartitions c) (numReplicas c) (autoCreateTopic c) (doneCh c) (topicToConsumerChannelMap c).
Definition set_producerFlushFrequency (v : Z) (c : SaramaClient) : SaramaClient :=
  Build_SaramaClient (cAdmin c) (KafkaHost c) (KafkaPort c) (producer c) (consumer c) (groupConsumer c) (consumerType c) (groupName c) v (producerFlushMessages c) (producerFlushMaxmessages c) (producerRetryMax c) (producerRetryBackOff c) (producerReturnSuccess c) (producerReturnErrors c) (consumerMaxwait c) (maxProcessingTime c) (numPartitions c) (numReplicas c) (autoCreateTopic c) (doneCh c) (topicToConsumerChannelMap c).
Definition set_producerFlushMessages (v : Z) (c : SaramaClient) : SaramaClient :=
  Build_SaramaClient (cAdmin c) (KafkaHost c) (KafkaPort c) (producer c) (consumer c) (groupConsumer c) (consumerType c) (groupName c) (producerFlushFrequency c) v (producerFlushMaxmessages c) (producerRetryMax c) (producerRetryBackOff c) (producerReturnSuccess c) (producerReturnErrors c) (consumerMaxwait c) (maxProcessingTime c) (numPartitions c) (numReplicas c) (autoCreateTopic c) (doneCh c) (topicToConsumerChannelMap c).
Definition set_producerFlushMaxmessages (v : Z) (c : SaramaClient) : SaramaClient :=
  Build_SaramaClient (cAdmin c) (KafkaHost c) (KafkaPort c) (producer c) (consumer c) (groupConsumer c) (consumerType c) (groupName c) (producerFlushFrequency c) (producerFlushMessages c) v (producerRetryMax c) (producerRetryBackOff c) (producerReturnSuccess c) (producerReturnErrors c) (consumerMaxwait c) (maxProcessingTime c) (numPartitions c) (numReplicas c) (autoCreateTopic c) (doneCh c) (topicToConsumerChannelMap c).
Definition set_producerRetryMax (v : Z) (c : SaramaClient) : SaramaClient :=
  Build_SaramaClient (cAdmin c) (KafkaHost c) (KafkaPort c) (producer c) (consumer c) (groupConsumer c) (consumerType c) (groupName c) (producerFlushFrequency c) (producerFlushMessages c) (producerFlushMaxmessages c) v (producerRetryBackOff c) (producerReturnSuccess c) (producerReturnErrors c) (consumerMaxwait c) (maxProcessingTime c) (numPartitions c) (numReplicas c) (autoCreateTopic c) (doneCh c) (topicToConsumerChannelMap c).
Definition set_producerRetryBackOff (v : Z) (c : SaramaClient) : SaramaClient :=
  Build_SaramaClient (cAdmin c) (KafkaHost c) (KafkaPort c) (producer c) (consumer c) (groupConsumer c) (consumerType c) (groupName c) (producerFlushFrequency c) (producerFlushMessages c) (producerFlushMaxmessages c) (producerRetryMax c) v (producerReturnSuccess c) (producerReturnErrors c) (consumerMaxwait c) (maxProcessingTime c) (numPartitions c) (numReplicas c) (autoCreateTopic c) (doneCh c) (topicToConsumerChannelMap c).
Definition set_producerReturnSuccess (v : bool) (c : SaramaClient) : SaramaClient :=
  Build_SaramaClient (cAdmin c) (KafkaHost c) (KafkaPort c) (producer c) (consumer c) (groupConsumer c) (consumerType c) (groupName c) (producerFlushFrequency c) (producerFlushMessages c) (producerFlushMaxmessages c) (producerRetryMax c) (producerRetryBackOff c) v (producerReturnErrors c) (consumerMaxwait c) (maxProcessingTime c) (numPartitions c) (numReplicas c) (autoCreateTopic c) (doneCh c) (topicToConsumerChannelMap c).
Definition set_producerReturnErrors (v : bool) (c : SaramaClient) : SaramaClient :=
  Build_SaramaClient (cAdmin c) (KafkaHost c) (KafkaPort c) (producer c) (consumer c) (groupConsumer c) (consumerType c) (groupName c) (producerFlushFrequency c) (producerFlushMessages c) (producerFlushMaxmessages c) (producerRetryMax c) (producerRetryBackOff c) (producerReturnSuccess c) v (consumerMaxwait c) (maxProcessingTime c) (numPartitions c) (numReplicas c) (autoCreateTopic c) (doneCh c) (topicToConsumerChannelMap c).
Definition set_consumerMaxwait (v : Z) (c : SaramaClient) : SaramaClient :=
  Build_SaramaClient (cAdmin c) (KafkaHost c) (KafkaPort c) (producer c) (consumer c) (groupConsumer c) (consumerType c) (groupName c) (producerFlushFrequency c) (producerFlushMessages c) (producerFlushMaxmessages c) (producerRetryMax c) (producerRetryBackOff c) (producerReturnSuccess c) (producerReturnErrors c) v (maxProcessingTime c) (numPartitions c) (numReplicas c) (autoCreateTopic c) (doneCh c) (topicToConsumerChannelMap c).
Definition set_maxProcessingTime (v : Z) (c : SaramaClient) : SaramaClient :=
  Build_SaramaClient (cAdmin c) (KafkaHost c) (KafkaPort c) (producer c) (consumer c) (groupConsumer c) (consumerType c) (groupName c) (producerFlushFrequency c) (producerFlushMessages c) (producerFlushMaxmessages c) (producerRetryMax c) (producerRetryBackOff c) (producerReturnSuccess c) (producerReturnErrors c) (consumerMaxwait c) v (numPartitions c) (numReplicas c) (autoCreateTopic c) (doneCh c) (topicToConsumerChannelMap c).
Definition set_numPartitions (v : Z) (c : SaramaClient) : SaramaClient :=
  Build_SaramaClient (cAdmin c) (KafkaHost c) (KafkaPort c) (producer c) (consumer c) (groupConsumer c) (consumerType c) (groupName c) (producerFlushFrequency c) (producerFlushMessages c) (producerFlushMaxmessages c) (producerRetryMax c) (producerRetryBackOff c) (producerReturnSuccess c) (producerReturnErrors c) (consumerMaxwait c) (maxProcessingTime c) v (numReplicas c) (autoCreateTopic c) (doneCh c) (topicToConsumerChannelMap c).
Definition set_numReplicas (v : Z) (c : SaramaClient) : SaramaClient :=
  Build_SaramaClient (cAdmin c) (KafkaHost c) (KafkaPort c) (producer c) (consumer c) (groupConsumer c) (consumerType c) (groupName c) (producerFlushFrequency c) (producerFlushMessages c) (producerFlushMaxmessages c) (producerRetryMax c) (producerRetryBackOff c) (producerReturnSuccess c) (producerReturnErrors c) (consumerMaxwait c) (maxProcessingTime c) (numPartitions c) v (autoCreateTopic c) (doneCh c) (topicToConsumerChannelMap c).
Definition set_autoCreateTopic (v : bool) (c : SaramaClient) : SaramaClient :=
  Build_SaramaClient (cAdmin c) (KafkaHost c) (KafkaPort c) (producer c) (consumer c) (groupConsumer c) (consumerType c) (groupName c) (producerFlushFrequency c) (producerFlushMessages c) (producerFlushMaxmessages c) (producerRetryMax c) (producerRetryBackOff c) (producerReturnSuccess c) (producerReturnErrors c) (consumerMaxwait c) (maxProcessingTime c) (numPartitions c) (numReplicas c) v (doneCh c) (topicToConsumerChannelMap c).
Definition set_doneCh (v : option (list Z)) (c : SaramaClient) : SaramaClient :=
  Build_SaramaClient (cAdmin c) (KafkaHost c) (KafkaPort c) (producer c) (consumer c) (groupConsumer c) (consumerType c) (groupName c) (producerFlushFrequency c) (producerFlushMessages c) (producerFlushMaxmessages c) (producerRetryMax c) (producerRetryBackOff c) (producerReturnSuccess c) (producerReturnErrors c) (consumerMaxwait c) (maxProcessingTime c) (numPartitions c) (numReplicas c) (autoCreateTopic c) v (topicToConsumerChannelMap c).
Definition set_topicToConsumerChannelMap (v : option (gmap string loc)) (c : SaramaClient) : SaramaClient :=
  Build_SaramaClient (cAdmin c) (KafkaHost c) (KafkaPort c) (producer c) (consumer c) (groupConsumer c) (consumerType c) (groupName c) (producerFlushFrequency c) (producerFlushMessages c) (producerFlushMaxmessages c) (producerRetryMax c) (producerRetryBackOff c) (producerReturnSuccess c) (producerReturnErrors c) (consumerMaxwait c) (maxProcessingTime c) (numPartitions c) (numReplicas c) (autoCreateTopic c) (doneCh c) v.

(** Modelled from the spec: the constants of kafka/client.go that the client
    reads (the two consumer strategies and the documented defaults of the
    options); their values are left open. *)
Class Constants : Type := {
  PartitionConsumer : Z;
  GroupCustomer : Z;
  DefaultKafkaHost : string;
  DefaultKafkaPort : Z;
  DefaultGroupName : string;
  DefaultConsumerType : Z;
  DefaultProducerFlushFrequency : Z;
  DefaultProducerFlushMessages : Z;
  DefaultProducerFlushMaxmessages : Z;
  DefaultProducerRetryMax : Z;
  DefaultProducerRetryBackoff : Z;
  DefaultProducerReturnSuccess : bool;
  DefaultProducerReturnErrors : bool;
  DefaultConsumerMaxwait : Z;
  DefaultMaxProcessingTime : Z;
  DefaultNumberPartitions : Z;
  DefaultNumberReplicas : Z;
  DefaultAutoCreateTopic : bool;
  DefaultMaxRetries : Z
}.

(** Go's conversions [int32(x)] and [int16(x)] keep the low bits. *)
Definition wrap_signed (bits : Z) (x : Z) : Z :=
  (x + 2 ^ (bits - 1)) mod 2 ^ bits - 2 ^ (bits - 1).
Definition int32 (x : Z) : Z := wrap_signed 32 x.
Definition int16 (x : Z) : Z := wrap_signed 16 x.

(** ** The environment: broker, runtime and protobuf *)

Section Client.

(** [proto.Message] values and the envelope [ca.InterContainerMessage]. *)
Variable ProtoMessage : Type.
Variable InterContainerMessage : Type.

(** The goroutines the client starts with [go]. *)
Inductive task : Type :=
  | task_startConsumers (topic : Topic)
  | task_consumeFromAPartition (topic : Topic) (consumer : handle) (consumerChnls : loc)
  | task_consumeGroupMessages (topic : Topic) (consumer : handle) (consumerChnls : loc)
  | task_dispatchToConsumers (consumerCh : loc) (protoMessage : InterContainerMessage)
  | task_send (c : chan_id) (protoMessage : InterContainerMessage).

(** What the client does to the world outside the package, in order. *)
Inductive event : Type :=
  | EvNewClusterAdmin (addrs : list string)
  | EvNewAsyncProducer (addrs : list string)
  | EvNewConsumer (addrs : list string)
  | EvAdminCreateTopic (h : handle) (name : string) (numPartitions replicationFactor : Z)
  | EvAdminDeleteTopic (h : handle) (name : string)
  | EvPartitions (h : handle) (topic : string)
  | EvConsumePartition (h : handle) (topic : string) (partition offset : Z)
  | EvNewGroupConsumer (addrs : list string) (groupId : string) (topics : list string)
  | EvClose (h : handle)
  | EvInput (h : handle) (msg : ProducerMessage)
  | EvMarkOffset (h : handle) (msg : ConsumerMessage) (metadata : string)
  | EvCloseChan (ch : chan_id)
  | EvGo (t : task).

(** The answers of the libraries.  [broker_err tr ev] is the error (or nil)
    the call [ev] returns after the history [tr]; [broker_partitions] is the
    partition list of a successful [Partitions] call. *)
Class Environment : Type := {
  broker_err : list event -> event -> option error;
  broker_partitions : list event -> handle -> string -> list Z;
  KError_text : Z -> string;
  Marshal : ProtoMessage -> error + list byte;
  Unmarshal : list byte -> error + InterContainerMessage
}.

Context {consts : Constants} {env : Environment}.

(** The method [Error()] of an error value. *)
Definition Error (e : error) : string :=
  match e with
  | KError code => KError_text code
  | errorString msg => msg
  end.

(** [sarama.OffsetNewest]. *)
Definition OffsetNewest : Z := -1.

(** ** The state and the monad of the model *)

Record World : Type := {
  sc : SaramaClient;
  heap : gmap loc consumerChannels;
  nextId : nat;
  trace : list event
}.

Inductive panic_value : Type :=
  | panic_error (e : error)
  | panic_close_of_closed_channel (ch : chan_id)
  | panic_nil_dereference
  | panic_nil_map_assignment.

(** A method returns, panics, or blocks for ever in the state it is in. *)
Inductive outcome (A : Type) : Type :=
  | Done (a : A) (w : World)
  | Panics (p : panic_value) (w : World)
  | Blocks (w : World).
Arguments Done {A} a w.
Arguments Panics {A} p w.
Arguments Blocks {A} w.

Definition M (A : Type) : Type := World -> outcome A.

Definition ret {A : Type} (a : A) : M A := fun w => Done a w.

Definition bind {A B : Type} (m : M A) (k : A -> M B) : M B :=
  fun w =>
    match m w with
    | Done a w' => k a w'
    | Panics p w' => Panics p w'
    | Blocks w' => Blocks w'
    end.

Notation "x <- m ;; k" := (bind m (fun x => k))
  (at level 100, m at next level, right associativity).

Definition panic {A : Type} (p : panic_value) : M A := fun w => Panics p w.
Definition block {A : Type} : M A := fun w => Blocks w.

Definition getClient : M SaramaClient := fun w => Done (sc w) w.

Definition modifyClient (f : SaramaClient -> SaramaClient) : M unit :=
  fun w => Done tt (Build_World (f (sc w)) (heap w) (nextId w) (trace w)).

Definition emit (ev : event) : M unit :=
  fun w => Done tt (Build_World (sc w) (heap w) (nextId w) (trace w ++ [ev])).

(** A call into sarama: logged, and answered by the oracle. *)
Definition callBroker (ev : event) : M (option error) :=
  fun w => Done (broker_err (trace w) ev)
                (Build_World (sc w) (heap w) (nextId w) (trace w ++ [ev])).

(** [consumer.Partitions(topic)], which returns a list or an error. *)
Definition callPartitions (h : handle) (topic : string) : M (error + list Z) :=
  fun w =>
    let w' := Build_World (sc w) (heap w) (nextId w) (trace w ++ [EvPartitions h topic]) in
    match broker_err (trace w) (EvPartitions h topic) with
    | Some err => Done (inl err) w'
    | None => Done (inr (broker_partitions (trace w) h topic)) w'
    end.

(** A new identity, for [make(chan ...)], [&consumerChannels{...}] and the
    handles the libraries return. *)
Definition fresh : M nat :=
  fun w => Done (nextId w) (Build_World (sc w) (heap w) (S (nextId w)) (trace w)).

Definition deref (l : loc) : M consumerChannels :=
  fun w => match heap w !! l with
           | Some cc => Done cc w
           | None => Panics panic_nil_dereference w
           end.

Definition store (l : loc) (cc : consumerChannels) : M unit :=
  fun w => Done tt (Build_World (sc w) (<[l := cc]> (heap w)) (nextId w) (trace w)).

Definition event_is_close (ch : chan_id) (ev : event) : bool :=
  match ev with
  | EvCloseChan c => Nat.eqb c ch
  | _ => false
  end.

Definition closed (tr : list event) (ch : chan_id) : bool :=
  existsb (event_is_close ch) tr.

(** [close(ch)]: closing a closed channel panics. *)
Definition close (ch : chan_id) : M unit :=
  fun w => if closed (trace w) ch
           then Panics (panic_close_of_closed_channel ch) w
           else emit (EvCloseChan ch) w.

(** [sc.doneCh <- v] on a channel of capacity 1 (nil before [Start]). *)
Definition send_doneCh (v : Z) : M unit :=
  c <- getClient ;;
  match doneCh c with
  | Some [] => modifyClient (set_doneCh (Some [v]))
  | _ => block
  end.

(** [<-sc.doneCh]. *)
Definition recv_doneCh : M Z :=
  c <- getClient ;;
  match doneCh c with
  | Some (v :: rest) => _ <- modifyClient (set_doneCh (Some rest)) ;; ret v
  | _ => block
  end.

(** The registry as the code reads it: a nil map has no entries. *)
Definition registry (c : SaramaClient) : gmap string loc :=
  default ∅ (topicToConsumerChannelMap c).

Definition kafkaFullAddr (c : SaramaClient) : string :=
  KafkaHost c +:+ ":" +:+ pretty (KafkaPort c).


(** ** Construction and options *)

Definition SaramaClientOption : Type := SaramaClient -> SaramaClient.

Definition Host (host : string) : SaramaClientOption := set_KafkaHost host.
Definition Port (port : Z) : SaramaClientOption := set_KafkaPort port.
Definition ConsumerType (consumer : Z) : SaramaClientOption := set_consumerType consumer.
Definition ProducerFlushFrequency (frequency : Z) : SaramaClientOption :=
  set_producerFlushFrequency frequency.
Definition ProducerFlushMessages (num : Z) : SaramaClientOption :=
  set_producerFlushMessages num.
Definition ProducerFlushMaxMessages (num : Z) : SaramaClientOption :=
  set_producerFlushMaxmessages num.
Definition ReturnOnErrors (opt : bool) : SaramaClientOption := set_producerReturnErrors opt.
Definition ReturnOnSuccess (opt : bool) : SaramaClientOption := set_producerReturnSuccess opt.
Definition ConsumerMaxWait (wait : Z) : SaramaClientOption := set_consumerMaxwait wait.
Definition MaxProcessingTime (pTime : Z) : SaramaClientOption := set_maxProcessingTime pTime.
Definition NumPartitions (number : Z) : SaramaClientOption := set_numPartitions number.
Definition NumReplicas (number : Z) : SaramaClientOption := set_numReplicas number.
Definition AutoCreateTopic (opt : bool) : SaramaClientOption := set_autoCreateTopic opt.

(** The zero value of the struct with the defaults written over it, then the
    options in order. *)
Definition NewSaramaClient (opts : list SaramaClientOption) : SaramaClient :=
  let client :=
    {| cAdmin := None;
       KafkaHost := DefaultKafkaHost;
       KafkaPort := DefaultKafkaPort;
       producer := None;
       consumer := None;
       groupConsumer := None;
       consumerType := DefaultConsumerType;
       groupName := "";
       producerFlushFrequency := DefaultProducerFlushFrequency;
       producerFlushMessages := DefaultProducerFlushMessages;
       producerFlushMaxmessages := DefaultProducerFlushMaxmessages;
       producerRetryMax := DefaultProducerRetryMax;
       producerRetryBackOff := DefaultProducerRetryBackoff;
       producerReturnSuccess := DefaultProducerReturnSuccess;
       producerReturnErrors := DefaultProducerReturnErrors;
       consumerMaxwait := DefaultConsumerMaxwait;
       maxProcessingTime := DefaultMaxProcessingTime;
       numPartitions := DefaultNumberPartitions;
       numReplicas := DefaultNumberReplicas;
       autoCreateTopic := DefaultAutoCreateTopic;
       doneCh := None;
       topicToConsumerChannelMap := None |} in
  fold_left (fun client option => option client) opts client.

(** The world a new client lives in: nothing allocated, nothing done. *)
Definition newWorld (client : SaramaClient) : World :=
  {| sc := client; heap := ∅; nextId := 0%nat; trace := [] |}.

(** ** Handles *)

Definition createClusterAdmin : M (option error) :=
  c <- getClient ;;
  r <- callBroker (EvNewClusterAdmin [kafkaFullAddr c]) ;;
  match r with
  | Some err => ret (Some err)
  | None =>
      id <- fresh ;;
      _ <- modifyClient (set_cAdmin (Some (sarama_ClusterAdmin id))) ;;
      ret None
  end.

Definition createPublisher : M (option error) :=
  c <- getClient ;;
  r <- callBroker (EvNewAsyncProducer [kafkaFullAddr c]) ;;
  match r with
  | Some err => ret (Some err)
  | None =>
      id <- fresh ;;
      _ <- modifyClient (set_producer (Some (sarama_AsyncProducer id))) ;;
      ret None
  end.

Definition createConsumer : M (option error) :=
  c <- getClient ;;
  r <- callBroker (EvNewConsumer [kafkaFullAddr c]) ;;
  match r with
  | Some err => ret (Some err)
  | None =>
      id <- fresh ;;
      _ <- modifyClient (set_consumer (Some (sarama_Consumer id))) ;;
      ret None
  end.

(** [createGroupConsumer]: [groupId] is a [*string]; nil selects the default
    group name. *)
Definition createGroupConsumer (topic : Topic) (groupId : option string) (retries : Z)
  : M (error + handle) :=
  c <- getClient ;;
  let groupId := match groupId with
                 | None => DefaultGroupName
                 | Some g => g
                 end in
  let topics := [Name topic] in
  r <- callBroker (EvNewGroupConsumer [kafkaFullAddr c] groupId topics) ;;
  match r with
  | Some err => ret (inl err)
  | None =>
      id <- fresh ;;
      _ <- modifyClient (set_groupConsumer (Some (scc_Consumer id))) ;;
      ret (inr (scc_Consumer id))
  end.

(** The loop of [createPartionConsumers] over the partition list. *)
Fixpoint consumePartitions (h : handle) (topic : Topic) (initialOffset : Z)
    (partitionList : list Z) (pConsumers : list handle) : M (error + list handle) :=
  match partitionList with
  | [] => ret (inr pConsumers)
  | partition :: rest =>
      r <- callBroker (EvConsumePartition h (Name topic) partition initialOffset) ;;
      match r with
      | Some err => ret (inl err)
      | None =>
          id <- fresh ;;
          consumePartitions h topic initialOffset rest
            (pConsumers ++ [sarama_PartitionConsumer id])
      end
  end.

Definition createPartionConsumers (topic : Topic) (initialOffset : Z)
  : M (error + list handle) :=
  c <- getClient ;;
  match consumer c with
  | None => panic panic_nil_dereference
  | Some h =>
      r <- callPartitions h (Name topic) ;;
      match r with
      | inl err => ret (inl err)
      | inr partitionList => consumePartitions h topic initialOffset partitionList []
      end
  end.

(** ** The registry *)

Definition addTopicToConsumerChannelMap (id : string) (arg : loc) : M unit :=
  c <- getClient ;;
  match registry c !! id with
  | Some _ => ret tt
  | None =>
      match topicToConsumerChannelMap c with
      | None => panic panic_nil_map_assignment
      | Some m => modifyClient (set_topicToConsumerChannelMap (Some (<[id := arg]> m)))
      end
  end.

(** [delete(sc.topicToConsumerChannelMap, id)]; nothing happens on a nil map. *)
Definition delete_topic (id : string) : M unit :=
  c <- getClient ;;
  modifyClient (set_topicToConsumerChannelMap (delete id <$> topicToConsumerChannelMap c)).

Definition deleteFromTopicToConsumerChannelMap (id : string) : M unit :=
  c <- getClient ;;
  match registry c !! id with
  | Some _ => delete_topic id
  | None => ret tt
  end.

Definition getConsumerChannel (topic : Topic) : M (option loc) :=
  c <- getClient ;;
  ret (registry c !! Name topic).

Definition addChannelToConsumerChannelMap (topic : Topic) (ch : chan_id) : M unit :=
  c <- getClient ;;
  match registry c !! Name topic with
  | Some consumerCh =>
      cc <- deref consumerCh ;;
      store consumerCh {| consumers := consumers cc; channels := channels cc ++ [ch] |}
  | None => ret tt
  end.

(** [closeConsumers]: the loop, with the running value of [err]. *)
Fixpoint closeConsumers_from (err : option error) (consumers : list handle)
  : M (option error) :=
  match consumers with
  | [] => ret err
  | consumer :: rest =>
      match consumer with
      | sarama_PartitionConsumer _ | scc_Consumer _ =>
          errTemp <- callBroker (EvClose consumer) ;;
          match errTemp with
          | Some e =>
              if String.eqb (Error e) (Error ErrUnknownTopicOrPartition)
              then closeConsumers_from None rest
              else closeConsumers_from (Some e) rest
          | None => closeConsumers_from err rest
          end
      | _ => closeConsumers_from err rest
      end
  end.

Definition closeConsumers (consumers : list handle) : M (option error) :=
  closeConsumers_from None consumers.

(** The first index of [ch] in [channels]. *)
Fixpoint index_of (ch : chan_id) (channels : list chan_id) : option nat :=
  match channels with
  | [] => None
  | channel :: rest =>
      if Nat.eqb channel ch then Some 0%nat else S <$> index_of ch rest
  end.

(** [channels[len-1], channels[i] = channels[i], channels[len-1]]. *)
Definition swap_with_last (channels : list chan_id) (i : nat) : list chan_id :=
  match channels !! i, channels !! pred (length channels) with
  | Some at_i, Some at_last =>
      <[i := at_last]> (<[pred (length channels) := at_i]> channels)
  | _, _ => channels
  end.

(** [removeChannel(channels, ch)].  Every caller passes the slice
    [consumerCh.channels] of a registry entry, and the swap is done in the
    array that slice shares with the entry: the model is given the entry
    [consumerCh], writes the swapped array to it, and returns the slice
    [channels[:len-1]]. *)
Definition removeChannel (consumerCh : loc) (ch : chan_id) : M (list chan_id) :=
  cc <- deref consumerCh ;;
  match index_of ch (channels cc) with
  | Some i =>
      let swapped := swap_with_last (channels cc) i in
      _ <- store consumerCh {| consumers := consumers cc; channels := swapped |} ;;
      _ <- close ch ;;
      ret (take (pred (length swapped)) swapped)
  | None => ret (channels cc)
  end.

Definition removeChannelFromConsumerChannelMap (topic : Topic) (ch : chan_id)
  : M (option error) :=
  c <- getClient ;;
  match registry c !! Name topic with
  | Some consumerCh =>
      remaining <- removeChannel consumerCh ch ;;
      cc <- deref consumerCh ;;
      _ <- store consumerCh {| consumers := consumers cc; channels := remaining |} ;;
      if Nat.eqb (length remaining) 0
      then
        err <- closeConsumers (consumers cc) ;;
        _ <- delete_topic (Name topic) ;;
        ret err
      else ret None
  | None => ret (Some (errorString "topic-does-not-exist"))
  end.

(** [for _, ch := range consumerCh.channels { removeChannel(consumerCh.channels, ch) }]:
    the range fixes the length once and reads element [i] of the shared array
    at iteration [i]; the slice [removeChannel] returns is dropped, so the
    entry keeps its length. *)
Fixpoint range_removeChannel (consumerCh : loc) (indices : list nat) : M unit :=
  match indices with
  | [] => ret tt
  | i :: rest =>
      cc <- deref consumerCh ;;
      match channels cc !! i with
      | Some ch =>
          _ <- removeChannel consumerCh ch ;;
          range_removeChannel consumerCh rest
      | None => range_removeChannel consumerCh rest
      end
  end.

Definition clearChannels (consumerCh : loc) : M unit :=
  cc <- deref consumerCh ;;
  range_removeChannel consumerCh (seq 0 (length (channels cc))).

Definition clearTopicFromConsumerChannelMap (topic : Topic) : M (option error) :=
  c <- getClient ;;
  match registry c !! Name topic with
  | Some consumerCh =>
      _ <- clearChannels consumerCh ;;
      cc <- deref consumerCh ;;
      err <- closeConsumers (consumers cc) ;;
      _ <- delete_topic (Name topic) ;;
      ret err
  | None => ret None
  end.

(** The loop of [clearConsumerChannelMap] over the entries of the map. *)
Fixpoint clearEntries (err : option error) (entries : list (string * loc))
  : M (option error) :=
  match entries with
  | [] => ret err
  | (topic, consumerCh) :: rest =>
      _ <- clearChannels consumerCh ;;
      cc <- deref consumerCh ;;
      errTemp <- closeConsumers (consumers cc) ;;
      _ <- delete_topic topic ;;
      match errTemp with
      | Some e => clearEntries (Some e) rest
      | None => clearEntries err rest
      end
  end.

(** Go ranges over a map in an order of its own choosing; the model takes
    the order of [map_to_list]. *)
Definition clearConsumerChannelMap : M (option error) :=
  c <- getClient ;;
  clearEntries None (map_to_list (registry c)).

(** ** Topics on the broker *)

Definition CreateTopic (topic : Topic) (numPartition repFactor : Z) : M (option error) :=
  c <- getClient ;;
  match cAdmin c with
  | None => panic panic_nil_dereference
  | Some h =>
      r <- callBroker (EvAdminCreateTopic h (Name topic) (int32 numPartition) (int16 repFactor)) ;;
      match r with
      | Some err =>
          if error_eqb err ErrTopicAlreadyExists
          then ret None
          else ret (Some err)
      | None => ret None
      end
  end.

Definition DeleteTopic (topic : Topic) : M (option error) :=
  c <- getClient ;;
  match cAdmin c with
  | None => panic panic_nil_dereference
  | Some h =>
      r <- callBroker (EvAdminDeleteTopic h (Name topic)) ;;
      match r with
      | Some err =>
          if error_eqb err ErrUnknownTopicOrPartition
          then ret None
          else ret (Some err)
      | None =>
          r <- clearTopicFromConsumerChannelMap topic ;;
          match r with
          | Some err => ret (Some err)
          | None => ret None
          end
      end
  end.

(** ** Subscriptions *)

Definition setupPartitionConsumerChannel (topic : Topic) (initialOffset : Z)
  : M (error + chan_id) :=
  r <- createPartionConsumers topic initialOffset ;;
  match r with
  | inl err => ret (inl err)
  | inr pConsumers =>
      let consumersIf := fold_left (fun (acc : list handle) pConsumer => acc ++ [pConsumer]) pConsumers [] in
      consumerListeningChannel <- fresh ;;
      cc <- fresh ;;
      _ <- store cc {| consumers := consumersIf; channels := [consumerListeningChannel] |} ;;
      _ <- addTopicToConsumerChannelMap (Name topic) cc ;;
      _ <- emit (EvGo (task_startConsumers topic)) ;;
      ret (inr consumerListeningChannel)
  end.

Definition setupGroupConsumerChannel (topic : Topic) (groupId : string)
  : M (error + chan_id) :=
  r <- createGroupConsumer topic (Some groupId) DefaultMaxRetries ;;
  match r with
  | inl err => ret (inl err)
  | inr pConsumer =>
      consumerListeningChannel <- fresh ;;
      cc <- fresh ;;
      _ <- store cc {| consumers := [pConsumer]; channels := [consumerListeningChannel] |} ;;
      _ <- addTopicToConsumerChannelMap (Name topic) cc ;;
      _ <- emit (EvGo (task_startConsumers topic)) ;;
      ret (inr consumerListeningChannel)
  end.

Definition Subscribe (topic : Topic) : M (error + chan_id) :=
  consumerCh <- getConsumerChannel topic ;;
  match consumerCh with
  | Some _ =>
      ch <- fresh ;;
      _ <- addChannelToConsumerChannelMap topic ch ;;
      ret (inr ch)
  | None =>
      c <- getClient ;;
      if Z.eqb (consumerType c) PartitionConsumer then
        r <- (if autoCreateTopic c
              then CreateTopic topic (numPartitions c) (numReplicas c)
              else ret None) ;;
        match r with
        | Some err => ret (inl err)
        | None =>
            r <- setupPartitionConsumerChannel topic OffsetNewest ;;
            match r with
            | inl err => ret (inl err)
            | inr consumerListeningChannel => ret (inr consumerListeningChannel)
            end
        end
      else if Z.eqb (consumerType c) GroupCustomer then
        r <- setupGroupConsumerChannel topic "mytest" ;;
        match r with
        | inl err => ret (inl err)
        | inr consumerListeningChannel => ret (inr consumerListeningChannel)
        end
      else ret (inl (errorString "unknown-consumer-type"))
  end.

Definition UnSubscribe (topic : Topic) (ch : chan_id) : M (option error) :=
  removeChannelFromConsumerChannelMap topic ch.

(** ** The producer path *)

(** An [interface{}] argument: a value that implements [proto.Message], or
    any other value, of which only its [%s] rendering is used. *)
Inductive any : Type :=
  | any_proto (m : ProtoMessage)
  | any_other (fmt_s : string).

Definition Send (msg : any) (topic : Topic) (keys : list string) : M (option error) :=
  match msg with
  | any_other fmt_s => ret (Some (errorString ("not-a-proto-msg-" +:+ fmt_s)))
  | any_proto protoMsg =>
      match Marshal protoMsg with
      | inl err => ret (Some err)
      | inr marshalled =>
          let key := match keys with
                     | [] => ""
                     | key0 :: _ => key0
                     end in
          let kafkaMsg := {| pm_Topic := Name topic; pm_Key := key; pm_Value := marshalled |} in
          c <- getClient ;;
          match producer c with
          | None => panic panic_nil_dereference
          | Some p => _ <- emit (EvInput p kafkaMsg) ;; ret None
          end
      end
  end.

(** ** Dispatch and the consumption loops *)

Definition dispatchToConsumers (consumerCh : loc) (protoMessage : InterContainerMessage)
  : M unit :=
  cc <- deref consumerCh ;;
  fold_right (fun ch rest => _ <- emit (EvGo (task_send ch protoMessage)) ;; rest)
             (ret tt) (channels cc).

(** The case a [select] of a consumption loop takes, with the value it
    received. *)
Inductive select_case : Type :=
  | case_Errors (err : option error)
  | case_Messages (msg : option ConsumerMessage)
  | case_Notifications
  | case_doneCh.

Inductive loop_ctl : Type := loop_continue | loop_break.

(** One turn of the loop of [consumeFromAPartition]; its [select] has no
    notification case, so that case never comes up. *)
Definition consumeFromAPartition_turn (topic : Topic) (consumer : handle)
    (consumerChnls : loc) (sel : select_case) : M loop_ctl :=
  match sel with
  | case_Errors _ => ret loop_continue
  | case_Messages None => ret loop_break
  | case_Messages (Some msg) =>
      match Unmarshal (cm_Value msg) with
      | inl _ => ret loop_continue
      | inr icm =>
          _ <- emit (EvGo (task_dispatchToConsumers consumerChnls icm)) ;;
          ret loop_continue
      end
  | case_Notifications => block
  | case_doneCh => _ <- recv_doneCh ;; ret loop_break
  end.

(** One turn of the loop of [consumeGroupMessages]. *)
Definition consumeGroupMessages_turn (topic : Topic) (consumer : handle)
    (consumerChnls : loc) (sel : select_case) : M loop_ctl :=
  match sel with
  | case_Errors _ => ret loop_continue
  | case_Messages None => ret loop_break
  | case_Messages (Some msg) =>
      match Unmarshal (cm_Value msg) with
      | inl _ => ret loop_continue
      | inr icm =>
          _ <- emit (EvGo (task_dispatchToConsumers consumerChnls icm)) ;;
          _ <- emit (EvMarkOffset consumer msg "") ;;
          ret loop_continue
      end
  | case_Notifications => ret loop_continue
  | case_doneCh => _ <- recv_doneCh ;; ret loop_break
  end.

(** The loop of [startConsumers] over the consumers of the entry. *)
Fixpoint startConsumers_loop (topic : Topic) (consumerCh : loc) (consumers : list handle)
  : M (option error) :=
  match consumers with
  | [] => ret None
  | consumer :: rest =>
      match consumer with
      | sarama_PartitionConsumer _ =>
          _ <- emit (EvGo (task_consumeFromAPartition topic consumer consumerCh)) ;;
          startConsumers_loop topic consumerCh rest
      | scc_Consumer _ =>
          _ <- emit (EvGo (task_consumeGroupMessages topic consumer consumerCh)) ;;
          startConsumers_loop topic consumerCh rest
      | _ => ret (Some (errorString "invalid-consumer"))
      end
  end.

Definition startConsumers (topic : Topic) : M (option error) :=
  consumerCh <- getConsumerChannel topic ;;
  match consumerCh with
  | None => ret (Some (errorString "consumers-not-exist"))
  | Some consumerCh =>
      cc <- deref consumerCh ;;
      startConsumers_loop topic consumerCh (consumers cc)
  end.

(** ** Start and Stop *)

Definition Start : M (option error) :=
  _ <- modifyClient (set_doneCh (Some [])) ;;
  err <- createClusterAdmin ;;
  match err with
  | Some err => ret (Some err)
  | None =>
      err <- createPublisher ;;
      match err with
      | Some err => ret (Some err)
      | None =>
          err <- createConsumer ;;
          match err with
          | Some err => ret (Some err)
          | None =>
              _ <- modifyClient (set_topicToConsumerChannelMap (Some ∅)) ;;
              ret None
          end
      end
  end.

(** [if h != nil { if err := h.Close(); err != nil { panic(err) } }]. *)
Definition closeOrPanic (h : option handle) : M unit :=
  match h with
  | None => ret tt
  | Some h =>
      err <- callBroker (EvClose h) ;;
      match err with
      | Some err => panic (panic_error err)
      | None => ret tt
      end
  end.

Definition Stop : M unit :=
  _ <- send_doneCh 1 ;;
  c <- getClient ;;
  _ <- closeOrPanic (producer c) ;;
  _ <- closeOrPanic (consumer c) ;;
  _ <- closeOrPanic (groupConsumer c) ;;
  _ <- closeOrPanic (cAdmin c) ;;
  _ <- clearConsumerChannelMap ;;
  ret tt.

(** ** The vocabulary of the statements *)

(** The state an outcome leaves behind. *)
Definition outcome_world {A : Type} (o : outcome A) : World :=
  match o with
  | Done _ w => w
  | Panics _ w => w
  | Blocks w => w
  end.

(** [w] with [evs] appended to its trace. *)
Definition after (w : World) (evs : list event) : World :=
  {| sc := sc w; heap := heap w; nextId := nextId w; trace := trace w ++ evs |}.

(** The events with which [dispatchToConsumers] hands [protoMessage] to the
    channels of an entry. *)
Definition sends_to (chs : list chan_id) (protoMessage : InterContainerMessage)
  : list event :=
  map (fun ch => EvGo (task_send ch protoMessage)) chs.

(** [preserves R m]: the state [m] leaves behind, however it ends, is
    related by [R] to the state it started in. *)
Definition preserves {A : Type} (R : relation World) (m : M A) : Prop :=
  forall w : World, R w (outcome_world (m w)).

(** Only appending to the trace, and only events that satisfy [P]. *)
Definition appends (P : event -> Prop) : relation World :=
  fun w w' => exists tail : list event, trace w' = trace w ++ tail /\ Forall P tail.

Abbreviation emits P m := (preserves (appends P) m).

(** Leaving the registry map and the entries behind it as they are. *)
Definition frame : relation World :=
  fun w w' =>
    topicToConsumerChannelMap (sc w') = topicToConsumerChannelMap (sc w)
    /\ heap w' = heap w.

(** Calls to [scc.NewConsumer], calls to [CreateTopic] of the admin handle. *)
Definition is_NewGroupConsumer (ev : event) : Prop :=
  match ev with
  | EvNewGroupConsumer _ _ _ => True
  | _ => False
  end.

Definition is_AdminCreateTopic (ev : event) : Prop :=
  match ev with
  | EvAdminCreateTopic _ _ _ _ => True
  | _ => False
  end.

(** [Subscribe(topic)] called [n] times in a row, with what each call
    returned. *)
Fixpoint Subscribe_times (topic : Topic) (n : nat) : M (list (error + chan_id)) :=
  match n with
  | O => ret []
  | S n' =>
      r <- Subscribe topic ;;
      rs <- Subscribe_times topic n' ;;
      ret (r :: rs)
  end.

(** The handles [closeConsumers] calls [Close] on. *)
Definition is_registry_consumer (h : handle) : bool :=
  match h with
  | sarama_PartitionConsumer _ | scc_Consumer _ => true
  | _ => false
  end.

(** The calls [closeConsumers] makes on the consumers [cs]. *)
Definition close_events (cs : list handle) : list event :=
  map EvClose (List.filter is_registry_consumer cs).

(** What the broker answers to these calls, made one after the other from
    the history [tr]. *)
Fixpoint close_answers (tr : list event) (cs : list handle) : list (option error) :=
  match cs with
  | [] => []
  | c :: rest =>
      if is_registry_consumer c
      then broker_err tr (EvClose c) :: close_answers (tr ++ [EvClose c]) rest
      else close_answers tr rest
  end.

(** A close error that reads like "unknown topic or partition" is not kept. *)
Definition tolerated (e : error) : bool :=
  String.eqb (Error e) (Error ErrUnknownTopicOrPartition).

(** The error [closeConsumers] ends with: each failing [Close] overwrites
    [err], a tolerated failure with nil. *)
Definition fold_close_error (err : option error) (answers : list (option error))
  : option error :=
  fold_left (fun err answer =>
               match answer with
               | Some e => if tolerated e then None else Some e
               | None => err
               end) answers err.

(** A [Close] that succeeded, or failed with a tolerated error. *)
Definition nil_or_tolerated (answer : option error) : Prop :=
  match answer with
  | Some e => tolerated e = true
  | None => True
  end.

(** The handles [Stop] closes itself, in the order it closes them. *)
Definition stop_handles (c : SaramaClient) : list handle :=
  option_list (producer c) ++ option_list (consumer c)
  ++ option_list (groupConsumer c) ++ option_list (cAdmin c).

(** The channels of the entries [entries] of the registry. *)
Definition entries_channels (h : gmap loc consumerChannels) (entries : list (string * loc))
  : list chan_id :=
  flat_map (fun entry => match h !! entry.2 with
                         | Some cc => channels cc
                         | None => []
                         end) entries.

(** What clearing these entries adds to the trace: per entry, its channels
    closed, then its consumers closed. *)
Definition clear_events (h : gmap loc consumerChannels) (entries : list (string * loc))
  : list event :=
  flat_map (fun entry => match h !! entry.2 with
                         | Some cc => map EvCloseChan (channels cc) ++ close_events (consumers cc)
                         | None => []
                         end) entries.

(** Every entry is there and holds at most one channel; the channels of the
    registry are different from each other and open. *)
Definition entries_ok (tr : list event) (h : gmap loc consumerChannels)
    (entries : list (string * loc)) : bool :=
  forallb (fun entry => match h !! entry.2 with
                        | Some cc => Nat.leb (length (channels cc)) 1
                        | None => false
                        end) entries
  && bool_decide (NoDup (entries_channels h entries))
  && forallb (fun ch => negb (closed tr ch)) (entries_channels h entries).

(** The same of the whole registry of a state. *)
Definition registry_ok (w : World) : bool :=
  entries_ok (trace w) (heap w) (map_to_list (registry (sc w))).

(** The map after [delete(m, id)] for each of [ids]. *)
Definition delete_all (ids : list string) (m : gmap string loc) : gmap string loc :=
  fold_left (fun m id => delete id m) ids m.

(** The loop [startConsumers] starts for one consumer of an entry. *)
Definition loop_of (topic : Topic) (consumerCh : loc) (consumer : handle) : list event :=
  match consumer with
  | sarama_PartitionConsumer _ =>
      [EvGo (task_consumeFromAPartition topic consumer consumerCh)]
  | scc_Consumer _ => [EvGo (task_consumeGroupMessages topic consumer consumerCh)]
  | _ => []
  end.

(** The calls [createPartionConsumers] makes for the partitions [ps]. *)
Definition consume_events (h : handle) (topic : Topic) (initialOffset : Z) (ps : list Z)
  : list event :=
  map (fun partition => EvConsumePartition h (Name topic) partition initialOffset) ps.

(** The events that close a handle or a channel. *)
Definition is_Close (ev : event) : Prop :=
  match ev with
  | EvClose _ | EvCloseChan _ => True
  | _ => False
  end.

(** Leaving the registry map and its entries as they are, closing nothing,
    and handing out identities upwards only. *)
Definition steady : relation World :=
  fun w w' =>
    topicToConsumerChannelMap (sc w') = topicToConsumerChannelMap (sc w)
    /\ heap w' = heap w
    /\ (nextId w <= nextId w')%nat
    /\ exists tail : list event,
         trace w' = trace w ++ tail /\ Forall (fun ev => ~ is_Close ev) tail.

(** The guarded closes of [Stop], one handle after the other: the first
    refusal is the panic value; [k] is what follows them. *)
Fixpoint closeAll {A : Type} (hs : list handle) (k : M A) : M A :=
  match hs with
  | [] => k
  | h :: rest =>
      err <- callBroker (EvClose h) ;;
      match err with
      | Some err => panic (panic_error err)
      | None => closeAll rest k
      end
  end.

(** The options the package offers to [NewSaramaClient]. *)
Inductive client_option : SaramaClientOption -> Prop :=
  | option_Host host : client_option (Host host)
  | option_Port port : client_option (Port port)
  | option_ConsumerType consumer : client_option (ConsumerType consumer)
  | option_ProducerFlushFrequency frequency :
      client_option (ProducerFlushFrequency frequency)
  | option_ProducerFlushMessages num : client_option (ProducerFlushMessages num)
  | option_ProducerFlushMaxMessages num : client_option (ProducerFlushMaxMessages num)
  | option_ReturnOnErrors opt : client_option (ReturnOnErrors opt)
  | option_ReturnOnSuccess opt : client_option (ReturnOnSuccess opt)
  | option_ConsumerMaxWait wait : client_option (ConsumerMaxWait wait)
  | option_MaxProcessingTime pTime : client_option (MaxProcessingTime pTime)
  | option_NumPartitions number : client_option (NumPartitions number)
  | option_NumReplicas number : client_option (NumReplicas number)
  | option_AutoCreateTopic opt : client_option (AutoCreateTopic opt).

(** A client that holds no handle, no done channel and no registry map, as
    before [Start]. *)
Definition not_started (c : SaramaClient) : Prop :=
  cAdmin c = None /\ producer c = None /\ consumer c = None
  /\ groupConsumer c = None /\ doneCh c = None
  /\ topicToConsumerChannelMap c = None.

(** An entry in good order: it holds channels, all different, all handed
    out before [n], none closed in [tr]. *)
Definition entry_ok (n : nat) (tr : list event) (cc : consumerChannels) : Prop :=
  channels cc <> []
  /\ NoDup (channels cc)
  /\ forall ch, ch ∈ channels cc -> (ch < n)%nat /\ closed tr ch = false.

(** A registry in good order: every topic has an entry of its own, in good
    order, no channel is held by two topics, and every identity in use was
    handed out by the counter. *)
Definition registry_wf (w : World) : Prop :=
  (forall (T : string) (l : loc), registry (sc w) !! T = Some l ->
     (l < nextId w)%nat
     /\ exists cc, heap w !! l = Some cc /\ entry_ok (nextId w) (trace w) cc)
  /\ (forall T T' l, registry (sc w) !! T = Some l -> registry (sc w) !! T' = Some l -> T = T')
  /\ (forall T T' l l' cc cc' ch,
        registry (sc w) !! T = Some l -> registry (sc w) !! T' = Some l' ->
        heap w !! l = Some cc -> heap w !! l' = Some cc' ->
        ch ∈ channels cc -> ch ∈ channels cc' -> T = T')
  /\ (forall ch, closed (trace w) ch = true -> (ch < nextId w)%nat).

(** A client with the handles and the registry map [Start] gives it. *)
Definition started (c : SaramaClient) : Prop :=
  cAdmin c <> None /\ consumer c <> None /\ topicToConsumerChannelMap c <> None.

(** Leaving the admin handle and the master consumer as they are. *)
Definition handles_kept : relation World :=
  fun w w' => cAdmin (sc w') = cAdmin (sc w) /\ consumer (sc w') = consumer (sc w).

(** The calls of a subscriber, and a run of them one after the other. *)
Inductive call : Type :=
  | call_CreateTopic (topic : Topic) (numPartition repFactor : Z)
  | call_Subscribe (topic : Topic)
  | call_UnSubscribe (topic : Topic) (ch : chan_id).

Definition do_call (c : call) : M unit :=
  match c with
  | call_CreateTopic topic numPartition repFactor =>
      _ <- CreateTopic topic numPartition repFactor ;; ret tt
  | call_Subscribe topic => _ <- Subscribe topic ;; ret tt
  | call_UnSubscribe topic ch => _ <- UnSubscribe topic ch ;; ret tt
  end.

Fixpoint do_calls (calls : list call) : M unit :=
  match calls with
  | [] => ret tt
  | c :: rest => _ <- do_call c ;; do_calls rest
  end.

(** A call that returns: it neither panics nor blocks. *)
Definition returns {A : Type} (m : M A) (w : World) : Prop :=
  exists (a : A) (w' : World), m w = Done a w'.

(** ** Reasoning about the model *)

Lemma World_eta (w : World) :
  {| sc := sc w; heap := heap w; nextId := nextId w; trace := trace w |} = w.
Proof. by destruct w. Qed.

Lemma consumerChannels_eta (cc : consumerChannels) :
  {| consumers := consumers cc; channels := channels cc |} = cc.
Proof. by destruct cc. Qed.

Lemma after_nil (w : World) : after w [] = w.
Proof. unfold after. rewrite app_nil_r. apply World_eta. Qed.

Lemma after_after (w : World) (e1 e2 : list event) :
  after (after w e1) e2 = after w (e1 ++ e2).
Proof. unfold after; simpl. by rewrite app_assoc. Qed.

Lemma bind_Done {A B : Type} (m : M A) (k : A -> M B) (w w' : World) (a : A) :
  m w = Done a w' -> bind m k w = k a w'.
Proof. intros H. unfold bind. by rewrite H. Qed.

Lemma bind_Panics {A B : Type} (m : M A) (k : A -> M B) (w w' : World) p :
  m w = Panics p w' -> bind m k w = Panics p w'.
Proof. intros H. unfold bind. by rewrite H. Qed.

Lemma index_of_None (ch : chan_id) (channels : list chan_id) :
  ch ∉ channels -> index_of ch channels = None.
Proof.
  induction channels as [|c rest IH]; intros Hnot; simpl; [done|].
  destruct (Nat.eqb_spec c ch) as [->|Hne].
  - exfalso. apply Hnot. by left.
  - rewrite IH; [done|]. intros Hin. apply Hnot. by right.
Qed.

Lemma index_of_Some (ch : chan_id) (channels : list chan_id) (i : nat) :
  index_of ch channels = Some i -> channels !! i = Some ch.
Proof.
  revert i. induction channels as [|c rest IH]; intros i; simpl; [done|].
  destruct (Nat.eqb_spec c ch) as [->|Hne].
  - by intros [= <-].
  - destruct (index_of ch rest) as [j|] eqn:Hj; simpl; [|done].
    intros [= <-]. simpl. by apply IH.
Qed.

(** ** UnSubscribe with a channel the entry does not hold *)

(** C10: on an entry whose collection is not empty and does not hold [ch],
    [UnSubscribe] returns nil and leaves the whole state as it was: no
    channel and no consumer is closed, the collection is the same. *)
Theorem UnSubscribe_channel_not_found
    (w : World) (topic : Topic) (consumerCh : loc) (cc : consumerChannels) (ch : chan_id) :
  registry (sc w) !! Name topic = Some consumerCh ->
  heap w !! consumerCh = Some cc ->
  channels cc <> [] ->
  ch ∉ channels cc ->
  UnSubscribe topic ch w = Done None w.
Proof.
  intros Hreg Hheap Hne Hnot.
  unfold UnSubscribe, removeChannelFromConsumerChannelMap, removeChannel,
    bind, getClient, deref, store, ret; simpl.
  rewrite Hreg, Hheap, (index_of_None _ _ Hnot); simpl.
  rewrite Hheap; simpl.
  destruct (channels cc) as [|c rest] eqn:Hch; [done|]; simpl.
  rewrite <- Hch, consumerChannels_eta, insert_id by done.
  by rewrite World_eta.
Qed.

(** ** Topics that already exist, topics that are unknown *)

(** C8: when the broker answers [ErrTopicAlreadyExists] to the creation,
    [CreateTopic] returns nil, and when it answers
    [ErrUnknownTopicOrPartition] to the deletion, [DeleteTopic] returns nil;
    in both cases the only effect is the call to the admin handle. *)
Theorem CreateTopic_DeleteTopic_idempotent
    (w : World) (h : handle) (topic : Topic) (numPartition repFactor : Z) :
  cAdmin (sc w) = Some h ->
  (broker_err (trace w)
     (EvAdminCreateTopic h (Name topic) (int32 numPartition) (int16 repFactor))
     = Some ErrTopicAlreadyExists ->
   CreateTopic topic numPartition repFactor w
     = Done None
         (after w [EvAdminCreateTopic h (Name topic) (int32 numPartition) (int16 repFactor)]))
  /\ (broker_err (trace w) (EvAdminDeleteTopic h (Name topic))
        = Some ErrUnknownTopicOrPartition ->
      DeleteTopic topic w = Done None (after w [EvAdminDeleteTopic h (Name topic)])).
Proof.
  intros Hadmin. split; intros Hans.
  - unfold CreateTopic, bind, getClient, callBroker, ret. rewrite Hadmin, Hans. done.
  - unfold DeleteTopic, bind, getClient, callBroker, ret. rewrite Hadmin, Hans. done.
Qed.

(** ** The producer path *)

(** C6: a payload that is not a [proto.Message] makes [Send] return the
    error "not-a-proto-msg-..." with the state untouched, so nothing is put
    on the producer input; a proto message that marshals is put on the input
    of the producer once, with the topic name, the marshalled bytes and, as
    key, the first of [keys], or the empty string when there is none. *)
Theorem Send_payload_and_key (w : World) (topic : Topic) (keys : list string) :
  (forall fmt_s : string,
      Send (any_other fmt_s) topic keys w
        = Done (Some (errorString ("not-a-proto-msg-" +:+ fmt_s))) w)
  /\ (forall (protoMsg : ProtoMessage) (marshalled : list byte) (p : handle),
         Marshal protoMsg = inr marshalled ->
         producer (sc w) = Some p ->
         Send (any_proto protoMsg) topic keys w
           = Done None
               (after w [EvInput p {| pm_Topic := Name topic;
                                      pm_Key := hd "" keys;
                                      pm_Value := marshalled |}])).
Proof.
  split.
  - intros fmt_s. reflexivity.
  - intros protoMsg marshalled p Hm Hp.
    unfold Send, bind, getClient, emit, ret. rewrite Hm, Hp.
    by destruct keys.
Qed.

(** ** The group consumption loop *)

Lemma dispatch_fold (chs : list chan_id) (protoMessage : InterContainerMessage) (w : World) :
  fold_right (fun ch rest => _ <- emit (EvGo (task_send ch protoMessage)) ;; rest)
             (ret tt) chs w
  = Done tt (after w (sends_to chs protoMessage)).
Proof.
  revert w. induction chs as [|ch rest IH]; intros w; simpl.
  - unfold ret. by rewrite after_nil.
  - unfold bind at 1, emit at 1. rewrite IH. unfold after; simpl.
    by rewrite <- app_assoc.
Qed.

(** C7: on a non-nil message of the group consumer, a turn of the loop that
    decodes the envelope starts its dispatch and then marks the offset of
    the message on the group consumer, and the started dispatch sends the
    envelope to every subscriber channel of the entry; a turn whose decoding
    fails does nothing (no dispatch, no mark) and the loop goes on. *)
Theorem consumeGroupMessages_dispatch_then_mark
    (w : World) (topic : Topic) (consumer : handle) (consumerChnls : loc)
    (msg : ConsumerMessage) :
  (forall icm : InterContainerMessage,
      Unmarshal (cm_Value msg) = inr icm ->
      consumeGroupMessages_turn topic consumer consumerChnls (case_Messages (Some msg)) w
        = Done loop_continue
            (after w [EvGo (task_dispatchToConsumers consumerChnls icm);
                      EvMarkOffset consumer msg ""])
      /\ forall (w' : World) (cc : consumerChannels),
           heap w' !! consumerChnls = Some cc ->
           dispatchToConsumers consumerChnls icm w'
             = Done tt (after w' (sends_to (channels cc) icm)))
  /\ (forall err : error,
         Unmarshal (cm_Value msg) = inl err ->
         consumeGroupMessages_turn topic consumer consumerChnls (case_Messages (Some msg)) w
           = Done loop_continue w).
Proof.
  split.
  - intros icm Hdec. split.
    + unfold consumeGroupMessages_turn. rewrite Hdec.
      unfold bind, emit, ret, after; simpl. by rewrite <- app_assoc.
    + intros w' cc Hcc. unfold dispatchToConsumers, bind, deref. rewrite Hcc.
      apply dispatch_fold.
  - intros err Hdec. unfold consumeGroupMessages_turn. by rewrite Hdec.
Qed.

(** ** What a method can do to the state *)

Section Preserves.
Context (R : relation World) `{!Reflexive R} `{!Transitive R}.

Lemma preserves_ret {A : Type} (a : A) : preserves R (ret a).
Proof. intros w. simpl. reflexivity. Qed.

Lemma preserves_panic {A : Type} (p : panic_value) : preserves R (@panic A p).
Proof. intros w. simpl. reflexivity. Qed.

Lemma preserves_block {A : Type} : preserves R (@block A).
Proof. intros w. simpl. reflexivity. Qed.

Lemma preserves_getClient : preserves R getClient.
Proof. intros w. simpl. reflexivity. Qed.

Lemma preserves_deref (l : loc) : preserves R (deref l).
Proof. intros w. unfold deref. destruct (heap w !! l); simpl; reflexivity. Qed.

Lemma preserves_bind {A B : Type} (m : M A) (k : A -> M B) :
  preserves R m -> (forall a, preserves R (k a)) -> preserves R (bind m k).
Proof.
  intros Hm Hk w. specialize (Hm w). unfold bind.
  destruct (m w) as [a w1|p w1|w1]; simpl in *; [|done..].
  etransitivity; [exact Hm|]. apply Hk.
Qed.

Lemma preserves_emit (ev : event) :
  (forall w, R w (after w [ev])) -> preserves R (emit ev).
Proof. intros H w. apply H. Qed.

Lemma preserves_callBroker (ev : event) :
  (forall w, R w (after w [ev])) -> preserves R (callBroker ev).
Proof. intros H w. apply H. Qed.

Lemma preserves_callPartitions (h : handle) (topic : string) :
  (forall w, R w (after w [EvPartitions h topic])) ->
  preserves R (callPartitions h topic).
Proof. intros H w. unfold callPartitions. destruct (broker_err _ _); apply H. Qed.

Lemma preserves_close (ch : chan_id) :
  (forall w, R w (after w [EvCloseChan ch])) -> preserves R (close ch).
Proof.
  intros H w. unfold close. destruct (closed (trace w) ch); simpl; [reflexivity|apply H].
Qed.
End Preserves.

#[local] Instance appends_refl P : Reflexive (appends P).
Proof. intros w. exists []. by rewrite app_nil_r. Qed.

#[local] Instance appends_trans P : Transitive (appends P).
Proof.
  intros w1 w2 w3 (t1 & H1 & P1) (t2 & H2 & P2). exists (t1 ++ t2).
  rewrite H2, H1, app_assoc. split; [done|]. by apply Forall_app.
Qed.

Lemma appends_same_trace (P : event -> Prop) (w w' : World) :
  trace w' = trace w -> appends P w w'.
Proof. intros H. exists []. by rewrite app_nil_r. Qed.

Lemma appends_after (P : event -> Prop) (w : World) (ev : event) :
  P ev -> appends P w (after w [ev]).
Proof. intros HP. exists [ev]. split; [done|]. by constructor. Qed.

Lemma emits_modifyClient P f : emits P (modifyClient f).
Proof. intros w. by apply appends_same_trace. Qed.

Lemma emits_fresh P : emits P fresh.
Proof. intros w. by apply appends_same_trace. Qed.

Lemma emits_store P l cc : emits P (store l cc).
Proof. intros w. by apply appends_same_trace. Qed.

Lemma emits_emit (P : event -> Prop) ev : P ev -> emits P (emit ev).
Proof. intros HP. apply preserves_emit. intros w. by apply appends_after. Qed.

Lemma emits_callBroker (P : event -> Prop) ev : P ev -> emits P (callBroker ev).
Proof. intros HP. apply preserves_callBroker. intros w. by apply appends_after. Qed.

Lemma emits_callPartitions (P : event -> Prop) h topic :
  P (EvPartitions h topic) -> emits P (callPartitions h topic).
Proof. intros HP. apply preserves_callPartitions. intros w. by apply appends_after. Qed.

Lemma emits_close (P : event -> Prop) ch : P (EvCloseChan ch) -> emits P (close ch).
Proof. intros HP. apply preserves_close; [apply _|]. intros w. by apply appends_after. Qed.

#[local] Instance frame_refl : Reflexive frame.
Proof. by intros w. Qed.

#[local] Instance frame_trans : Transitive frame.
Proof. intros w1 w2 w3 [H1 H2] [H3 H4]. split; congruence. Qed.

Lemma frame_fresh : preserves frame fresh.
Proof. by intros w. Qed.

Lemma frame_emit ev : preserves frame (emit ev).
Proof. by intros w. Qed.

Lemma frame_callBroker ev : preserves frame (callBroker ev).
Proof. by intros w. Qed.

Lemma frame_callPartitions h topic : preserves frame (callPartitions h topic).
Proof. apply preserves_callPartitions. by intros w. Qed.

Lemma frame_close ch : preserves frame (close ch).
Proof. apply preserves_close; [apply _|]. by intros w. Qed.

Lemma frame_modifyClient f :
  (forall c, topicToConsumerChannelMap (f c) = topicToConsumerChannelMap c) ->
  preserves frame (modifyClient f).
Proof. intros H w. split; [apply H|done]. Qed.

Create HintDb preserves.
#[local] Hint Resolve preserves_ret preserves_panic preserves_block preserves_getClient
  preserves_deref emits_modifyClient emits_fresh emits_store emits_emit
  emits_callBroker emits_callPartitions emits_close
  frame_fresh frame_emit frame_callBroker frame_callPartitions frame_close
  frame_modifyClient : preserves.
#[local] Hint Extern 1 (Reflexive _) => apply _ : preserves.

(** Go through a method body: binds, matches and tests. *)
Ltac preserves_step :=
  match goal with
  | |- preserves _ (bind _ _) => apply preserves_bind; [apply _| |]
  | |- forall _, _ => intros ?
  | |- preserves _ (match ?x with _ => _ end) => destruct x
  | |- preserves _ _ => solve [eauto with preserves]
  end.
Ltac preserves_body := repeat preserves_step.

(** A call to the broker followed by more work: the call comes first. *)
Lemma call_then {A : Type} (P : event -> Prop) (ev : event)
    (k : option error -> M A) (w : World) :
  (forall r, emits P (k r)) ->
  exists tail : list event,
    trace (outcome_world (bind (callBroker ev) k w)) = trace w ++ ev :: tail
    /\ Forall P tail.
Proof.
  intros Hk. unfold bind, callBroker.
  destruct (Hk (broker_err (trace w) ev) (after w [ev])) as (tail & Ht & HP).
  exists tail. unfold after in Ht. rewrite Ht. simpl.
  by rewrite <- app_assoc.
Qed.

(** ** The group identifier *)

Lemma getConsumerChannel_eq (topic : Topic) (w : World) :
  getConsumerChannel topic w = Done (registry (sc w) !! Name topic) w.
Proof. reflexivity. Qed.

(** Under the group strategy the first [Subscribe] on a topic is one call to
    [scc.NewConsumer] and what follows it. *)
Lemma Subscribe_group_path (w : World) (topic : Topic) :
  registry (sc w) !! Name topic = None ->
  consumerType (sc w) <> PartitionConsumer ->
  consumerType (sc w) = GroupCustomer ->
  exists k : option error -> M (error + chan_id),
    Subscribe topic w
      = bind (callBroker (EvNewGroupConsumer [kafkaFullAddr (sc w)] "mytest" [Name topic])) k w
    /\ forall r, emits (fun ev => ~ is_NewGroupConsumer ev /\ ~ is_AdminCreateTopic ev) (k r).
Proof.
  intros Hreg Hnp Hg.
  eexists (fun r =>
    r' <- (r'' <- match r with
                  | Some err => ret (inl err)
                  | None =>
                      id <- fresh ;;
                      _ <- modifyClient (set_groupConsumer (Some (scc_Consumer id))) ;;
                      ret (inr (scc_Consumer id))
                  end ;;
           match r'' with
           | inl err => ret (inl err)
           | inr pConsumer =>
               consumerListeningChannel <- fresh ;;
               cc <- fresh ;;
               _ <- store cc {| consumers := [pConsumer];
                                channels := [consumerListeningChannel] |} ;;
               _ <- addTopicToConsumerChannelMap (Name topic) cc ;;
               _ <- emit (EvGo (task_startConsumers topic)) ;;
               ret (inr consumerListeningChannel)
           end) ;;
    match r' with
    | inl err => ret (inl err)
    | inr consumerListeningChannel => ret (inr consumerListeningChannel)
    end).
  split.
  - unfold Subscribe. unfold bind at 1. rewrite getConsumerChannel_eq, Hreg.
    unfold bind at 1, getClient at 1.
    apply Z.eqb_neq in Hnp. rewrite Hnp. apply Z.eqb_eq in Hg. rewrite Hg.
    unfold setupGroupConsumerChannel, createGroupConsumer, bind, getClient, callBroker.
    simpl. by destruct (broker_err _ _).
  - intros r. unfold addTopicToConsumerChannelMap.
    preserves_body; apply emits_emit; simpl; tauto.
Qed.

(** C9: under the group strategy, the first [Subscribe] on a topic asks
    sarama-cluster for a consumer of the group "mytest" and for no other
    group consumer, whatever the fields of the client hold: neither
    [groupName] nor any value an option can set reaches the call. *)
Theorem Subscribe_group_id_mytest (w : World) (topic : Topic) :
  registry (sc w) !! Name topic = None ->
  consumerType (sc w) <> PartitionConsumer ->
  consumerType (sc w) = GroupCustomer ->
  exists tail : list event,
    trace (outcome_world (Subscribe topic w))
      = trace w ++ EvNewGroupConsumer [kafkaFullAddr (sc w)] "mytest" [Name topic] :: tail
    /\ Forall (fun ev => ~ is_NewGroupConsumer ev) tail.
Proof.
  intros Hreg Hnp Hg.
  destruct (Subscribe_group_path w topic Hreg Hnp Hg) as (k & -> & Hk).
  destruct (call_then _ (EvNewGroupConsumer [kafkaFullAddr (sc w)] "mytest" [Name topic])
              k w Hk) as (tail & Ht & HP).
  exists tail. split; [done|].
  eapply Forall_impl; [exact HP|]. simpl. tauto.
Qed.

(** ** Topic auto-creation *)

Lemma emits_consumePartitions (P : event -> Prop) h topic initialOffset partitionList acc :
  (forall partition, P (EvConsumePartition h (Name topic) partition initialOffset)) ->
  emits P (consumePartitions h topic initialOffset partitionList acc).
Proof.
  intros HP. revert acc.
  induction partitionList as [|partition rest IH]; intros acc; simpl; preserves_body.
Qed.

Lemma emits_setupPartitionConsumerChannel (P : event -> Prop) topic initialOffset :
  (forall ev, ~ is_AdminCreateTopic ev -> P ev) ->
  emits P (setupPartitionConsumerChannel topic initialOffset).
Proof.
  intros HP.
  unfold setupPartitionConsumerChannel, createPartionConsumers, addTopicToConsumerChannelMap.
  preserves_body;
    try (apply emits_consumePartitions; intros; apply HP; simpl; tauto);
    try (apply emits_callPartitions; apply HP; simpl; tauto);
    apply emits_emit; apply HP; simpl; tauto.
Qed.

(** Under the partition strategy with auto-creation on, the first
    [Subscribe] on a topic is one call to the admin handle and what follows
    it. *)
Lemma Subscribe_partition_path (w : World) (topic : Topic) (h : handle) :
  registry (sc w) !! Name topic = None ->
  consumerType (sc w) = PartitionConsumer ->
  autoCreateTopic (sc w) = true ->
  cAdmin (sc w) = Some h ->
  exists k : option error -> M (error + chan_id),
    Subscribe topic w
      = bind (callBroker (EvAdminCreateTopic h (Name topic)
                            (int32 (numPartitions (sc w))) (int16 (numReplicas (sc w))))) k w
    /\ (forall r, emits (fun ev => ~ is_AdminCreateTopic ev) (k r))
    /\ (forall err w', error_eqb err ErrTopicAlreadyExists = false ->
                       k (Some err) w' = Done (inl err) w').
Proof.
  intros Hreg Hp Hauto Hadmin.
  eexists (fun r =>
    r' <- match r with
          | Some err => if error_eqb err ErrTopicAlreadyExists then ret None else ret (Some err)
          | None => ret None
          end ;;
    match r' with
    | Some err => ret (inl err)
    | None =>
        r'' <- setupPartitionConsumerChannel topic OffsetNewest ;;
        match r'' with
        | inl err => ret (inl err)
        | inr consumerListeningChannel => ret (inr consumerListeningChannel)
        end
    end).
  split; [|split].
  - unfold Subscribe. unfold bind at 1. rewrite getConsumerChannel_eq, Hreg.
    unfold bind at 1, getClient at 1.
    apply Z.eqb_eq in Hp. rewrite Hp, Hauto.
    unfold CreateTopic, bind, getClient, callBroker. rewrite Hadmin. simpl.
    by destruct (broker_err _ _).
  - intros r. preserves_body. by apply emits_setupPartitionConsumerChannel.
  - intros err w' Herr. unfold bind. by rewrite Herr.
Qed.

(** C5, as the code has it: with auto-creation on and no entry for the
    topic, [Subscribe] under the partition strategy first creates the topic
    on the broker, with the configured partition and replica counts, and
    only then builds consumers; when that creation fails with anything but
    "already exists", [Subscribe] returns the error after that one call, with
    client and registry untouched.  Under the group strategy [Subscribe]
    creates no topic. *)
Theorem Subscribe_autoCreateTopic_partition_only (w : World) (topic : Topic) :
  registry (sc w) !! Name topic = None ->
  autoCreateTopic (sc w) = true ->
  (forall h : handle,
      consumerType (sc w) = PartitionConsumer ->
      cAdmin (sc w) = Some h ->
      let create := EvAdminCreateTopic h (Name topic)
                      (int32 (numPartitions (sc w))) (int16 (numReplicas (sc w))) in
      (exists tail : list event,
          trace (outcome_world (Subscribe topic w)) = trace w ++ create :: tail
          /\ Forall (fun ev => ~ is_AdminCreateTopic ev) tail)
      /\ (forall err : error,
             broker_err (trace w) create = Some err ->
             error_eqb err ErrTopicAlreadyExists = false ->
             Subscribe topic w = Done (inl err) (after w [create])))
  /\ (consumerType (sc w) <> PartitionConsumer ->
      consumerType (sc w) = GroupCustomer ->
      exists tail : list event,
        trace (outcome_world (Subscribe topic w)) = trace w ++ tail
        /\ Forall (fun ev => ~ is_AdminCreateTopic ev) tail).
Proof.
  intros Hreg Hauto. split.
  - intros h Hp Hadmin create.
    destruct (Subscribe_partition_path w topic h Hreg Hp Hauto Hadmin) as (k & Heq & Hk & Hfail).
    fold create in Heq. rewrite Heq. split.
    + by apply call_then.
    + intros err Hans Herr. unfold bind, callBroker. rewrite Hans. by apply Hfail.
  - intros Hnp Hg.
    destruct (Subscribe_group_path w topic Hreg Hnp Hg) as (k & -> & Hk).
    destruct (call_then _ (EvNewGroupConsumer [kafkaFullAddr (sc w)] "mytest" [Name topic])
                k w Hk) as (tail & Ht & HP).
    eexists (_ :: tail). split; [exact Ht|].
    constructor; [simpl; tauto|].
    eapply Forall_impl; [exact HP|]. simpl. tauto.
Qed.

(** ** Subscribing again and again *)

Lemma bind_inv {A B : Type} (m : M A) (k : A -> M B) (w w' : World) (b : B) :
  bind m k w = Done b w' ->
  exists a w1, m w = Done a w1 /\ k a w1 = Done b w'.
Proof.
  unfold bind. destruct (m w) as [a w1|p w1|w1]; [|done..]. intros H. by exists a, w1.
Qed.

Lemma preserves_Done {A : Type} (R : relation World) (m : M A) (w w' : World) (a : A) :
  preserves R m -> m w = Done a w' -> R w w'.
Proof. intros H Hm. specialize (H w). by rewrite Hm in H. Qed.

Lemma frame_registry (w w' : World) :
  frame w w' -> registry (sc w') = registry (sc w).
Proof. intros [H _]. unfold registry. by rewrite H. Qed.

Lemma frame_CreateTopic topic numPartition repFactor :
  preserves frame (CreateTopic topic numPartition repFactor).
Proof. unfold CreateTopic. preserves_body. Qed.

Lemma frame_consumePartitions h topic initialOffset partitionList acc :
  preserves frame (consumePartitions h topic initialOffset partitionList acc).
Proof.
  revert acc. induction partitionList as [|partition rest IH]; intros acc; simpl;
    preserves_body.
Qed.

Lemma frame_createPartionConsumers topic initialOffset :
  preserves frame (createPartionConsumers topic initialOffset).
Proof.
  unfold createPartionConsumers. preserves_body. apply frame_consumePartitions.
Qed.

Lemma frame_createGroupConsumer topic groupId retries :
  preserves frame (createGroupConsumer topic groupId retries).
Proof. unfold createGroupConsumer. preserves_body. Qed.

(** A second subscriber of a topic gets a new channel, appended to the
    entry; nothing else happens. *)
Lemma Subscribe_existing (w : World) (topic : Topic) (l : loc) (cc : consumerChannels) :
  registry (sc w) !! Name topic = Some l ->
  heap w !! l = Some cc ->
  Subscribe topic w
    = Done (inr (nextId w))
        {| sc := sc w;
           heap := <[l := {| consumers := consumers cc;
                             channels := channels cc ++ [nextId w] |}]> (heap w);
           nextId := S (nextId w);
           trace := trace w |}.
Proof.
  intros Hreg Hheap.
  unfold Subscribe. unfold bind at 1. rewrite getConsumerChannel_eq, Hreg.
  unfold addChannelToConsumerChannelMap, bind, fresh, getClient, deref, store, ret; simpl.
  rewrite Hreg; simpl. by rewrite Hheap.
Qed.

(** The end of both [setup...ConsumerChannel] functions: a channel, an
    entry, the registration and the start of the consumers. *)
Lemma register_entry (w w1 : World) (topic : Topic) (cs : list handle) (r : error + chan_id) :
  registry (sc w) !! Name topic = None ->
  (consumerListeningChannel <- fresh ;;
   cc <- fresh ;;
   _ <- store cc {| consumers := cs; channels := [consumerListeningChannel] |} ;;
   _ <- addTopicToConsumerChannelMap (Name topic) cc ;;
   _ <- emit (EvGo (task_startConsumers topic)) ;;
   ret (inr consumerListeningChannel)) w = Done r w1 ->
  r = inr (nextId w)
  /\ registry (sc w1) !! Name topic = Some (S (nextId w))
  /\ heap w1 !! S (nextId w) = Some {| consumers := cs; channels := [nextId w] |}
  /\ nextId w1 = S (S (nextId w)).
Proof.
  intros Hreg.
  unfold addTopicToConsumerChannelMap, bind, fresh, store, getClient, emit, ret; simpl.
  rewrite Hreg. unfold registry in *.
  destruct (topicToConsumerChannelMap (sc w)) as [m|] eqn:Hm; simpl; [|done].
  intros [= <- <-]; simpl. by rewrite !lookup_insert_eq.
Qed.

(** A [Subscribe] that returns a channel leaves an entry for the topic, and
    the channel is older than every identity still to come. *)
Lemma Subscribe_leaves_entry (w w1 : World) (topic : Topic) (ch : chan_id) :
  Subscribe topic w = Done (inr ch) w1 ->
  exists (l : loc) (cc : consumerChannels),
    registry (sc w1) !! Name topic = Some l
    /\ heap w1 !! l = Some cc
    /\ (ch < nextId w1)%nat.
Proof.
  destruct (registry (sc w) !! Name topic) as [l|] eqn:Hreg.
  - destruct (heap w !! l) as [cc|] eqn:Hheap.
    + rewrite (Subscribe_existing w topic l cc Hreg Hheap). intros [= <- <-]; simpl.
      exists l, {| consumers := consumers cc; channels := channels cc ++ [nextId w] |}.
      rewrite lookup_insert_eq. repeat split; [done|lia].
    + unfold Subscribe. unfold bind at 1. rewrite getConsumerChannel_eq, Hreg.
      unfold addChannelToConsumerChannelMap, bind, fresh, getClient, deref; simpl.
      rewrite Hreg; simpl. by rewrite Hheap.
  - unfold Subscribe. unfold bind at 1. rewrite getConsumerChannel_eq, Hreg.
    unfold bind at 1, getClient at 1.
    destruct (consumerType (sc w) =? PartitionConsumer)%Z.
    + intros H. apply bind_inv in H as (r & wa & Hcreate & H).
      assert (frame w wa) as Hfa.
      { destruct (autoCreateTopic (sc w)).
        - eapply preserves_Done; [apply frame_CreateTopic|exact Hcreate].
        - injection Hcreate as _ <-. reflexivity. }
      destruct r as [err|]; [done|].
      apply bind_inv in H as (r & wb & Hsetup & H).
      destruct r as [err|c]; [done|]. injection H as -> ->.
      unfold setupPartitionConsumerChannel in Hsetup.
      apply bind_inv in Hsetup as (r & wc & Hcons & H).
      pose proof (preserves_Done _ _ _ _ _ (frame_createPartionConsumers _ _) Hcons) as Hfc.
      destruct r as [err|pConsumers]; [done|].
      apply register_entry in H as (Hr & Hl & Hh & Hn).
      * injection Hr as ->. eexists _, _. repeat split; [exact Hl|exact Hh|lia].
      * rewrite (frame_registry _ _ Hfc), (frame_registry _ _ Hfa). exact Hreg.
    + destruct (consumerType (sc w) =? GroupCustomer)%Z; [|done].
      intros H. apply bind_inv in H as (r & wb & Hsetup & H).
      destruct r as [err|c]; [done|]. injection H as -> ->.
      unfold setupGroupConsumerChannel in Hsetup.
      apply bind_inv in Hsetup as (r & wc & Hcons & H).
      pose proof (preserves_Done _ _ _ _ _ (frame_createGroupConsumer _ _ _) Hcons) as Hfc.
      destruct r as [err|pConsumer]; [done|].
      apply register_entry in H as (Hr & Hl & Hh & Hn).
      * injection Hr as ->. eexists _, _. repeat split; [exact Hl|exact Hh|lia].
      * rewrite (frame_registry _ _ Hfc). exact Hreg.
Qed.

(** [n] more subscriptions to a topic that has an entry. *)
Lemma Subscribe_times_existing (topic : Topic) (l : loc) (n : nat) :
  forall (w : World) (cc : consumerChannels),
    registry (sc w) !! Name topic = Some l ->
    heap w !! l = Some cc ->
    Subscribe_times topic n w
      = Done (map inr (seq (nextId w) n))
          {| sc := sc w;
             heap := <[l := {| consumers := consumers cc;
                               channels := channels cc ++ seq (nextId w) n |}]> (heap w);
             nextId := (nextId w + n)%nat;
             trace := trace w |}.
Proof.
  induction n as [|n IH]; intros w cc Hreg Hheap; simpl.
  - unfold ret. rewrite app_nil_r, consumerChannels_eta, insert_id by done.
    rewrite Nat.add_0_r. by rewrite World_eta.
  - erewrite bind_Done; [|by apply Subscribe_existing].
    erewrite bind_Done; [|apply IH; simpl; [done|apply lookup_insert_eq]].
    unfold ret; simpl.
    rewrite insert_insert_eq, <- app_assoc. simpl.
    by rewrite Nat.add_succ_r.
Qed.

(** C1: when the first of [S n] calls of [Subscribe] on a topic succeeds,
    all of them succeed and return [S n] different channels; afterwards the
    registry is the one the first call left, with one entry for the topic
    whose consumers are those the first call left, and whose channels are
    those it left followed by the channels of the later calls.  The later
    calls add nothing to the trace: no consumer is created, no call reaches
    the broker. *)
Theorem Subscribe_N_times_one_entry
    (w w1 : World) (topic : Topic) (n : nat) (ch1 : chan_id) :
  Subscribe topic w = Done (inr ch1) w1 ->
  exists (l : loc) (cc1 : consumerChannels) (wN : World),
    let chs := ch1 :: seq (nextId w1) n in
    Subscribe_times topic (S n) w = Done (map inr chs) wN
    /\ NoDup chs
    /\ length chs = S n
    /\ registry (sc w1) !! Name topic = Some l
    /\ heap w1 !! l = Some cc1
    /\ sc wN = sc w1
    /\ heap wN = <[l := {| consumers := consumers cc1;
                           channels := channels cc1 ++ seq (nextId w1) n |}]> (heap w1)
    /\ trace wN = trace w1.
Proof.
  intros Hfirst.
  destruct (Subscribe_leaves_entry _ _ _ _ Hfirst) as (l & cc1 & Hreg & Hheap & Hlt).
  eexists l, cc1, _. simpl. split.
  { erewrite bind_Done; [|exact Hfirst].
    erewrite bind_Done; [|by apply Subscribe_times_existing]. reflexivity. }
  simpl. split.
  { constructor; [|apply NoDup_seq]. rewrite elem_of_seq. lia. }
  split; [by rewrite length_seq|]. done.
Qed.

(** ** Closing the consumers of an entry *)

Lemma closeConsumers_from_spec (cs : list handle) :
  forall (err : option error) (w : World),
    closeConsumers_from err cs w
      = Done (fold_close_error err (close_answers (trace w) cs)) (after w (close_events cs)).
Proof.
  induction cs as [|c rest IH]; intros err w.
  - simpl. unfold ret. by rewrite after_nil.
  - assert (forall e', closeConsumers_from e' rest (after w [EvClose c])
                       = Done (fold_close_error e'
                                 (close_answers (trace w ++ [EvClose c]) rest))
                              (after w (EvClose c :: close_events rest))) as Hrest.
    { intros e'. rewrite IH. by rewrite after_after. }
    destruct c; simpl; try apply IH;
      unfold bind, callBroker; fold (after w [EvClose (sarama_PartitionConsumer id)]);
      fold (after w [EvClose (scc_Consumer id)]);
      unfold close_events; simpl;
      (destruct (broker_err (trace w) _) as [e|]; [|apply Hrest]);
      unfold fold_close_error; simpl; unfold tolerated;
      destruct (String.eqb (Error e) _); apply Hrest.
Qed.

Lemma closeConsumers_spec (cs : list handle) (w : World) :
  closeConsumers cs w
    = Done (fold_close_error None (close_answers (trace w) cs)) (after w (close_events cs)).
Proof. apply closeConsumers_from_spec. Qed.

(** ** Removing one channel *)

Lemma closed_app (tr evs : list event) (ch : chan_id) :
  closed (tr ++ evs) ch = closed tr ch || existsb (event_is_close ch) evs.
Proof. unfold closed. apply existsb_app. Qed.

Lemma closed_close_events (tr : list event) (hs : list handle) (ch : chan_id) :
  closed (tr ++ map EvClose hs) ch = closed tr ch.
Proof.
  rewrite closed_app. induction hs as [|h rest IH]; simpl; [apply orb_false_r|done].
Qed.

Lemma closed_other_channels (tr : list event) (chs : list chan_id) (ch : chan_id) :
  ch ∉ chs -> closed (tr ++ map EvCloseChan chs) ch = closed tr ch.
Proof.
  intros Hnot. rewrite closed_app.
  induction chs as [|c rest IH]; simpl; [apply orb_false_r|].
  apply not_elem_of_cons in Hnot as [Hne Hrest].
  destruct (Nat.eqb_spec c ch) as [->|_]; [done|]. simpl. by apply IH.
Qed.

(** The swap moves the channel found at [i] to the end and keeps the
    others. *)
Lemma swap_with_last_spec (chs : list chan_id) (i : nat) (ch : chan_id) :
  chs !! i = Some ch ->
  swap_with_last chs i = take (pred (length chs)) (swap_with_last chs i) ++ [ch]
  /\ swap_with_last chs i ≡ₚ chs
  /\ length (swap_with_last chs i) = length chs.
Proof.
  intros Hi. unfold swap_with_last. rewrite Hi.
  assert (i < length chs)%nat as Hlt by (by eapply lookup_lt_Some).
  destruct (chs !! pred (length chs)) as [y|] eqn:Hy;
    [|apply lookup_ge_None in Hy; lia].
  destruct (decide (i = pred (length chs))) as [->|Hne].
  - assert (y = ch) as -> by congruence.
    rewrite !list_insert_id by (rewrite ?list_insert_id; done).
    split; [|done].
    rewrite <- (take_drop (pred (length chs)) chs) at 1. f_equal.
    rewrite (drop_S _ ch _ Hi), drop_ge by lia. done.
  - assert (chs = take (pred (length chs)) chs ++ [y]) as Hsplit.
    { rewrite <- (take_drop (pred (length chs)) chs) at 1. f_equal.
      rewrite (drop_S _ y _ Hy), drop_ge by lia. done. }
    set (front := take (pred (length chs)) chs) in *.
    assert (length front = pred (length chs)) as Hlen.
    { unfold front. rewrite length_take. lia. }
    assert (front !! i = Some ch) as Hfi.
    { rewrite Hsplit, lookup_app_l in Hi; [done|lia]. }
    assert (<[i:=y]> (<[pred (length chs):=ch]> chs) = <[i:=y]> front ++ [ch]) as ->.
    { rewrite Hsplit at 2. rewrite <- Hlen.
      replace (length front) with (length front + 0)%nat by lia.
      rewrite insert_app_r. simpl. rewrite insert_app_l by lia. done. }
    rewrite take_app_length' by (rewrite length_insert; lia).
    split; [done|]. split.
    + clearbody front. subst chs.
      rewrite insert_take_drop by lia.
      rewrite <- (take_drop_middle _ _ _ Hfi) at 3.
      rewrite <- !app_assoc. simpl.
      apply Permutation_app_head.
      rewrite (Permutation_app_comm (drop (S i) front) [ch]). simpl.
      rewrite Permutation_swap. constructor.
      rewrite Permutation_app_comm. done.
    + rewrite length_app, length_insert. simpl. lia.
Qed.

(** [removeChannel] on a channel the entry holds and that is open: the entry
    gets the swapped array, the channel is closed, the slice without the
    last element comes back. *)
Lemma removeChannel_found (w : World) (l : loc) (cc : consumerChannels)
    (ch : chan_id) (i : nat) :
  heap w !! l = Some cc ->
  index_of ch (channels cc) = Some i ->
  closed (trace w) ch = false ->
  removeChannel l ch w
    = Done (take (pred (length (channels cc))) (swap_with_last (channels cc) i))
        {| sc := sc w;
           heap := <[l := {| consumers := consumers cc;
                             channels := swap_with_last (channels cc) i |}]> (heap w);
           nextId := nextId w;
           trace := trace w ++ [EvCloseChan ch] |}.
Proof.
  intros Hheap Hidx Hopen.
  unfold removeChannel, bind, deref, store, close, emit, ret; simpl.
  rewrite Hheap, Hidx; simpl. rewrite Hopen.
  destruct (swap_with_last_spec _ _ _ (index_of_Some _ _ _ Hidx)) as (_ & _ & ->).
  done.
Qed.

(** ** UnSubscribe *)

Lemma registry_delete (c : SaramaClient) (id : string) :
  registry (set_topicToConsumerChannelMap (delete id <$> topicToConsumerChannelMap c) c)
  = delete id (registry c).
Proof.
  unfold registry; simpl. destruct (topicToConsumerChannelMap c); simpl; [done|].
  by rewrite delete_empty.
Qed.

(** What [fold_close_error] keeps is the answer of one of the calls, and
    never a tolerated one. *)
Lemma fold_close_error_Some (answers : list (option error)) :
  forall (err : option error) (e : error),
    fold_close_error err answers = Some e ->
    (err = Some e \/ (In (Some e) answers /\ tolerated e = false)).
Proof.
  induction answers as [|a rest IH]; intros err e H; simpl in *; [by left|].
  apply IH in H as [H|[H1 H2]]; [|right; split; [by right|done]].
  destruct a as [e'|]; [|by left].
  destruct (tolerated e') eqn:He'; [done|].
  injection H as ->. right. split; [by left|done].
Qed.

Lemma fold_close_error_tolerated (answers : list (option error)) :
  Forall nil_or_tolerated answers -> fold_close_error None answers = None.
Proof.
  induction answers as [|a rest IH]; intros Hall; [done|].
  apply Forall_cons in Hall as [Ha Hrest].
  unfold fold_close_error in *. simpl.
  destruct a as [e|]; simpl in Ha; [rewrite Ha|]; by apply IH.
Qed.

Lemma fold_close_error_last (before after_ : list (option error)) (e : error)
    (err : option error) :
  tolerated e = false ->
  Forall (fun answer => answer = None) after_ ->
  fold_close_error err (before ++ Some e :: after_) = Some e.
Proof.
  intros He Hafter. unfold fold_close_error. rewrite fold_left_app. simpl. rewrite He.
  induction Hafter as [|a rest -> _ IH]; [done|]. exact IH.
Qed.

(** C2, as the code has it: on an entry that holds the open channel [ch],
    [UnSubscribe] closes [ch] and takes it out of the collection; when other
    channels remain it returns nil and touches nothing else; when none
    remains it calls [Close] on every partition or group consumer of the
    entry, deletes the entry from the registry and returns the error
    [closeConsumers] ends with: nil when every [Close] succeeded or failed
    with an error that reads "unknown topic or partition", and the error of
    the last failing [Close] when that error reads otherwise.  Without an
    entry for the topic it returns the error "topic-does-not-exist" and does
    nothing. *)
Theorem UnSubscribe_removes_channel (w : World) (topic : Topic) (ch : chan_id) :
  (forall (l : loc) (cc : consumerChannels) (i : nat),
      registry (sc w) !! Name topic = Some l ->
      heap w !! l = Some cc ->
      index_of ch (channels cc) = Some i ->
      closed (trace w) ch = false ->
      let remaining := take (pred (length (channels cc))) (swap_with_last (channels cc) i) in
      remaining ++ [ch] ≡ₚ channels cc
      /\ (remaining <> [] ->
          UnSubscribe topic ch w
            = Done None
                {| sc := sc w;
                   heap := <[l := {| consumers := consumers cc;
                                     channels := remaining |}]> (heap w);
                   nextId := nextId w;
                   trace := trace w ++ [EvCloseChan ch] |})
      /\ (remaining = [] ->
          let answers := close_answers (trace w ++ [EvCloseChan ch]) (consumers cc) in
          exists (err : option error) (w' : World),
            UnSubscribe topic ch w = Done err w'
            /\ trace w' = trace w ++ EvCloseChan ch :: close_events (consumers cc)
            /\ registry (sc w') = delete (Name topic) (registry (sc w))
            /\ heap w' = <[l := {| consumers := consumers cc; channels := [] |}]> (heap w)
            /\ err = fold_close_error None answers
            /\ (Forall nil_or_tolerated answers -> err = None)
            /\ (forall before e after_,
                   answers = before ++ Some e :: after_ ->
                   tolerated e = false ->
                   Forall (fun answer => answer = None) after_ ->
                   err = Some e)))
  /\ (registry (sc w) !! Name topic = None ->
      UnSubscribe topic ch w = Done (Some (errorString "topic-does-not-exist")) w).
Proof.
  split.
  - intros l cc i Hreg Hheap Hidx Hopen remaining.
    destruct (swap_with_last_spec _ _ _ (index_of_Some _ _ _ Hidx)) as (Hsw & Hperm & _).
    fold remaining in Hsw. split; [by rewrite <- Hsw|].
    assert (UnSubscribe topic ch w
            = (if Nat.eqb (length remaining) 0
               then err <- closeConsumers (consumers cc) ;;
                    _ <- delete_topic (Name topic) ;;
                    ret err
               else ret None)
                {| sc := sc w;
                   heap := <[l := {| consumers := consumers cc;
                                     channels := remaining |}]> (heap w);
                   nextId := nextId w;
                   trace := trace w ++ [EvCloseChan ch] |}) as ->.
    { unfold UnSubscribe, removeChannelFromConsumerChannelMap.
      unfold bind at 1, getClient at 1. rewrite Hreg.
      erewrite bind_Done; [|by apply removeChannel_found].
      unfold bind at 1, deref at 1; simpl. rewrite lookup_insert_eq; simpl.
      unfold bind at 1, store at 1; simpl. by rewrite insert_insert_eq. }
    split; intros Hrem.
    + by destruct remaining.
    + rewrite Hrem; simpl.
      unfold bind at 1. rewrite closeConsumers_spec; simpl.
      unfold delete_topic, bind, getClient, modifyClient, ret; simpl.
      eexists _, _. split; [reflexivity|]. simpl.
      rewrite <- app_assoc.
      split; [done|]. split; [apply registry_delete|]. split; [done|].
      split; [done|]. split.
      * apply fold_close_error_tolerated.
      * intros before e after_ -> He Hafter. by apply fold_close_error_last.
  - intros Hreg.
    unfold UnSubscribe, removeChannelFromConsumerChannelMap, bind, getClient.
    by rewrite Hreg.
Qed.

(** ** Clearing the channels of an entry *)

Lemma index_of_NoDup (arr : list chan_id) :
  forall (k : nat) (ch : chan_id),
    NoDup arr -> arr !! k = Some ch -> index_of ch arr = Some k.
Proof.
  induction arr as [|c rest IH]; intros k ch Hnd Hk; [done|].
  apply NoDup_cons in Hnd as [Hc Hnd]. simpl.
  destruct k as [|k']; simpl in Hk.
  - injection Hk as ->. by rewrite Nat.eqb_refl.
  - destruct (Nat.eqb_spec c ch) as [->|_].
    + exfalso. apply Hc. by eapply list_elem_of_lookup_2.
    + by rewrite (IH k' ch Hnd Hk).
Qed.

Lemma swap_with_last_lookup (arr : list chan_id) (k : nat) (x : chan_id) :
  arr !! k = Some x ->
  swap_with_last arr k !! pred (length arr) = Some x
  /\ forall j, j <> k -> j <> pred (length arr) -> swap_with_last arr k !! j = arr !! j.
Proof.
  intros Hk. unfold swap_with_last. rewrite Hk.
  assert (k < length arr)%nat as Hlt by (by eapply lookup_lt_Some).
  destruct (arr !! pred (length arr)) as [y|] eqn:Hy;
    [|apply lookup_ge_None in Hy; lia].
  split.
  - destruct (decide (k = pred (length arr))) as [->|Hne].
    + rewrite list_lookup_insert_eq by (rewrite length_insert; lia). congruence.
    + rewrite list_lookup_insert_ne by done.
      rewrite list_lookup_insert_eq by lia. done.
  - intros j Hjk Hjn. by rewrite !list_lookup_insert_ne.
Qed.

(** [removeChannel] on a channel the entry holds and that is closed already:
    the swap is done, then [close] panics. *)
Lemma removeChannel_closed (w : World) (l : loc) (cc : consumerChannels)
    (ch : chan_id) (i : nat) :
  heap w !! l = Some cc ->
  index_of ch (channels cc) = Some i ->
  closed (trace w) ch = true ->
  removeChannel l ch w
    = Panics (panic_close_of_closed_channel ch)
        {| sc := sc w;
           heap := <[l := {| consumers := consumers cc;
                             channels := swap_with_last (channels cc) i |}]> (heap w);
           nextId := nextId w;
           trace := trace w |}.
Proof.
  intros Hheap Hidx Hclosed.
  unfold removeChannel, bind, deref, store, close; simpl.
  rewrite Hheap, Hidx; simpl. by rewrite Hclosed.
Qed.

(** The loop of the two clearing functions on an entry with two or more
    channels, all different and open: turn [k] finds the channel number [k]
    still in its place, swaps it to the end and closes it; the last turn
    therefore reads the channel the turn before has just closed, and panics.
    The state of the loop before turn [k] is an array [arr], a rearrangement
    of the channels [chs] the entry had. *)
Lemma range_removeChannel_panics (l : loc) (cs : list handle) (chs : list chan_id)
    (tr0 : list event) :
  NoDup chs ->
  (2 <= length chs)%nat ->
  (forall ch, ch ∈ chs -> closed tr0 ch = false) ->
  forall (m k : nat) (arr : list chan_id) (w : World),
    (k + m = length chs)%nat ->
    (1 <= m)%nat ->
    heap w !! l = Some {| consumers := cs; channels := arr |} ->
    arr ≡ₚ chs ->
    (forall j, (k <= j)%nat -> (j < length chs - 1)%nat -> arr !! j = chs !! j) ->
    ((1 <= k)%nat -> arr !! (length chs - 1)%nat = chs !! (k - 1)%nat) ->
    trace w = tr0 ++ map EvCloseChan (take k chs) ->
    exists (c : chan_id) (w' : World),
      range_removeChannel l (seq k m) w = Panics (panic_close_of_closed_channel c) w'
      /\ chs !! (length chs - 2)%nat = Some c
      /\ trace w' = tr0 ++ map EvCloseChan (take (length chs - 1) chs).
Proof.
  intros Hnd Hlen Hopen. induction m as [|m IH]; intros k arr w Hkm Hm Hheap Hperm Hmid Hlast Htr;
    [lia|].
  assert (length arr = length chs) as Hlarr by (by rewrite Hperm).
  assert (NoDup arr) as Hndarr by (by rewrite Hperm).
  simpl. unfold bind at 1, deref at 1. rewrite Hheap. simpl.
  destruct (decide (m = 0%nat)) as [->|Hm0].
  - (* the last turn *)
    assert (k = (length chs - 1)%nat) as -> by lia.
    destruct (lookup_lt_is_Some_2 chs (length chs - 2)%nat) as [c Hc]; [lia|].
    assert (arr !! (length chs - 1)%nat = Some c) as Harr.
    { rewrite Hlast by lia. rewrite <- Hc. f_equal. lia. }
    rewrite Harr.
    exists c. eexists. split; [|split; [exact Hc|]].
    + apply bind_Panics.
      apply (removeChannel_closed w l {| consumers := cs; channels := arr |} c
               (length chs - 1)%nat Hheap).
      * by apply index_of_NoDup.
      * rewrite Htr, closed_app. apply orb_true_iff. right.
        apply existsb_exists. exists (EvCloseChan c). split; [|simpl; apply Nat.eqb_refl].
        apply in_map, list_elem_of_In, list_elem_of_lookup.
        exists (length chs - 2)%nat. rewrite lookup_take_lt by lia. exact Hc.
    + simpl. exact Htr.
  - (* a turn before the last *)
    destruct (lookup_lt_is_Some_2 chs k) as [ch Hch]; [lia|].
    assert (arr !! k = Some ch) as Harr by (rewrite Hmid by lia; exact Hch).
    rewrite Harr.
    assert (ch ∉ take k chs) as Hfresh.
    { intros Hin. apply list_elem_of_lookup in Hin as [j Hj].
      assert (j < k)%nat as Hjk.
      { apply lookup_lt_Some in Hj. rewrite length_take in Hj. lia. }
      rewrite lookup_take_lt in Hj by done.
      pose proof (NoDup_lookup _ _ _ _ Hnd Hj Hch). lia. }
    assert (closed (trace w) ch = false) as Hopen'.
    { rewrite Htr, closed_other_channels by done. apply Hopen.
      by eapply list_elem_of_lookup_2. }
    erewrite bind_Done;
      [|apply (removeChannel_found w l {| consumers := cs; channels := arr |} ch k Hheap);
        [by apply index_of_NoDup|exact Hopen']].
    simpl.
    destruct (swap_with_last_spec arr k ch Harr) as (_ & Hperm' & _).
    destruct (swap_with_last_lookup arr k ch Harr) as (Hl' & Hother).
    apply (IH (S k) (swap_with_last arr k)); simpl.
    + lia.
    + lia.
    + apply lookup_insert_eq.
    + by rewrite Hperm'.
    + intros j Hj1 Hj2. rewrite Hother by lia. apply Hmid; lia.
    + intros _. replace (length chs - 1)%nat with (pred (length arr)) by lia.
      rewrite Hl'. rewrite <- Hch. f_equal. lia.
    + rewrite Htr, <- app_assoc. f_equal.
      rewrite (take_S_r _ _ _ Hch), map_app. done.
Qed.

Lemma clearChannels_panics (w : World) (l : loc) (cc : consumerChannels) :
  heap w !! l = Some cc ->
  NoDup (channels cc) ->
  (2 <= length (channels cc))%nat ->
  (forall ch, ch ∈ channels cc -> closed (trace w) ch = false) ->
  exists (c : chan_id) (w' : World),
    clearChannels l w = Panics (panic_close_of_closed_channel c) w'
    /\ channels cc !! (length (channels cc) - 2)%nat = Some c
    /\ trace w' = trace w
                  ++ map EvCloseChan (take (length (channels cc) - 1) (channels cc)).
Proof.
  intros Hheap Hnd Hlen Hopen.
  unfold clearChannels. unfold bind at 1, deref at 1. rewrite Hheap.
  apply (range_removeChannel_panics l (consumers cc) (channels cc) (trace w) Hnd Hlen Hopen
           (length (channels cc)) 0%nat (channels cc) w).
  - done.
  - lia.
  - by rewrite consumerChannels_eta.
  - done.
  - done.
  - lia.
  - simpl. by rewrite app_nil_r.
Qed.

(** ** Stop *)

Lemma delete_all_lookup (ids : list string) :
  forall (m : gmap string loc) (id : string),
    delete_all ids m !! id = if decide (id ∈ ids) then None else m !! id.
Proof.
  induction ids as [|i rest IH]; intros m id.
  - destruct (decide (id ∈ [])) as [H|H]; [by apply elem_of_nil in H|done].
  - change (delete_all (i :: rest) m) with (delete_all rest (delete i m)).
    rewrite IH.
    destruct (decide (id ∈ rest)) as [Hin|Hnin];
      destruct (decide (id ∈ i :: rest)) as [Hin'|Hnin']; try done.
    + exfalso. apply Hnin'. by right.
    + apply elem_of_cons in Hin' as [->|?]; [|done]. apply lookup_delete_eq.
    + apply lookup_delete_ne. intros ->. apply Hnin'. by left.
Qed.

Lemma delete_all_keys (m : gmap string loc) :
  delete_all (map_to_list m).*1 m = ∅.
Proof.
  apply map_eq. intros id. rewrite delete_all_lookup, lookup_empty.
  case_decide as H; [done|].
  destruct (m !! id) as [l|] eqn:Hl; [|done].
  exfalso. apply H. apply list_elem_of_fmap. exists (id, l). split; [done|].
  by apply elem_of_map_to_list.
Qed.

Lemma delete_all_empty (ids : list string) : delete_all ids ∅ = ∅.
Proof.
  apply map_eq. intros id. rewrite delete_all_lookup, lookup_empty. by case_decide.
Qed.

(** Clearing an entry with at most one channel, which is open, closes that
    channel once and leaves the entry as it is. *)
Lemma clearChannels_at_most_one (w : World) (l : loc) (cc : consumerChannels) :
  heap w !! l = Some cc ->
  (length (channels cc) <= 1)%nat ->
  (forall ch, ch ∈ channels cc -> closed (trace w) ch = false) ->
  clearChannels l w = Done tt (after w (map EvCloseChan (channels cc))).
Proof.
  intros Hheap Hlen Hopen.
  unfold clearChannels. unfold bind at 1, deref at 1. rewrite Hheap.
  destruct (channels cc) as [|a [|b rest]] eqn:Hch; simpl in *; [| |lia].
  - unfold ret. by rewrite after_nil.
  - unfold bind at 1, deref at 1. rewrite Hheap, Hch. simpl.
    erewrite bind_Done;
      [|eapply (removeChannel_found w l cc a 0); [done| |apply Hopen; by left];
        rewrite Hch; simpl; by rewrite Nat.eqb_refl].
    rewrite Hch. unfold swap_with_last, ret, after; simpl.
    rewrite <- Hch, consumerChannels_eta, insert_id by done. done.
Qed.

Lemma entries_ok_cons (tr : list event) (h : gmap loc consumerChannels)
    (topic : string) (l : loc) (rest : list (string * loc)) :
  entries_ok tr h ((topic, l) :: rest) = true ->
  exists cc : consumerChannels,
    h !! l = Some cc
    /\ (length (channels cc) <= 1)%nat
    /\ (forall ch, ch ∈ channels cc -> closed tr ch = false)
    /\ (forall ch, ch ∈ entries_channels h rest -> ch ∉ channels cc)
    /\ entries_ok tr h rest = true.
Proof.
  unfold entries_ok. simpl.
  destruct (h !! l) as [cc|] eqn:Hl; simpl; [|done].
  rewrite !andb_true_iff, forallb_app, !andb_true_iff.
  intros [[[Hlen Hrest] Hnd] [Hopen Hopen']].
  apply bool_decide_eq_true in Hnd. apply NoDup_app in Hnd as (_ & Hdisj & Hnd').
  exists cc. split; [done|]. split; [by apply Nat.leb_le|]. split; [|split].
  - intros ch Hin. rewrite forallb_forall in Hopen.
    apply negb_true_iff, Hopen. by apply list_elem_of_In.
  - intros ch Hin Hin'. by apply (Hdisj ch).
  - rewrite Hrest, Hopen'. simpl. rewrite andb_true_r. by apply bool_decide_eq_true.
Qed.

Lemma entries_ok_trace (tr tr' : list event) (h : gmap loc consumerChannels)
    (entries : list (string * loc)) :
  entries_ok tr h entries = true ->
  (forall ch, ch ∈ entries_channels h entries -> closed tr' ch = closed tr ch) ->
  entries_ok tr' h entries = true.
Proof.
  unfold entries_ok. rewrite !andb_true_iff. intros [[H1 H2] H3] Hsame.
  repeat split; [done..|].
  rewrite forallb_forall in *. intros ch Hin.
  rewrite Hsame by (by apply list_elem_of_In). by apply H3.
Qed.

Lemma set_topicToConsumerChannelMap_id (c : SaramaClient) :
  set_topicToConsumerChannelMap (topicToConsumerChannelMap c) c = c.
Proof. by destruct c. Qed.

(** Clearing entries that hold at most one channel each goes through: every
    entry is deleted, every channel closed once, the heap stays. *)
Lemma clearEntries_spec (entries : list (string * loc)) :
  forall (err : option error) (w : World),
    entries_ok (trace w) (heap w) entries = true ->
    exists err' : option error,
      clearEntries err entries w
        = Done err'
            {| sc := set_topicToConsumerChannelMap
                       (delete_all entries.*1 <$> topicToConsumerChannelMap (sc w)) (sc w);
               heap := heap w;
               nextId := nextId w;
               trace := trace w ++ clear_events (heap w) entries |}.
Proof.
  induction entries as [|[topic l] rest IH]; intros err w Hok.
  - exists err. simpl. unfold ret. f_equal.
    rewrite app_nil_r.
    replace (delete_all [] <$> topicToConsumerChannelMap (sc w))
      with (topicToConsumerChannelMap (sc w))
      by (by destruct (topicToConsumerChannelMap (sc w))).
    rewrite set_topicToConsumerChannelMap_id. by destruct w.
  - apply entries_ok_cons in Hok as (cc & Hl & Hlen & Hopen & Hdisj & Hrest).
    simpl clearEntries.
    erewrite bind_Done; [|by apply clearChannels_at_most_one].
    unfold bind at 1, deref at 1; simpl. rewrite Hl.
    unfold bind at 1. rewrite closeConsumers_spec.
    unfold bind at 1, delete_topic at 1, bind at 1, getClient at 1, modifyClient at 1.
    simpl.
    set (w2 := {| sc := set_topicToConsumerChannelMap
                          (delete topic <$> topicToConsumerChannelMap (sc w)) (sc w);
                  heap := heap w;
                  nextId := nextId w;
                  trace := (trace w ++ map EvCloseChan (channels cc))
                           ++ close_events (consumers cc) |}).
    assert (entries_ok (trace w2) (heap w2) rest = true) as Hok2.
    { simpl. eapply entries_ok_trace; [exact Hrest|]. intros ch Hin.
      unfold close_events. rewrite closed_close_events.
      apply closed_other_channels. by apply Hdisj. }
    assert (forall e, exists err', clearEntries e rest w2
              = Done err'
                  {| sc := set_topicToConsumerChannelMap
                             (delete_all ((topic, l) :: rest).*1
                                <$> topicToConsumerChannelMap (sc w)) (sc w);
                     heap := heap w;
                     nextId := nextId w;
                     trace := trace w ++ clear_events (heap w) ((topic, l) :: rest) |})
      as Hnext.
    { intros e. destruct (IH e w2 Hok2) as (err' & ->). exists err'. f_equal.
      simpl. rewrite Hl. rewrite <- !app_assoc. f_equal.
      by destruct (topicToConsumerChannelMap (sc w)). }
    destruct (fold_close_error None _) as [e|];
      [destruct (Hnext (Some e)) as (err' & ->)|destruct (Hnext err) as (err' & ->)];
      exists err'; simpl; by rewrite Hl.
Qed.

Lemma closeOrPanic_ok (h : option handle) (w : World) :
  (forall h', h = Some h' -> broker_err (trace w) (EvClose h') = None) ->
  closeOrPanic h w = Done tt (after w (map EvClose (option_list h))).
Proof.
  intros Hans. destruct h as [h'|]; simpl.
  - unfold bind, callBroker. by rewrite (Hans h' eq_refl).
  - unfold ret. by rewrite after_nil.
Qed.

(** [Stop] up to the clearing of the registry. *)
Lemma Stop_reaches_clear (w : World) :
  doneCh (sc w) = Some [] ->
  (forall tr h, h ∈ stop_handles (sc w) -> broker_err tr (EvClose h) = None) ->
  Stop w
    = (_ <- clearConsumerChannelMap ;; ret tt)
        {| sc := set_doneCh (Some [1]) (sc w);
           heap := heap w;
           nextId := nextId w;
           trace := trace w ++ map EvClose (stop_handles (sc w)) |}.
Proof.
  intros Hdone Hans.
  unfold Stop. unfold bind at 1, send_doneCh at 1, bind at 1, getClient at 1.
  rewrite Hdone. unfold modifyClient at 1. unfold bind at 1, getClient at 1. simpl.
  unfold stop_handles in *.
  do 4 (erewrite bind_Done;
        [|apply closeOrPanic_ok; intros h' Hh; apply Hans; rewrite Hh; set_solver]).
  rewrite !after_after. unfold after. simpl.
  by rewrite !map_app.
Qed.

(** C3 on an entry with two or more channels, all different and open: both
    [clearTopicFromConsumerChannelMap] and [clearConsumerChannelMap], and with
    it [Stop], close all channels but the last one, then panic on closing the
    channel before the last a second time; the last channel is never
    closed. *)
Theorem clear_closes_a_channel_twice
    (w : World) (topic : Topic) (l : loc) (cc : consumerChannels) :
  registry (sc w) !! Name topic = Some l ->
  heap w !! l = Some cc ->
  NoDup (channels cc) ->
  (2 <= length (channels cc))%nat ->
  (forall ch, ch ∈ channels cc -> closed (trace w) ch = false) ->
  exists c : chan_id,
    channels cc !! (length (channels cc) - 2)%nat = Some c
    /\ (exists w' : World,
           clearTopicFromConsumerChannelMap topic w
             = Panics (panic_close_of_closed_channel c) w'
           /\ trace w' = trace w
                         ++ map EvCloseChan (take (length (channels cc) - 1) (channels cc)))
    /\ (registry (sc w) = {[ Name topic := l ]} ->
        (exists w' : World,
            clearConsumerChannelMap w = Panics (panic_close_of_closed_channel c) w'
            /\ trace w' = trace w
                          ++ map EvCloseChan (take (length (channels cc) - 1) (channels cc)))
        /\ (doneCh (sc w) = Some [] ->
            (forall tr h, h ∈ stop_handles (sc w) -> broker_err tr (EvClose h) = None) ->
            exists w' : World,
              Stop w = Panics (panic_close_of_closed_channel c) w'
              /\ trace w' = trace w ++ map EvClose (stop_handles (sc w))
                            ++ map EvCloseChan
                                 (take (length (channels cc) - 1) (channels cc)))).
Proof.
  intros Hreg Hheap Hnd Hlen Hopen.
  destruct (clearChannels_panics w l cc Hheap Hnd Hlen Hopen) as (c & w1 & Hrun & Hc & Htr).
  exists c. split; [exact Hc|]. split; [|intros Hone; split].
  - exists w1. split; [|exact Htr].
    unfold clearTopicFromConsumerChannelMap. unfold bind at 1, getClient at 1.
    rewrite Hreg. by apply bind_Panics.
  - exists w1. split; [|exact Htr].
    unfold clearConsumerChannelMap. unfold bind at 1, getClient at 1.
    rewrite Hone, map_to_list_singleton. simpl. by apply bind_Panics.
  - intros Hdone Hans. rewrite (Stop_reaches_clear w Hdone Hans).
    set (w2 := {| sc := set_doneCh (Some [1]) (sc w); heap := heap w; nextId := nextId w;
                  trace := trace w ++ map EvClose (stop_handles (sc w)) |}).
    destruct (clearChannels_panics w2 l cc Hheap Hnd Hlen) as (c2 & w3 & Hrun2 & Hc2 & Htr2).
    { intros ch Hin. simpl. rewrite closed_close_events. by apply Hopen. }
    assert (c2 = c) as -> by congruence.
    exists w3. split; [|rewrite Htr2; simpl; by rewrite <- app_assoc].
    apply bind_Panics.
    unfold clearConsumerChannelMap. unfold bind at 1, getClient at 1.
    change (registry (sc w2)) with (registry (sc w)).
    rewrite Hone, map_to_list_singleton. simpl. by apply bind_Panics.
Qed.

(** One [Stop] with the done channel empty, a broker that closes the
    client's handles without error, and a registry whose entries hold at most
    one channel. *)
Lemma Stop_spec (w : World) :
  doneCh (sc w) = Some [] ->
  (forall tr h, h ∈ stop_handles (sc w) -> broker_err tr (EvClose h) = None) ->
  registry_ok w = true ->
  Stop w
    = Done tt
        {| sc := set_topicToConsumerChannelMap
                   (delete_all (map_to_list (registry (sc w))).*1
                      <$> topicToConsumerChannelMap (sc w))
                   (set_doneCh (Some [1]) (sc w));
           heap := heap w;
           nextId := nextId w;
           trace := trace w ++ map EvClose (stop_handles (sc w))
                    ++ clear_events (heap w) (map_to_list (registry (sc w))) |}.
Proof.
  intros Hdone Hans Hok.
  unfold Stop. unfold bind at 1, send_doneCh at 1, bind at 1, getClient at 1.
  rewrite Hdone. unfold modifyClient at 1. unfold bind at 1, getClient at 1. simpl.
  unfold stop_handles in *.
  erewrite bind_Done;
    [|apply closeOrPanic_ok; intros h' Hh; apply Hans; rewrite Hh; set_solver].
  erewrite bind_Done;
    [|apply closeOrPanic_ok; intros h' Hh; apply Hans; rewrite Hh; set_solver].
  erewrite bind_Done;
    [|apply closeOrPanic_ok; intros h' Hh; apply Hans; rewrite Hh; set_solver].
  erewrite bind_Done;
    [|apply closeOrPanic_ok; intros h' Hh; apply Hans; rewrite Hh; set_solver].
  rewrite !after_after.
  unfold clearConsumerChannelMap. unfold bind at 1, bind at 1, getClient at 1. simpl.
  change (registry (set_doneCh (Some [1]) (sc w))) with (registry (sc w)).
  edestruct (clearEntries_spec (map_to_list (registry (sc w))) None) as (err' & ->).
  { simpl. eapply entries_ok_trace; [exact Hok|]. intros ch _.
    rewrite <- !map_app. apply closed_close_events. }
  unfold ret. simpl. f_equal. f_equal.
  by rewrite !map_app, <- !app_assoc.
Qed.

Lemma registry_after_clear (c c' : SaramaClient) :
  topicToConsumerChannelMap c' = topicToConsumerChannelMap c ->
  registry (set_topicToConsumerChannelMap
              (delete_all (map_to_list (registry c)).*1 <$> topicToConsumerChannelMap c) c')
  = ∅.
Proof.
  intros _. unfold registry; simpl.
  destruct (topicToConsumerChannelMap c) as [m|]; simpl; [|done].
  apply delete_all_keys.
Qed.

Lemma Stop_returns (w : World) :
  doneCh (sc w) = Some [] ->
  (forall tr h, h ∈ stop_handles (sc w) -> broker_err tr (EvClose h) = None) ->
  registry_ok w = true ->
  exists w' : World,
    Stop w = Done tt w'
    /\ trace w' = trace w ++ map EvClose (stop_handles (sc w))
                  ++ clear_events (heap w) (map_to_list (registry (sc w)))
    /\ registry (sc w') = ∅
    /\ stop_handles (sc w') = stop_handles (sc w)
    /\ doneCh (sc w') = Some [1].
Proof.
  intros Hdone Hans Hok.
  eexists. split; [by apply Stop_spec|]. simpl.
  split; [done|]. split; [by apply registry_after_clear|]. done.
Qed.

(** C4, as the code has it.  A [Stop] that finds the done channel empty, a
    broker that closes the client's handles without error and a registry
    whose entries hold at most one open channel each returns; it has called
    [Close] once on each handle the client holds (producer, consumer, group
    consumer, admin, in this order), then closed the channels and consumers
    of the registry, and the registry is empty.  It keeps the handles and
    leaves its signal in the done channel: a second [Stop] blocks as long as
    no loop has taken the signal, and once a loop has taken it, the second
    [Stop] calls [Close] on every one of these handles again. *)
Theorem Stop_closes_handles_each_time (w : World) :
  doneCh (sc w) = Some [] ->
  (forall tr h, h ∈ stop_handles (sc w) -> broker_err tr (EvClose h) = None) ->
  registry_ok w = true ->
  exists w' : World,
    Stop w = Done tt w'
    /\ trace w' = trace w ++ map EvClose (stop_handles (sc w))
                  ++ clear_events (heap w) (map_to_list (registry (sc w)))
    /\ registry (sc w') = ∅
    /\ stop_handles (sc w') = stop_handles (sc w)
    /\ Stop w' = Blocks w'
    /\ forall (topic : Topic) (consumer : handle) (consumerChnls : loc),
         exists wd w'' : World,
           consumeFromAPartition_turn topic consumer consumerChnls case_doneCh w'
             = Done loop_break wd
           /\ Stop wd = Done tt w''
           /\ trace w'' = trace w' ++ map EvClose (stop_handles (sc w))
           /\ registry (sc w'') = ∅.
Proof.
  intros Hdone Hans Hok.
  destruct (Stop_returns w Hdone Hans Hok) as (w' & Hstop & Htr & Hreg & Hh & Hd).
  exists w'. do 4 (split; [done|]). split.
  { unfold Stop, send_doneCh. unfold bind at 1, bind at 1, getClient at 1.
    by rewrite Hd. }
  intros topic consumer consumerChnls.
  set (wd := {| sc := set_doneCh (Some []) (sc w'); heap := heap w';
                nextId := nextId w'; trace := trace w' |}).
  assert (registry_ok wd = true) as Hokd.
  { unfold registry_ok. change (registry (sc wd)) with (registry (sc w')).
    rewrite Hreg, map_to_list_empty. reflexivity. }
  assert (forall tr h, h ∈ stop_handles (sc wd) -> broker_err tr (EvClose h) = None) as Hansd.
  { intros tr h Hin. apply Hans. by rewrite <- Hh. }
  destruct (Stop_returns wd eq_refl Hansd Hokd) as (w'' & Hstop2 & Htr2 & Hreg2 & _).
  exists wd, w''. split.
  { unfold consumeFromAPartition_turn, recv_doneCh.
    unfold bind at 1, bind at 1, getClient at 1. by rewrite Hd. }
  split; [done|]. split; [|done].
  rewrite Htr2. change (registry (sc wd)) with (registry (sc w')).
  rewrite Hreg, map_to_list_empty. simpl. rewrite app_nil_r.
  change (stop_handles (set_doneCh (Some []) (sc w'))) with (stop_handles (sc w')).
  by rewrite Hh.
Qed.

(** * More of the client *)

(** ** Start *)

(** X1: [Start] asks for the admin handle, the producer and the consumer, in
    this order and at the same address, and stops at the first refusal: it
    returns that error, keeps the handles it already has, and leaves the
    registry map as it was (nil on a new client).  Only when all three are
    granted does it install an empty registry.  In every case the done
    channel is a new, empty one. *)
Theorem Start_fails_fast (w : World) :
  let addrs := [kafkaFullAddr (sc w)] in
  let a1 := broker_err (trace w) (EvNewClusterAdmin addrs) in
  let a2 := broker_err (trace w ++ [EvNewClusterAdmin addrs]) (EvNewAsyncProducer addrs) in
  let a3 := broker_err (trace w ++ [EvNewClusterAdmin addrs; EvNewAsyncProducer addrs])
              (EvNewConsumer addrs) in
  let admin := Some (sarama_ClusterAdmin (nextId w)) in
  let prod := Some (sarama_AsyncProducer (S (nextId w))) in
  let cons := Some (sarama_Consumer (S (S (nextId w)))) in
  (forall e, a1 = Some e ->
     Start w = Done (Some e)
                 {| sc := set_doneCh (Some []) (sc w);
                    heap := heap w; nextId := nextId w;
                    trace := trace w ++ [EvNewClusterAdmin addrs] |})
  /\ (forall e, a1 = None -> a2 = Some e ->
        Start w = Done (Some e)
                    {| sc := set_cAdmin admin (set_doneCh (Some []) (sc w));
                       heap := heap w; nextId := S (nextId w);
                       trace := trace w ++ [EvNewClusterAdmin addrs;
                                            EvNewAsyncProducer addrs] |})
  /\ (forall e, a1 = None -> a2 = None -> a3 = Some e ->
        Start w = Done (Some e)
                    {| sc := set_producer prod
                               (set_cAdmin admin (set_doneCh (Some []) (sc w)));
                       heap := heap w; nextId := S (S (nextId w));
                       trace := trace w ++ [EvNewClusterAdmin addrs;
                                            EvNewAsyncProducer addrs;
                                            EvNewConsumer addrs] |})
  /\ (a1 = None -> a2 = None -> a3 = None ->
      Start w = Done None
                  {| sc := set_topicToConsumerChannelMap (Some ∅)
                             (set_consumer cons
                                (set_producer prod
                                   (set_cAdmin admin (set_doneCh (Some []) (sc w)))));
                     heap := heap w; nextId := S (S (S (nextId w)));
                     trace := trace w ++ [EvNewClusterAdmin addrs;
                                          EvNewAsyncProducer addrs;
                                          EvNewConsumer addrs] |}).
Proof.
  intros addrs a1 a2 a3 admin prod cons.
  subst addrs a1 a2 a3 admin prod cons.
  unfold Start, createClusterAdmin, createPublisher, createConsumer, bind, modifyClient,
    getClient, callBroker, fresh, ret, kafkaFullAddr.
  simpl. repeat split.
  - intros e ->. done.
  - intros e -> H2. simpl. rewrite H2. simpl. by rewrite <- app_assoc.
  - intros e -> H2 H3. simpl. rewrite H2. simpl.
    rewrite <- app_assoc. simpl. rewrite H3. simpl. by rewrite <- app_assoc.
  - intros -> H2 H3. simpl. rewrite H2. simpl.
    rewrite <- app_assoc. simpl. rewrite H3. simpl. by rewrite <- app_assoc.
Qed.

(** ** Subscribe and the consumer strategy *)

(** X2: the consumer strategy is read only by the first [Subscribe] on a
    topic.  With a strategy that is neither the partition nor the group one,
    a first [Subscribe] returns the error "unknown-consumer-type" without
    calling the broker or touching the state, while a [Subscribe] on a topic
    that has an entry still succeeds. *)
Theorem Subscribe_unknown_consumer_type (w : World) (topic : Topic) :
  consumerType (sc w) <> PartitionConsumer ->
  consumerType (sc w) <> GroupCustomer ->
  (registry (sc w) !! Name topic = None ->
   Subscribe topic w = Done (inl (errorString "unknown-consumer-type")) w)
  /\ (forall (l : loc) (cc : consumerChannels),
         registry (sc w) !! Name topic = Some l ->
         heap w !! l = Some cc ->
         exists w' : World,
           Subscribe topic w = Done (inr (nextId w)) w'
           /\ trace w' = trace w).
Proof.
  intros Hp Hg. split.
  - intros Hreg. unfold Subscribe. unfold bind at 1. rewrite getConsumerChannel_eq, Hreg.
    unfold bind, getClient.
    apply Z.eqb_neq in Hp, Hg. by rewrite Hp, Hg.
  - intros l cc Hreg Hheap. eexists. split; [by apply Subscribe_existing|done].
Qed.

(** ** The counts of CreateTopic *)

Lemma wrap_signed_periodic (bits x k : Z) :
  0 < bits -> wrap_signed bits (x + k * 2 ^ bits) = wrap_signed bits x.
Proof.
  intros Hb. unfold wrap_signed.
  replace (x + k * 2 ^ bits + 2 ^ (bits - 1)) with (x + 2 ^ (bits - 1) + k * 2 ^ bits) by lia.
  rewrite Z.mod_add; [done|]. apply Z.pow_nonzero; lia.
Qed.

Lemma wrap_signed_in_range (bits x : Z) :
  0 < bits -> - 2 ^ (bits - 1) <= x < 2 ^ (bits - 1) -> wrap_signed bits x = x.
Proof.
  intros Hb Hx. unfold wrap_signed.
  assert (2 ^ bits = 2 * 2 ^ (bits - 1)) as Hpow.
  { replace bits with (Z.succ (bits - 1)) at 1 by lia. apply Z.pow_succ_r. lia. }
  rewrite Z.mod_small by lia. lia.
Qed.

(** X3: [CreateTopic] sends the partition count as an [int32] and the
    replication factor as an [int16]: counts in range reach the broker as
    they are, and counts that differ by a multiple of 2^32 (of 2^16 for the
    replication factor) give the same call and the same result. *)
Theorem CreateTopic_counts_wrap (w : World) (topic : Topic) (numPartition repFactor : Z) :
  (forall k j : Z,
      CreateTopic topic (numPartition + k * 2 ^ 32) (repFactor + j * 2 ^ 16) w
      = CreateTopic topic numPartition repFactor w)
  /\ (forall h : handle,
         cAdmin (sc w) = Some h ->
         - 2 ^ 31 <= numPartition < 2 ^ 31 ->
         - 2 ^ 15 <= repFactor < 2 ^ 15 ->
         trace (outcome_world (CreateTopic topic numPartition repFactor w))
         = trace w ++ [EvAdminCreateTopic h (Name topic) numPartition repFactor]).
Proof.
  split.
  - intros k j. unfold CreateTopic, int32, int16.
    by rewrite (wrap_signed_periodic 32), (wrap_signed_periodic 16).
  - intros h Hadmin Hn Hr. unfold CreateTopic, int32, int16, bind, getClient, callBroker.
    rewrite Hadmin.
    rewrite (wrap_signed_in_range 32), (wrap_signed_in_range 16) by (done || lia).
    destruct (broker_err _ _) as [e|]; [destruct (error_eqb e _)|]; done.
Qed.

(** ** Send without a producer, Send of what does not marshal *)

(** X4: [Send] looks at nothing but the producer handle: it does not ask
    whether the topic is registered or exists.  A proto message that does
    not marshal makes it return the marshalling error and leaves the state
    untouched; one that marshals, on a client without producer (never
    started), makes it panic on the nil handle. *)
Theorem Send_failures (w : World) (topic : Topic) (keys : list string)
    (protoMsg : ProtoMessage) :
  (forall err : error,
      Marshal protoMsg = inl err ->
      Send (any_proto protoMsg) topic keys w = Done (Some err) w)
  /\ (forall marshalled : list byte,
         Marshal protoMsg = inr marshalled ->
         producer (sc w) = None ->
         Send (any_proto protoMsg) topic keys w = Panics panic_nil_dereference w).
Proof.
  split.
  - intros err Hm. unfold Send. by rewrite Hm.
  - intros marshalled Hm Hp. unfold Send, bind, getClient. by rewrite Hm, Hp.
Qed.

(** ** One signal, one loop *)

(** X5: a value in the done channel ends one consumption loop and no more:
    the loop of either kind that takes it breaks and leaves the channel empty,
    and on the empty channel the done case of every other loop blocks. *)
Theorem done_signal_ends_one_loop (w : World) (v : Z) :
  doneCh (sc w) = Some [v] ->
  let w1 := {| sc := set_doneCh (Some []) (sc w); heap := heap w;
               nextId := nextId w; trace := trace w |} in
  forall (topic : Topic) (consumer : handle) (consumerChnls : loc),
    consumeFromAPartition_turn topic consumer consumerChnls case_doneCh w = Done loop_break w1
    /\ consumeGroupMessages_turn topic consumer consumerChnls case_doneCh w
       = Done loop_break w1
    /\ consumeFromAPartition_turn topic consumer consumerChnls case_doneCh w1 = Blocks w1
    /\ consumeGroupMessages_turn topic consumer consumerChnls case_doneCh w1 = Blocks w1.
Proof.
  intros Hd w1 topic consumer consumerChnls.
  unfold consumeFromAPartition_turn, consumeGroupMessages_turn, recv_doneCh, bind,
    getClient, modifyClient, ret, block.
  rewrite Hd. simpl. done.
Qed.

(** ** Starting the loops *)

Lemma startConsumers_loop_all (topic : Topic) (l : loc) (cs : list handle) :
  forall w : World,
    forallb is_registry_consumer cs = true ->
    startConsumers_loop topic l cs w = Done None (after w (flat_map (loop_of topic l) cs)).
Proof.
  induction cs as [|c rest IH]; intros w Hall; simpl.
  - unfold ret. by rewrite after_nil.
  - simpl in Hall. apply andb_true_iff in Hall as [Hc Hrest].
    destruct c; try done; simpl;
      unfold bind at 1, emit at 1; rewrite (IH _ Hrest); unfold after; simpl;
      by rewrite <- app_assoc.
Qed.

Lemma startConsumers_loop_invalid (topic : Topic) (l : loc) (before : list handle)
    (c : handle) (rest : list handle) :
  forall w : World,
    forallb is_registry_consumer before = true ->
    is_registry_consumer c = false ->
    startConsumers_loop topic l (before ++ c :: rest) w
    = Done (Some (errorString "invalid-consumer"))
        (after w (flat_map (loop_of topic l) before)).
Proof.
  induction before as [|b before' IH]; intros w Hall Hc; simpl.
  - unfold ret. rewrite after_nil. by destruct c.
  - simpl in Hall. apply andb_true_iff in Hall as [Hb Hrest].
    destruct b; try done; simpl;
      unfold bind at 1, emit at 1; rewrite (IH _ Hrest Hc); unfold after; simpl;
      by rewrite <- app_assoc.
Qed.

(** X6: [startConsumers] starts one loop per consumer of the entry, in
    order: the partition loop for a partition consumer, the group loop for a
    group consumer, each with the entry itself.  A topic without entry gives
    the error "consumers-not-exist" and nothing is started.  A consumer of
    another kind gives "invalid-consumer" and ends the walk: the loops of the
    consumers before it are running, those of the consumers after it are
    never started. *)
Theorem startConsumers_one_loop_per_consumer (w : World) (topic : Topic) :
  (registry (sc w) !! Name topic = None ->
   startConsumers topic w = Done (Some (errorString "consumers-not-exist")) w)
  /\ (forall (l : loc) (cc : consumerChannels),
         registry (sc w) !! Name topic = Some l ->
         heap w !! l = Some cc ->
         (forallb is_registry_consumer (consumers cc) = true ->
          startConsumers topic w
          = Done None (after w (flat_map (loop_of topic l) (consumers cc))))
         /\ (forall before c rest,
                consumers cc = before ++ c :: rest ->
                forallb is_registry_consumer before = true ->
                is_registry_consumer c = false ->
                startConsumers topic w
                = Done (Some (errorString "invalid-consumer"))
                    (after w (flat_map (loop_of topic l) before)))).
Proof.
  split.
  - intros Hreg. unfold startConsumers. unfold bind at 1.
    by rewrite getConsumerChannel_eq, Hreg.
  - intros l cc Hreg Hheap.
    assert (startConsumers topic w = startConsumers_loop topic l (consumers cc) w) as ->.
    { unfold startConsumers. unfold bind at 1. rewrite getConsumerChannel_eq, Hreg.
      unfold bind, deref. by rewrite Hheap. }
    split.
    + apply startConsumers_loop_all.
    + intros before c rest -> Hall Hc. by apply startConsumers_loop_invalid.
Qed.

(** ** One partition consumer per partition *)

Lemma consumePartitions_all (h : handle) (topic : Topic) (initialOffset : Z)
    (ps : list Z) :
  (forall tr p, p ∈ ps ->
                broker_err tr (EvConsumePartition h (Name topic) p initialOffset) = None) ->
  forall (acc : list handle) (w : World),
    consumePartitions h topic initialOffset ps acc w
    = Done (inr (acc ++ map sarama_PartitionConsumer (seq (nextId w) (length ps))))
        {| sc := sc w; heap := heap w;
           nextId := (nextId w + length ps)%nat;
           trace := trace w ++ consume_events h topic initialOffset ps |}.
Proof.
  induction ps as [|p rest IH]; intros Hans acc w; simpl.
  - unfold ret. rewrite !app_nil_r, Nat.add_0_r. by rewrite World_eta.
  - unfold bind at 1, callBroker at 1. rewrite Hans by (by left).
    unfold bind at 1, fresh at 1.
    rewrite IH by (intros tr p' Hin; apply Hans; by right). simpl.
    rewrite <- !app_assoc. simpl.
    by replace (S (nextId w + length rest)) with (nextId w + S (length rest))%nat by lia.
Qed.

Lemma consumePartitions_fails (h : handle) (topic : Topic) (initialOffset : Z)
    (before : list Z) (p : Z) (rest : list Z) (e : error) :
  (forall tr p', p' ∈ before ->
                 broker_err tr (EvConsumePartition h (Name topic) p' initialOffset) = None) ->
  (forall tr, broker_err tr (EvConsumePartition h (Name topic) p initialOffset) = Some e) ->
  forall (acc : list handle) (w : World),
    consumePartitions h topic initialOffset (before ++ p :: rest) acc w
    = Done (inl e)
        {| sc := sc w; heap := heap w;
           nextId := (nextId w + length before)%nat;
           trace := trace w ++ consume_events h topic initialOffset (before ++ [p]) |}.
Proof.
  intros Hans He. induction before as [|b before' IH]; intros acc w; simpl.
  - unfold bind, callBroker. rewrite He. simpl. by rewrite Nat.add_0_r.
  - unfold bind at 1, callBroker at 1. rewrite Hans by (by left).
    unfold bind at 1, fresh at 1.
    rewrite IH by (intros tr p' Hin; apply Hans; by right). simpl.
    rewrite <- !app_assoc. simpl.
    by replace (S (nextId w + length before')) with (nextId w + S (length before'))%nat
      by lia.
Qed.

(** X7: [createPartionConsumers] asks for the partitions of the topic and
    then for one partition consumer per partition, in the order of the list
    and at the given offset.  When every request is granted it returns one
    new consumer per partition, all different.  When the request for one
    partition is refused it returns that error at once: the partitions after
    it are not asked for, and the consumers obtained before it are neither
    returned nor closed.  When the partition list itself is refused, that
    error comes back after the one call. *)
Theorem createPartionConsumers_one_per_partition
    (w : World) (topic : Topic) (initialOffset : Z) (h : handle) :
  consumer (sc w) = Some h ->
  let asked := after w [EvPartitions h (Name topic)] in
  (forall e : error,
      broker_err (trace w) (EvPartitions h (Name topic)) = Some e ->
      createPartionConsumers topic initialOffset w = Done (inl e) asked)
  /\ (broker_err (trace w) (EvPartitions h (Name topic)) = None ->
      let ps := broker_partitions (trace w) h (Name topic) in
      ((forall tr p, p ∈ ps ->
           broker_err tr (EvConsumePartition h (Name topic) p initialOffset) = None) ->
       let pConsumers := map sarama_PartitionConsumer (seq (nextId w) (length ps)) in
       createPartionConsumers topic initialOffset w
       = Done (inr pConsumers)
           {| sc := sc w; heap := heap w;
              nextId := (nextId w + length ps)%nat;
              trace := trace asked ++ consume_events h topic initialOffset ps |}
       /\ NoDup pConsumers
       /\ length pConsumers = length ps)
      /\ (forall before p rest e,
             ps = before ++ p :: rest ->
             (forall tr p', p' ∈ before ->
                 broker_err tr (EvConsumePartition h (Name topic) p' initialOffset) = None) ->
             (forall tr,
                 broker_err tr (EvConsumePartition h (Name topic) p initialOffset) = Some e) ->
             createPartionConsumers topic initialOffset w
             = Done (inl e)
                 {| sc := sc w; heap := heap w;
                    nextId := (nextId w + length before)%nat;
                    trace := trace asked
                             ++ consume_events h topic initialOffset (before ++ [p]) |})).
Proof.
  intros Hc asked.
  assert (createPartionConsumers topic initialOffset w
          = match broker_err (trace w) (EvPartitions h (Name topic)) with
            | Some e => Done (inl e) asked
            | None => consumePartitions h topic initialOffset
                        (broker_partitions (trace w) h (Name topic)) [] asked
            end) as Hrun.
  { unfold createPartionConsumers, bind, getClient, callPartitions. rewrite Hc.
    by destruct (broker_err _ _). }
  split.
  - intros e He. by rewrite Hrun, He.
  - intros Hok ps. rewrite Hrun, Hok. split.
    + intros Hans pConsumers. split; [|split].
      * by rewrite (consumePartitions_all h topic initialOffset ps Hans).
      * apply NoDup_fmap_2; [|apply NoDup_seq]. by intros x y [= ->].
      * unfold pConsumers. by rewrite length_map, length_seq.
    + intros before p rest e Hps Hans He. fold ps. rewrite Hps.
      by rewrite (consumePartitions_fails h topic initialOffset before p rest e Hans He).
Qed.

(** ** The error of closeConsumers *)

Lemma fold_close_error_decided (before after_ : list (option error)) (e : error)
    (err : option error) :
  Forall (fun answer => answer = None) after_ ->
  fold_close_error err (before ++ Some e :: after_)
  = if tolerated e then None else Some e.
Proof.
  intros Hafter. unfold fold_close_error. rewrite fold_left_app. simpl.
  generalize (if tolerated e then None else Some e) as res.
  induction Hafter as [|a rest -> _ IH]; intros res; [done|]. apply IH.
Qed.

Lemma fold_close_error_all_nil (answers : list (option error)) (err : option error) :
  Forall (fun answer => answer = None) answers -> fold_close_error err answers = err.
Proof.
  intros Hall. revert err. induction Hall as [|a rest -> _ IH]; intros err; [done|]. apply IH.
Qed.

Lemma close_answers_length (cs : list handle) :
  forall tr, length (close_answers tr cs) = length (close_events cs).
Proof.
  induction cs as [|c rest IH]; intros tr; [done|].
  unfold close_events in *. simpl. destruct (is_registry_consumer c); simpl; by rewrite IH.
Qed.

(** X8: [closeConsumers] never stops early and never panics: it calls
    [Close] once on every partition and group consumer of the list, in
    order, whatever the calls before returned, and on nothing else.  Its
    result is decided by the last call that failed alone: nil when no call
    failed, the error of that call when it reads otherwise than "unknown
    topic or partition", and nil when it reads so, whatever errors the calls
    before it returned. *)
Theorem closeConsumers_last_failure_decides (cs : list handle) (w : World) :
  let answers := close_answers (trace w) cs in
  exists err : option error,
    closeConsumers cs w = Done err (after w (close_events cs))
    /\ length answers = length (close_events cs)
    /\ (Forall (fun answer => answer = None) answers -> err = None)
    /\ (forall before e after_,
           answers = before ++ Some e :: after_ ->
           Forall (fun answer => answer = None) after_ ->
           err = if tolerated e then None else Some e).
Proof.
  intros answers. eexists. split; [apply closeConsumers_spec|].
  split; [apply close_answers_length|]. fold answers. split.
  - apply fold_close_error_all_nil.
  - intros before e after_ -> Hafter. by apply fold_close_error_decided.
Qed.

(** ** What Subscribe leaves alone *)

#[local] Instance steady_refl : Reflexive steady.
Proof.
  intros w. repeat split; [lia|]. exists []. by rewrite app_nil_r.
Qed.

#[local] Instance steady_trans : Transitive steady.
Proof.
  intros w1 w2 w3 (Ha & Hb & Hc & t1 & Ht1 & HP1) (Ha' & Hb' & Hc' & t2 & Ht2 & HP2).
  split; [congruence|]. split; [congruence|]. split; [lia|].
  exists (t1 ++ t2). rewrite Ht2, Ht1, app_assoc. split; [done|]. by apply Forall_app.
Qed.

Lemma steady_after (w : World) (ev : event) : ~ is_Close ev -> steady w (after w [ev]).
Proof.
  intros Hev. repeat split; [simpl; lia|]. exists [ev]. split; [done|]. by constructor.
Qed.

Lemma steady_fresh : preserves steady fresh.
Proof.
  intros w. repeat split; [simpl; lia|]. exists []. simpl. by rewrite app_nil_r.
Qed.

Lemma steady_emit ev : ~ is_Close ev -> preserves steady (emit ev).
Proof. intros Hev. apply preserves_emit. intros w. by apply steady_after. Qed.

Lemma steady_callBroker ev : ~ is_Close ev -> preserves steady (callBroker ev).
Proof. intros Hev. apply preserves_callBroker. intros w. by apply steady_after. Qed.

Lemma steady_callPartitions h topic : preserves steady (callPartitions h topic).
Proof. apply preserves_callPartitions. intros w. apply steady_after. simpl. tauto. Qed.

Lemma steady_modifyClient f :
  (forall c, topicToConsumerChannelMap (f c) = topicToConsumerChannelMap c) ->
  preserves steady (modifyClient f).
Proof.
  intros H w. split; [apply H|]. repeat split; [simpl; lia|].
  exists []. simpl. by rewrite app_nil_r.
Qed.

#[local] Hint Resolve steady_fresh steady_emit steady_callBroker steady_callPartitions
  steady_modifyClient : preserves.
#[local] Hint Extern 1 (~ is_Close _) => simpl; tauto : preserves.

Lemma steady_CreateTopic topic numPartition repFactor :
  preserves steady (CreateTopic topic numPartition repFactor).
Proof. unfold CreateTopic. preserves_body. Qed.

Lemma steady_consumePartitions h topic initialOffset partitionList acc :
  preserves steady (consumePartitions h topic initialOffset partitionList acc).
Proof.
  revert acc. induction partitionList as [|partition rest IH]; intros acc; simpl;
    preserves_body.
Qed.

Lemma steady_createPartionConsumers topic initialOffset :
  preserves steady (createPartionConsumers topic initialOffset).
Proof.
  unfold createPartionConsumers. preserves_body. apply steady_consumePartitions.
Qed.

Lemma steady_createGroupConsumer topic groupId retries :
  preserves steady (createGroupConsumer topic groupId retries).
Proof. unfold createGroupConsumer. preserves_body. Qed.

Lemma steady_closed (w w' : World) (ch : chan_id) :
  steady w w' -> closed (trace w') ch = closed (trace w) ch.
Proof.
  intros (_ & _ & _ & tail & -> & Htail). rewrite closed_app.
  induction Htail as [|ev rest Hev _ IH]; simpl; [apply orb_false_r|].
  destruct ev; simpl in *; solve [exact IH | tauto].
Qed.

(** The end of both [setup...ConsumerChannel] functions, in full. *)
Lemma register_entry_full (w w1 : World) (topic : Topic) (cs : list handle)
    (r : error + chan_id) :
  registry (sc w) !! Name topic = None ->
  (consumerListeningChannel <- fresh ;;
   cc <- fresh ;;
   _ <- store cc {| consumers := cs; channels := [consumerListeningChannel] |} ;;
   _ <- addTopicToConsumerChannelMap (Name topic) cc ;;
   _ <- emit (EvGo (task_startConsumers topic)) ;;
   ret (inr consumerListeningChannel)) w = Done r w1 ->
  exists m : gmap string loc,
    topicToConsumerChannelMap (sc w) = Some m
    /\ r = inr (nextId w)
    /\ w1 = {| sc := set_topicToConsumerChannelMap (Some (<[Name topic := S (nextId w)]> m))
                       (sc w);
               heap := <[S (nextId w) := {| consumers := cs; channels := [nextId w] |}]>
                         (heap w);
               nextId := S (S (nextId w));
               trace := trace w ++ [EvGo (task_startConsumers topic)] |}.
Proof.
  intros Hreg.
  unfold addTopicToConsumerChannelMap, bind, fresh, store, getClient, emit, ret,
    modifyClient; simpl.
  rewrite Hreg.
  destruct (topicToConsumerChannelMap (sc w)) as [m|] eqn:Hm; simpl; [|done].
  intros [= <- <-]. by exists m.
Qed.

(** A first [Subscribe] that returns a channel: steady work, then the
    registration of a new entry that holds this channel alone. *)
Lemma Subscribe_new_topic (w w1 : World) (topic : Topic) (ch : chan_id) :
  registry (sc w) !! Name topic = None ->
  Subscribe topic w = Done (inr ch) w1 ->
  exists (wa : World) (cs : list handle) (m : gmap string loc),
    steady w wa
    /\ ch = nextId wa
    /\ topicToConsumerChannelMap (sc wa) = Some m
    /\ w1 = {| sc := set_topicToConsumerChannelMap (Some (<[Name topic := S ch]> m)) (sc wa);
               heap := <[S ch := {| consumers := cs; channels := [ch] |}]> (heap wa);
               nextId := S (S ch);
               trace := trace wa ++ [EvGo (task_startConsumers topic)] |}.
Proof.
  intros Hreg.
  unfold Subscribe. unfold bind at 1. rewrite getConsumerChannel_eq, Hreg.
  unfold bind at 1, getClient at 1.
  destruct (consumerType (sc w) =? PartitionConsumer)%Z.
  - intros H. apply bind_inv in H as (r & wa & Hcreate & H).
    assert (steady w wa) as Hsa.
    { destruct (autoCreateTopic (sc w)).
      - eapply preserves_Done; [apply steady_CreateTopic|exact Hcreate].
      - injection Hcreate as _ <-. reflexivity. }
    destruct r as [err|]; [done|].
    apply bind_inv in H as (r & wb & Hsetup & H).
    destruct r as [err|c]; [done|]. injection H as -> ->.
    unfold setupPartitionConsumerChannel in Hsetup.
    apply bind_inv in Hsetup as (r & wc & Hcons & H).
    pose proof (preserves_Done _ _ _ _ _ (steady_createPartionConsumers _ _) Hcons) as Hsc.
    destruct r as [err|pConsumers]; [done|].
    assert (steady w wc) as Hs by (etransitivity; eassumption).
    apply register_entry_full in H as (m & Hm & Hr & ->).
    + injection Hr as ->. exists wc. eexists. exists m.
      split; [done|]. split; [done|]. split; [done|]. reflexivity.
    + unfold registry. destruct Hs as (-> & _). exact Hreg.
  - destruct (consumerType (sc w) =? GroupCustomer)%Z; [|done].
    intros H. apply bind_inv in H as (r & wb & Hsetup & H).
    destruct r as [err|c]; [done|]. injection H as -> ->.
    unfold setupGroupConsumerChannel in Hsetup.
    apply bind_inv in Hsetup as (r & wc & Hcons & H).
    pose proof (preserves_Done _ _ _ _ _ (steady_createGroupConsumer _ _ _) Hcons) as Hs.
    destruct r as [err|pConsumer]; [done|].
    apply register_entry_full in H as (m & Hm & Hr & ->).
    + injection Hr as ->. exists wc. eexists. exists m.
      split; [done|]. split; [done|]. split; [done|]. reflexivity.
    + unfold registry. destruct Hs as (-> & _). exact Hreg.
Qed.

(** A [Subscribe] that returns an error has done steady work only. *)
Lemma Subscribe_error_steady (w w' : World) (topic : Topic) (e : error) :
  Subscribe topic w = Done (inl e) w' -> steady w w'.
Proof.
  intros Hrun.
  destruct (registry (sc w) !! Name topic) as [l|] eqn:Hreg.
  - exfalso. revert Hrun. unfold Subscribe. unfold bind at 1.
    rewrite getConsumerChannel_eq, Hreg.
    unfold addChannelToConsumerChannelMap, bind, fresh, getClient, deref, store, ret; simpl.
    rewrite Hreg; simpl. by destruct (heap w !! l).
  - revert Hrun. unfold Subscribe. unfold bind at 1. rewrite getConsumerChannel_eq, Hreg.
    unfold bind at 1, getClient at 1.
    destruct (consumerType (sc w) =? PartitionConsumer)%Z.
    + intros H. apply bind_inv in H as (r & wa & Hcreate & H).
      assert (steady w wa) as Hsa.
      { destruct (autoCreateTopic (sc w)).
        - eapply preserves_Done; [apply steady_CreateTopic|exact Hcreate].
        - injection Hcreate as _ <-. reflexivity. }
      destruct r as [err|]; [by injection H as _ <-|].
      apply bind_inv in H as (r & wb & Hsetup & H).
      destruct r as [err|c]; [|done]. injection H as _ <-.
      unfold setupPartitionConsumerChannel in Hsetup.
      apply bind_inv in Hsetup as (r & wc & Hcons & H).
      pose proof (preserves_Done _ _ _ _ _ (steady_createPartionConsumers _ _) Hcons)
        as Hsc.
      assert (steady w wc) as Hs by (etransitivity; eassumption).
      destruct r as [err'|pConsumers]; [by injection H as _ <-|].
      apply register_entry_full in H as (m & _ & Hr & _); [done|].
      unfold registry. destruct Hs as (-> & _). exact Hreg.
    + destruct (consumerType (sc w) =? GroupCustomer)%Z;
        [|intros [= _ <-]; reflexivity].
      intros H. apply bind_inv in H as (r & wb & Hsetup & H).
      destruct r as [err|c]; [|done]. injection H as _ <-.
      unfold setupGroupConsumerChannel in Hsetup.
      apply bind_inv in Hsetup as (r & wc & Hcons & H).
      pose proof (preserves_Done _ _ _ _ _ (steady_createGroupConsumer _ _ _) Hcons) as Hs.
      destruct r as [err'|pConsumer]; [by injection H as _ <-|].
      apply register_entry_full in H as (m & _ & Hr & _); [done|].
      unfold registry. destruct Hs as (-> & _). exact Hreg.
Qed.

(** X9: a [Subscribe] that returns an error has registered nothing and
    closed nothing: the registry map and every entry are as before, and what
    it added to the trace holds no [Close] and no channel close.  So the
    partition consumers it had obtained before a request was refused stay
    open and unreferenced; and no [Subscribe], failed or not, ever closes a
    handle or a channel. *)
Theorem Subscribe_error_registers_nothing (w w' : World) (topic : Topic) (e : error) :
  Subscribe topic w = Done (inl e) w' ->
  topicToConsumerChannelMap (sc w') = topicToConsumerChannelMap (sc w)
  /\ heap w' = heap w
  /\ (exists tail : list event,
         trace w' = trace w ++ tail /\ Forall (fun ev => ~ is_Close ev) tail)
  /\ emits (fun ev => ~ is_Close ev) (Subscribe topic).
Proof.
  intros Hrun.
  destruct (Subscribe_error_steady _ _ _ _ Hrun) as (H1 & H2 & _ & H3).
  split; [done|]. split; [done|]. split; [done|].
  unfold Subscribe, getConsumerChannel, addChannelToConsumerChannelMap, CreateTopic,
    setupPartitionConsumerChannel, setupGroupConsumerChannel, createPartionConsumers,
    createGroupConsumer, addTopicToConsumerChannelMap.
  preserves_body;
    first [apply emits_emit | apply emits_callBroker | apply emits_callPartitions
          | apply emits_consumePartitions; intros ?]; simpl; tauto.
Qed.

(** ** Subscribe and UnSubscribe, one after the other *)

Lemma index_of_app_last (chs : list chan_id) (n : chan_id) :
  n ∉ chs -> index_of n (chs ++ [n]) = Some (length chs).
Proof.
  induction chs as [|c rest IH]; intros Hnot; simpl.
  - by rewrite Nat.eqb_refl.
  - apply not_elem_of_cons in Hnot as [Hne Hrest].
    destruct (Nat.eqb_spec c n) as [->|_]; [done|]. by rewrite (IH Hrest).
Qed.

Lemma index_of_elem (chs : list chan_id) (ch : chan_id) :
  ch ∈ chs -> exists i, index_of ch chs = Some i.
Proof.
  induction chs as [|c rest IH]; intros Hin; [by apply elem_of_nil in Hin|]. simpl.
  destruct (Nat.eqb_spec c ch) as [->|Hne]; [by exists 0%nat|].
  apply elem_of_cons in Hin as [->|Hin]; [done|].
  destruct (IH Hin) as [i ->]. by exists (S i).
Qed.

Lemma swap_with_last_last (chs : list chan_id) (n : chan_id) :
  swap_with_last (chs ++ [n]) (length chs) = chs ++ [n].
Proof.
  unfold swap_with_last. rewrite length_app. simpl.
  replace (pred (length chs + 1)) with (length chs) by lia.
  rewrite list_lookup_middle by done.
  by rewrite !list_insert_id by (rewrite ?list_insert_id; by apply list_lookup_middle).
Qed.

(** [UnSubscribe] of a channel the entry holds, up to the test of what
    remains. *)
Lemma UnSubscribe_found (w : World) (topic : Topic) (l : loc) (cc : consumerChannels)
    (ch : chan_id) (i : nat) :
  registry (sc w) !! Name topic = Some l ->
  heap w !! l = Some cc ->
  index_of ch (channels cc) = Some i ->
  closed (trace w) ch = false ->
  let remaining := take (pred (length (channels cc))) (swap_with_last (channels cc) i) in
  UnSubscribe topic ch w
  = (if Nat.eqb (length remaining) 0
     then err <- closeConsumers (consumers cc) ;;
          _ <- delete_topic (Name topic) ;;
          ret err
     else ret None)
      {| sc := sc w;
         heap := <[l := {| consumers := consumers cc; channels := remaining |}]> (heap w);
         nextId := nextId w;
         trace := trace w ++ [EvCloseChan ch] |}.
Proof.
  intros Hreg Hheap Hidx Hopen remaining.
  unfold UnSubscribe, removeChannelFromConsumerChannelMap.
  unfold bind at 1, getClient at 1. rewrite Hreg.
  erewrite bind_Done; [|by apply removeChannel_found].
  unfold bind at 1, deref at 1; simpl. rewrite lookup_insert_eq; simpl.
  unfold bind at 1, store at 1; simpl. by rewrite insert_insert_eq.
Qed.

(** [UnSubscribe] of a channel the entry does not hold. *)
Lemma UnSubscribe_absent (w : World) (topic : Topic) (l : loc) (cc : consumerChannels)
    (ch : chan_id) :
  registry (sc w) !! Name topic = Some l ->
  heap w !! l = Some cc ->
  channels cc <> [] ->
  ch ∉ channels cc ->
  UnSubscribe topic ch w = Done None w.
Proof.
  intros Hreg Hheap Hne Hnot.
  unfold UnSubscribe, removeChannelFromConsumerChannelMap, removeChannel,
    bind, getClient, deref, store, ret; simpl.
  rewrite Hreg, Hheap, (index_of_None _ _ Hnot); simpl.
  rewrite Hheap; simpl.
  destruct (channels cc) as [|c rest] eqn:Hch; [done|]; simpl.
  rewrite <- Hch, consumerChannels_eta, insert_id by done.
  by rewrite World_eta.
Qed.

(** X10: on a topic that has subscribers, [Subscribe] followed by
    [UnSubscribe] of the channel it returned puts the entry back exactly as
    it was, order of the channels included; all that is left is one more
    identity used and the close of that channel in the trace. *)
Theorem Subscribe_UnSubscribe_restores
    (w : World) (topic : Topic) (l : loc) (cc : consumerChannels) :
  registry (sc w) !! Name topic = Some l ->
  heap w !! l = Some cc ->
  channels cc <> [] ->
  nextId w ∉ channels cc ->
  closed (trace w) (nextId w) = false ->
  exists w1 : World,
    Subscribe topic w = Done (inr (nextId w)) w1
    /\ UnSubscribe topic (nextId w) w1
       = Done None
           {| sc := sc w; heap := heap w; nextId := S (nextId w);
              trace := trace w ++ [EvCloseChan (nextId w)] |}.
Proof.
  intros Hreg Hheap Hne Hfresh Hopen.
  eexists. split; [by apply Subscribe_existing|].
  erewrite UnSubscribe_found; simpl;
    [|exact Hreg|apply lookup_insert_eq|by apply index_of_app_last|exact Hopen].
  cbn [channels consumers].
  rewrite swap_with_last_last, length_app. simpl.
  replace (pred (length (channels cc) + 1)) with (length (channels cc)) by lia.
  rewrite take_app_length.
  destruct (channels cc) as [|c rest] eqn:Hch; [done|]. simpl.
  unfold ret. rewrite insert_insert_eq, <- Hch, consumerChannels_eta.
  by rewrite insert_id.
Qed.

(** X11: a first [Subscribe] on a topic followed by [UnSubscribe] of the
    channel it returned leaves no entry behind: the channel is closed, every
    consumer the subscription had created is closed, and the registry is the
    one from before the subscription, so that the next [Subscribe] starts
    from scratch. *)
Theorem Subscribe_UnSubscribe_new_topic
    (w w1 : World) (topic : Topic) (ch : chan_id) :
  registry (sc w) !! Name topic = None ->
  Subscribe topic w = Done (inr ch) w1 ->
  closed (trace w1) ch = false ->
  exists (l : loc) (cs : list handle) (err : option error) (w2 : World),
    registry (sc w1) !! Name topic = Some l
    /\ heap w1 !! l = Some {| consumers := cs; channels := [ch] |}
    /\ UnSubscribe topic ch w1 = Done err w2
    /\ trace w2 = trace w1 ++ EvCloseChan ch :: close_events cs
    /\ registry (sc w2) = registry (sc w)
    /\ registry (sc w2) !! Name topic = None.
Proof.
  intros Hreg Hsub Hopen.
  destruct (Subscribe_new_topic _ _ _ _ Hreg Hsub) as (wa & cs & m & Hs & -> & Hm & ->).
  assert (registry (sc w) = m) as Hregm.
  { unfold registry. destruct Hs as (<- & _). by rewrite Hm. }
  exists (S (nextId wa)), cs. eexists _, _.
  split; [unfold registry; simpl; apply lookup_insert_eq|].
  split; [simpl; apply lookup_insert_eq|].
  split.
  - erewrite UnSubscribe_found; simpl;
      [|unfold registry; simpl; apply lookup_insert_eq|apply lookup_insert_eq
       |simpl; by rewrite Nat.eqb_refl|exact Hopen].
    unfold swap_with_last; simpl.
    unfold bind at 1. rewrite closeConsumers_spec.
    unfold delete_topic, bind, getClient, modifyClient, ret; simpl. reflexivity.
  - simpl. split; [by rewrite <- !app_assoc|].
    unfold registry; simpl.
    rewrite delete_insert_id by (by rewrite <- Hregm).
    split; [done|]. by rewrite <- Hregm.
Qed.

(** X12: [UnSubscribe] can be repeated: after it has removed a channel from
    an entry without duplicates, a second [UnSubscribe] of the same channel
    returns without closing anything and without changing the state; it
    returns nil when the entry is still there and the error
    "topic-does-not-exist" when the channel was the last one. *)
Theorem UnSubscribe_twice
    (w : World) (topic : Topic) (l : loc) (cc : consumerChannels) (ch : chan_id) :
  registry (sc w) !! Name topic = Some l ->
  heap w !! l = Some cc ->
  NoDup (channels cc) ->
  ch ∈ channels cc ->
  closed (trace w) ch = false ->
  exists (r1 r2 : option error) (w1 : World),
    UnSubscribe topic ch w = Done r1 w1
    /\ UnSubscribe topic ch w1 = Done r2 w1
    /\ r2 = (if Nat.eqb (length (channels cc)) 1
             then Some (errorString "topic-does-not-exist")
             else None).
Proof.
  intros Hreg Hheap Hnd Hin Hopen.
  destruct (index_of_elem _ _ Hin) as [i Hidx].
  destruct (swap_with_last_spec _ _ _ (index_of_Some _ _ _ Hidx)) as (Hsw & Hperm & Hlen).
  set (remaining := take (pred (length (channels cc))) (swap_with_last (channels cc) i)) in *.
  assert (NoDup (remaining ++ [ch])) as Hnd' by (by rewrite <- Hsw, Hperm).
  apply NoDup_app in Hnd' as (_ & Hdisj & _).
  assert (ch ∉ remaining) as Hnot.
  { intros Hrem. apply (Hdisj ch Hrem). by left. }
  assert (length (channels cc) = S (length remaining)) as Hl.
  { rewrite <- Hlen, Hsw, length_app. simpl. lia. }
  rewrite (UnSubscribe_found w topic l cc ch i Hreg Hheap Hidx Hopen). fold remaining.
  rewrite Hl. destruct remaining as [|c rest] eqn:Hrem; simpl.
  - unfold bind at 1. rewrite closeConsumers_spec.
    unfold delete_topic, bind, getClient, modifyClient, ret; simpl.
    eexists _, _, _. split; [reflexivity|]. split; [|reflexivity].
    unfold UnSubscribe, removeChannelFromConsumerChannelMap, bind, getClient.
    unfold registry; simpl. fold (registry (sc w)).
    replace (default ∅ (delete (Name topic) <$> topicToConsumerChannelMap (sc w)))
      with (delete (Name topic) (registry (sc w))).
    + by rewrite lookup_delete_eq.
    + unfold registry. destruct (topicToConsumerChannelMap (sc w)); simpl; [done|].
      by rewrite delete_empty.
  - eexists _, _, _. split; [reflexivity|]. split; [|reflexivity].
    apply (UnSubscribe_absent _ topic l {| consumers := consumers cc; channels := c :: rest |});
      [exact Hreg|apply lookup_insert_eq|done|exact Hnot].
Qed.

(** ** Deleting a topic *)

(** X13: what [DeleteTopic] does with the answer of the broker.  An error
    other than [ErrUnknownTopicOrPartition] is returned and the entry of the
    topic stays; when the broker deleted the topic and the client has no
    entry for it, nothing else happens; when the client has an entry with at
    most one channel, that channel is closed, then the consumers of the
    entry, the entry leaves the registry, and the result is the one of
    closing the consumers. *)
Theorem DeleteTopic_outcomes (w : World) (h : handle) (topic : Topic) :
  cAdmin (sc w) = Some h ->
  let ev := EvAdminDeleteTopic h (Name topic) in
  (forall e : error,
      broker_err (trace w) ev = Some e ->
      error_eqb e ErrUnknownTopicOrPartition = false ->
      DeleteTopic topic w = Done (Some e) (after w [ev]))
  /\ (broker_err (trace w) ev = None ->
      registry (sc w) !! Name topic = None ->
      DeleteTopic topic w = Done None (after w [ev]))
  /\ (forall (l : loc) (cc : consumerChannels),
         broker_err (trace w) ev = None ->
         registry (sc w) !! Name topic = Some l ->
         heap w !! l = Some cc ->
         (length (channels cc) <= 1)%nat ->
         (forall ch, ch ∈ channels cc -> closed (trace w) ch = false) ->
         DeleteTopic topic w
         = Done (fold_close_error None
                   (close_answers (trace w ++ ev :: map EvCloseChan (channels cc))
                      (consumers cc)))
             {| sc := set_topicToConsumerChannelMap
                        (delete (Name topic) <$> topicToConsumerChannelMap (sc w)) (sc w);
                heap := heap w;
                nextId := nextId w;
                trace := trace w ++ ev :: map EvCloseChan (channels cc)
                         ++ close_events (consumers cc) |}).
Proof.
  intros Hadmin ev. subst ev. split; [|split].
  - intros e Hans Hne.
    unfold DeleteTopic, bind, getClient, callBroker, ret.
    rewrite Hadmin. simpl. by rewrite Hans, Hne.
  - intros Hans Hreg.
    unfold DeleteTopic, clearTopicFromConsumerChannelMap, bind, getClient, callBroker, ret.
    rewrite Hadmin. simpl. rewrite Hans. simpl. by rewrite Hreg.
  - intros l cc Hans Hreg Hheap Hlen Hopen.
    unfold DeleteTopic. unfold bind at 1, getClient at 1. rewrite Hadmin.
    unfold bind at 1, callBroker at 1. rewrite Hans.
    unfold clearTopicFromConsumerChannelMap.
    unfold bind at 1, bind at 1, getClient at 1. simpl. rewrite Hreg.
    erewrite bind_Done;
      [|apply (clearChannels_at_most_one _ l cc); simpl; [done..|]].
    + unfold bind at 1, deref at 1. simpl. rewrite Hheap.
      unfold bind at 1. rewrite closeConsumers_spec.
      unfold delete_topic, bind, getClient, modifyClient, ret, after; simpl.
      rewrite <- !app_assoc. simpl.
      by destruct (fold_close_error _ _).
    + intros ch Hch. rewrite closed_app, (Hopen ch Hch). done.
Qed.

(** ** A handle that does not close *)

Lemma closeOrPanic_closeAll {A : Type} (h : option handle) (k : unit -> M A) (w : World) :
  bind (closeOrPanic h) k w = closeAll (option_list h) (k tt) w.
Proof.
  destruct h as [h|]; simpl; [|done].
  unfold bind, callBroker.
  by destruct (broker_err (trace w) (EvClose h)).
Qed.

Lemma closeAll_ext {A : Type} (hs : list handle) (k1 k2 : M A) :
  (forall w, k1 w = k2 w) -> forall w, closeAll hs k1 w = closeAll hs k2 w.
Proof.
  intros Hk. induction hs as [|h rest IH]; intros w; simpl; [apply Hk|].
  unfold bind, callBroker.
  destruct (broker_err (trace w) (EvClose h)); [done|]. apply IH.
Qed.

Lemma closeAll_app {A : Type} (hs1 hs2 : list handle) (k : M A) (w : World) :
  closeAll (hs1 ++ hs2) k w = closeAll hs1 (closeAll hs2 k) w.
Proof.
  revert w. induction hs1 as [|h rest IH]; intros w; simpl; [done|].
  unfold bind, callBroker.
  destruct (broker_err (trace w) (EvClose h)); [done|]. apply IH.
Qed.

(** The closes that are granted, then what follows. *)
Lemma closeAll_granted {A : Type} (hs : list handle) (k : M A) (w : World) :
  (forall tr h, h ∈ hs -> broker_err tr (EvClose h) = None) ->
  closeAll hs k w = k (after w (map EvClose hs)).
Proof.
  revert w. induction hs as [|h rest IH]; intros w Hans; simpl.
  - by rewrite after_nil.
  - unfold bind, callBroker. rewrite (Hans (trace w) h) by set_solver.
    rewrite IH by (intros tr h' Hh'; apply Hans; set_solver).
    f_equal. unfold after; simpl. by rewrite <- app_assoc.
Qed.

Lemma bind_ext {A B : Type} (m : M A) (k1 k2 : A -> M B) (w : World) :
  (forall a w', k1 a w' = k2 a w') -> bind m k1 w = bind m k2 w.
Proof. intros Hk. unfold bind. destruct (m w); [apply Hk|done..]. Qed.

(** [Stop] as the send on the done channel, the closes, and the clearing of
    the registry. *)
Lemma Stop_closeAll (w : World) :
  Stop w
  = (_ <- send_doneCh 1 ;;
     c <- getClient ;;
     closeAll (stop_handles c) (_ <- clearConsumerChannelMap ;; ret tt)) w.
Proof.
  unfold Stop. apply bind_ext. intros _ w1. apply bind_ext. intros c w2.
  unfold stop_handles.
  rewrite closeOrPanic_closeAll, closeAll_app. apply closeAll_ext. intros w3.
  rewrite closeOrPanic_closeAll, closeAll_app. apply closeAll_ext. intros w4.
  rewrite closeOrPanic_closeAll, closeAll_app. apply closeAll_ext. intros w5.
  rewrite closeOrPanic_closeAll. by rewrite app_nil_r || done.
Qed.

(** X14: [Stop] panics at the first handle whose [Close] fails.  By then the
    done signal is sent and the handles before that one are closed; the
    handles after it are not closed, and the registry, its channels and its
    consumers are left as they are. *)
Theorem Stop_panics_at_first_close_failure
    (w : World) (before later : list handle) (h : handle) (e : error) :
  doneCh (sc w) = Some [] ->
  stop_handles (sc w) = before ++ h :: later ->
  (forall tr h', h' ∈ before -> broker_err tr (EvClose h') = None) ->
  broker_err (trace w ++ map EvClose before) (EvClose h) = Some e ->
  Stop w
  = Panics (panic_error e)
      {| sc := set_doneCh (Some [1]) (sc w);
         heap := heap w;
         nextId := nextId w;
         trace := trace w ++ map EvClose before ++ [EvClose h] |}.
Proof.
  intros Hdone Hhs Hbefore Hans.
  rewrite Stop_closeAll.
  unfold bind at 1, send_doneCh at 1, bind at 1, getClient at 1.
  rewrite Hdone. unfold modifyClient at 1. unfold bind at 1, getClient at 1.
  cbn [sc].
  change (stop_handles (set_doneCh (Some [1]) (sc w))) with (stop_handles (sc w)).
  rewrite Hhs, closeAll_app, closeAll_granted by done.
  simpl. unfold bind at 1, callBroker at 1. simpl. rewrite Hans.
  unfold panic, after; simpl. by rewrite <- app_assoc.
Qed.

(** ** A client that was never started *)

Lemma client_option_not_started (option : SaramaClientOption) (c : SaramaClient) :
  client_option option -> not_started c -> not_started (option c).
Proof. intros Ho Hc. by destruct Ho. Qed.

Lemma fold_options_not_started (opts : list SaramaClientOption) (c : SaramaClient) :
  Forall client_option opts ->
  not_started c ->
  not_started (fold_left (fun client option => option client) opts c).
Proof.
  intros Hopts. revert c. induction Hopts as [|o rest Ho _ IH]; intros c Hc; simpl; [done|].
  apply IH. by apply client_option_not_started.
Qed.

Lemma NewSaramaClient_not_started (opts : list SaramaClientOption) :
  Forall client_option opts -> not_started (NewSaramaClient opts).
Proof.
  intros Hopts. unfold NewSaramaClient. apply fold_options_not_started; [done|].
  by repeat split.
Qed.

(** X15: a client built by [NewSaramaClient] from the options of the
    package and not started holds no handle and no registry, whatever the
    options.  On it [Stop] blocks for ever on the nil done channel,
    [UnSubscribe] returns "topic-does-not-exist", [CreateTopic] and
    [DeleteTopic] panic on the nil admin handle, and [Subscribe] never
    returns a channel. *)
Theorem never_started_client
    (opts : list SaramaClientOption) (w : World) (topic : Topic) :
  Forall client_option opts ->
  sc w = NewSaramaClient opts ->
  Stop w = Blocks w
  /\ (forall ch, UnSubscribe topic ch w
                 = Done (Some (errorString "topic-does-not-exist")) w)
  /\ (forall numPartition repFactor,
         CreateTopic topic numPartition repFactor w = Panics panic_nil_dereference w)
  /\ DeleteTopic topic w = Panics panic_nil_dereference w
  /\ (forall ch w', Subscribe topic w <> Done (inr ch) w').
Proof.
  intros Hopts Hsc.
  destruct (NewSaramaClient_not_started opts Hopts)
    as (Hadmin & Hprod & Hcons & Hgroup & Hdone & Hmap).
  rewrite <- Hsc in *.
  assert (registry (sc w) !! Name topic = None) as Hreg
    by (unfold registry; by rewrite Hmap).
  split; [|split; [|split; [|split]]].
  - unfold Stop, bind, send_doneCh, bind, getClient. by rewrite Hdone.
  - intros ch. unfold UnSubscribe, removeChannelFromConsumerChannelMap, bind, getClient.
    by rewrite Hreg.
  - intros n r. unfold CreateTopic, bind, getClient. by rewrite Hadmin.
  - unfold DeleteTopic, bind, getClient. by rewrite Hadmin.
  - intros ch w'. unfold Subscribe. unfold bind at 1. rewrite getConsumerChannel_eq, Hreg.
    unfold bind at 1, getClient at 1.
    destruct (Z.eqb (consumerType (sc w)) PartitionConsumer).
    + destruct (autoCreateTopic (sc w)).
      * unfold CreateTopic, bind, getClient. by rewrite Hadmin.
      * unfold setupPartitionConsumerChannel, createPartionConsumers, bind, ret, getClient.
        by rewrite Hcons.
    + destruct (Z.eqb (consumerType (sc w)) GroupCustomer); [|done].
      unfold setupGroupConsumerChannel, createGroupConsumer.
      unfold bind, getClient, callBroker, fresh, modifyClient, store,
        addTopicToConsumerChannelMap, ret; simpl.
      destruct (broker_err _ _); [done|]. simpl.
      unfold bind, getClient, registry; simpl. by rewrite Hmap.
Qed.

(** ** The registry stays in good order *)

Lemma entry_ok_steady (w w' : World) (cc : consumerChannels) :
  steady w w' -> entry_ok (nextId w) (trace w) cc -> entry_ok (nextId w') (trace w') cc.
Proof.
  intros Hs (Hne & Hnd & Hch). split; [done|]. split; [done|].
  intros ch Hin. destruct (Hch ch Hin) as [Hlt Hopen].
  rewrite (steady_closed _ _ _ Hs). destruct Hs as (_ & _ & Hn & _). split; [lia|done].
Qed.

Lemma registry_wf_steady (w w' : World) :
  steady w w' -> registry_wf w -> registry_wf w'.
Proof.
  intros Hs (H1 & H2 & H3 & H4).
  pose proof Hs as (Hmap & Hheap & Hn & _).
  assert (registry (sc w') = registry (sc w)) as Hreg by (unfold registry; by rewrite Hmap).
  unfold registry_wf. rewrite Hreg, Hheap. split; [|split; [|split]].
  - intros T l Hl. destruct (H1 T l Hl) as (Hlt & cc & Hcc & Hok).
    split; [lia|]. exists cc. split; [done|]. by apply (entry_ok_steady w).
  - exact H2.
  - exact H3.
  - intros ch Hc. rewrite (steady_closed _ _ _ Hs) in Hc. specialize (H4 ch Hc). lia.
Qed.

(** One more channel, the next identity, on an entry. *)
Lemma registry_wf_add_channel (w : World) (topic : Topic) (l : loc) (cc : consumerChannels) :
  registry_wf w ->
  registry (sc w) !! Name topic = Some l ->
  heap w !! l = Some cc ->
  registry_wf {| sc := sc w;
                 heap := <[l := {| consumers := consumers cc;
                                   channels := channels cc ++ [nextId w] |}]> (heap w);
                 nextId := S (nextId w);
                 trace := trace w |}.
Proof.
  intros (H1 & H2 & H3 & H4) Hreg Hheap.
  assert (forall ch cc0 T0 l0, registry (sc w) !! T0 = Some l0 -> heap w !! l0 = Some cc0 ->
            ch ∈ channels cc0 -> (ch < nextId w)%nat /\ closed (trace w) ch = false) as Hold.
  { intros ch cc0 T0 l0 Hl0 Hcc0 Hin. destruct (H1 T0 l0 Hl0) as (_ & cc1 & Hcc1 & _ & _ & Hch).
    rewrite Hcc0 in Hcc1. injection Hcc1 as <-. by apply Hch. }
  assert (closed (trace w) (nextId w) = false) as Hfresh.
  { destruct (closed (trace w) (nextId w)) eqn:Hc; [|done]. specialize (H4 _ Hc). lia. }
  unfold registry_wf; simpl. split; [|split; [|split]].
  - intros T l0 Hl0. destruct (H1 T l0 Hl0) as (Hlt & cc0 & Hcc0 & Hne & Hnd & Hch).
    split; [lia|]. destruct (decide (l0 = l)) as [->|Hl].
    + rewrite lookup_insert_eq. eexists. split; [done|].
      rewrite Hheap in Hcc0. injection Hcc0 as <-.
      split; [simpl; by destruct (channels cc)|]. simpl. split.
      * apply NoDup_app. split; [done|]. split; [|apply NoDup_singleton].
        intros ch Hin Hin'. apply list_elem_of_singleton in Hin'. subst ch.
        destruct (Hch _ Hin). lia.
      * intros ch Hin. apply elem_of_app in Hin as [Hin|Hin].
        -- destruct (Hch _ Hin). split; [lia|done].
        -- apply list_elem_of_singleton in Hin. subst ch. split; [lia|done].
    + rewrite lookup_insert_ne by done. exists cc0. split; [done|].
      split; [done|]. split; [done|]. intros ch Hin. destruct (Hch _ Hin). split; [lia|done].
  - exact H2.
  - intros T T' l1 l2 cc1 cc2 ch Hl1 Hl2 Hcc1 Hcc2 Hin1 Hin2.
    destruct (decide (l1 = l)) as [->|Hne1]; destruct (decide (l2 = l)) as [->|Hne2].
    + by apply (H2 T T' l).
    + rewrite lookup_insert_eq in Hcc1. injection Hcc1 as <-. simpl in Hin1.
      rewrite lookup_insert_ne in Hcc2 by done.
      apply elem_of_app in Hin1 as [Hin1|Hin1].
      * by apply (H3 T T' l l2 cc cc2 ch).
      * apply list_elem_of_singleton in Hin1. subst ch.
        destruct (Hold _ _ _ _ Hl2 Hcc2 Hin2). lia.
    + rewrite lookup_insert_eq in Hcc2. injection Hcc2 as <-. simpl in Hin2.
      rewrite lookup_insert_ne in Hcc1 by done.
      apply elem_of_app in Hin2 as [Hin2|Hin2].
      * by apply (H3 T T' l1 l cc1 cc ch).
      * apply list_elem_of_singleton in Hin2. subst ch.
        destruct (Hold _ _ _ _ Hl1 Hcc1 Hin1). lia.
    + rewrite lookup_insert_ne in Hcc1, Hcc2 by done.
      by apply (H3 T T' l1 l2 cc1 cc2 ch).
  - intros ch Hc. specialize (H4 ch Hc). lia.
Qed.

(** A new entry for a topic that has none, with the next two identities. *)
Lemma registry_wf_register (w : World) (topic : Topic) (cs : list handle)
    (m : gmap string loc) :
  registry_wf w ->
  topicToConsumerChannelMap (sc w) = Some m ->
  registry (sc w) !! Name topic = None ->
  registry_wf
    {| sc := set_topicToConsumerChannelMap (Some (<[Name topic := S (nextId w)]> m)) (sc w);
       heap := <[S (nextId w) := {| consumers := cs; channels := [nextId w] |}]> (heap w);
       nextId := S (S (nextId w));
       trace := trace w ++ [EvGo (task_startConsumers topic)] |}.
Proof.
  intros (H1 & H2 & H3 & H4) Hm Hnone.
  assert (registry (sc w) = m) as Hreg by (unfold registry; by rewrite Hm).
  rewrite Hreg in *.
  assert (forall ch, closed (trace w ++ [EvGo (task_startConsumers topic)]) ch
                     = closed (trace w) ch) as Hclosed.
  { intros ch. rewrite closed_app. simpl. by rewrite !orb_false_r. }
  assert (closed (trace w) (nextId w) = false) as Hfresh.
  { destruct (closed (trace w) (nextId w)) eqn:Hc; [|done]. specialize (H4 _ Hc). lia. }
  assert (forall ch cc0 T0 l0, m !! T0 = Some l0 -> heap w !! l0 = Some cc0 ->
            ch ∈ channels cc0 -> (ch < nextId w)%nat) as Hold.
  { intros ch cc0 T0 l0 Hl0 Hcc0 Hin. destruct (H1 T0 l0 Hl0) as (_ & cc1 & Hcc1 & _ & _ & Hch).
    rewrite Hcc0 in Hcc1. injection Hcc1 as <-. by apply Hch. }
  assert (forall T0 l0, m !! T0 = Some l0 -> l0 <> S (nextId w)) as Hloc.
  { intros T0 l0 Hl0. destruct (H1 T0 l0 Hl0). lia. }
  unfold registry_wf, registry; simpl. split; [|split; [|split]].
  - intros T l0 Hl0. destruct (decide (T = Name topic)) as [->|HT].
    + rewrite lookup_insert_eq in Hl0. injection Hl0 as <-. split; [lia|].
      rewrite lookup_insert_eq. eexists. split; [done|]. simpl.
      split; [done|]. split; [apply NoDup_singleton|].
      intros ch Hin. apply list_elem_of_singleton in Hin. subst ch.
      rewrite Hclosed. split; [lia|done].
    + rewrite lookup_insert_ne in Hl0 by done.
      destruct (H1 T l0 Hl0) as (Hlt & cc0 & Hcc0 & Hne & Hnd & Hch).
      split; [lia|]. rewrite lookup_insert_ne by lia. exists cc0. split; [done|].
      split; [done|]. split; [done|]. intros ch Hin. destruct (Hch _ Hin).
      rewrite Hclosed. split; [lia|done].
  - intros T T' l0 Hl Hl'.
    destruct (decide (T = Name topic)) as [->|HT];
      destruct (decide (T' = Name topic)) as [->|HT']; [done|..].
    + rewrite lookup_insert_eq in Hl. injection Hl as <-.
      rewrite lookup_insert_ne in Hl' by done. by destruct (Hloc _ _ Hl').
    + rewrite lookup_insert_eq in Hl'. injection Hl' as <-.
      rewrite lookup_insert_ne in Hl by done. by destruct (Hloc _ _ Hl).
    + rewrite lookup_insert_ne in Hl, Hl' by done. by apply (H2 T T' l0).
  - intros T T' l1 l2 cc1 cc2 ch Hl1 Hl2 Hcc1 Hcc2 Hin1 Hin2.
    destruct (decide (T = Name topic)) as [->|HT];
      destruct (decide (T' = Name topic)) as [->|HT']; [done|..].
    + rewrite lookup_insert_eq in Hl1. injection Hl1 as <-.
      rewrite lookup_insert_eq in Hcc1. injection Hcc1 as <-. simpl in Hin1.
      apply list_elem_of_singleton in Hin1. subst ch.
      rewrite lookup_insert_ne in Hl2 by done.
      rewrite lookup_insert_ne in Hcc2 by (intros <-; by apply (Hloc _ _ Hl2)).
      pose proof (Hold _ _ _ _ Hl2 Hcc2 Hin2). lia.
    + rewrite lookup_insert_eq in Hl2. injection Hl2 as <-.
      rewrite lookup_insert_eq in Hcc2. injection Hcc2 as <-. simpl in Hin2.
      apply list_elem_of_singleton in Hin2. subst ch.
      rewrite lookup_insert_ne in Hl1 by done.
      rewrite lookup_insert_ne in Hcc1 by (intros <-; by apply (Hloc _ _ Hl1)).
      pose proof (Hold _ _ _ _ Hl1 Hcc1 Hin1). lia.
    + rewrite lookup_insert_ne in Hl1, Hl2 by done.
      rewrite lookup_insert_ne in Hcc1 by (intros <-; by apply (Hloc _ _ Hl1)).
      rewrite lookup_insert_ne in Hcc2 by (intros <-; by apply (Hloc _ _ Hl2)).
      by apply (H3 T T' l1 l2 cc1 cc2 ch).
  - intros ch Hc. rewrite Hclosed in Hc. specialize (H4 ch Hc). lia.
Qed.

#[local] Instance handles_kept_refl : Reflexive handles_kept.
Proof. by intros w. Qed.

#[local] Instance handles_kept_trans : Transitive handles_kept.
Proof. intros w1 w2 w3 [H1 H2] [H3 H4]. split; congruence. Qed.

Lemma kept_fresh : preserves handles_kept fresh.
Proof. by intros w. Qed.

Lemma kept_emit ev : preserves handles_kept (emit ev).
Proof. by intros w. Qed.

Lemma kept_store l cc : preserves handles_kept (store l cc).
Proof. by intros w. Qed.

Lemma kept_callBroker ev : preserves handles_kept (callBroker ev).
Proof. by intros w. Qed.

Lemma kept_callPartitions h topic : preserves handles_kept (callPartitions h topic).
Proof. apply preserves_callPartitions. by intros w. Qed.

Lemma kept_modifyClient f :
  (forall c, cAdmin (f c) = cAdmin c /\ consumer (f c) = consumer c) ->
  preserves handles_kept (modifyClient f).
Proof. intros H w. apply H. Qed.

#[local] Hint Resolve kept_fresh kept_emit kept_store kept_callBroker kept_callPartitions
  : preserves.
#[local] Hint Extern 1 (preserves handles_kept (modifyClient _)) =>
  apply kept_modifyClient; intros ?; by split : preserves.

Lemma kept_consumePartitions h topic initialOffset partitionList acc :
  preserves handles_kept (consumePartitions h topic initialOffset partitionList acc).
Proof.
  revert acc. induction partitionList as [|partition rest IH]; intros acc; simpl;
    preserves_body.
Qed.

Lemma kept_CreateTopic topic numPartition repFactor :
  preserves handles_kept (CreateTopic topic numPartition repFactor).
Proof. unfold CreateTopic. preserves_body. Qed.

Lemma kept_Subscribe topic : preserves handles_kept (Subscribe topic).
Proof.
  unfold Subscribe, getConsumerChannel, addChannelToConsumerChannelMap, CreateTopic,
    setupPartitionConsumerChannel, setupGroupConsumerChannel, createPartionConsumers,
    createGroupConsumer, addTopicToConsumerChannelMap.
  preserves_body; apply kept_consumePartitions.
Qed.

(** *** Calls that return *)

Lemma CreateTopic_returns (w : World) topic numPartition repFactor :
  cAdmin (sc w) <> None -> returns (CreateTopic topic numPartition repFactor) w.
Proof.
  intros Hadmin. unfold returns, CreateTopic, bind, getClient, callBroker, ret.
  destruct (cAdmin (sc w)) as [h|]; [|done].
  destruct (broker_err _ _) as [e|]; [|by eexists _, _].
  destruct (error_eqb e ErrTopicAlreadyExists); by eexists _, _.
Qed.

Lemma consumePartitions_returns h topic initialOffset partitionList :
  forall acc w, returns (consumePartitions h topic initialOffset partitionList acc) w.
Proof.
  induction partitionList as [|partition rest IH]; intros acc w; simpl.
  - by eexists _, _.
  - unfold returns, bind at 1, callBroker at 1.
    destruct (broker_err _ _); [by eexists _, _|].
    unfold bind, fresh. apply IH.
Qed.

Lemma createPartionConsumers_returns (w : World) topic initialOffset :
  consumer (sc w) <> None -> returns (createPartionConsumers topic initialOffset) w.
Proof.
  intros Hcons. unfold returns, createPartionConsumers, bind, getClient, callPartitions.
  destruct (consumer (sc w)) as [h|]; [|done].
  destruct (broker_err _ _); [by eexists _, _|]. apply consumePartitions_returns.
Qed.

Lemma createGroupConsumer_returns (w : World) topic groupId retries :
  returns (createGroupConsumer topic groupId retries) w.
Proof.
  unfold returns, createGroupConsumer, bind, getClient, callBroker, fresh, modifyClient, ret.
  destruct (broker_err _ _); by eexists _, _.
Qed.

Lemma register_entry_returns (w : World) (topic : Topic) (cs : list handle) :
  topicToConsumerChannelMap (sc w) <> None ->
  returns (consumerListeningChannel <- fresh ;;
           cc <- fresh ;;
           _ <- store cc {| consumers := cs; channels := [consumerListeningChannel] |} ;;
           _ <- addTopicToConsumerChannelMap (Name topic) cc ;;
           _ <- emit (EvGo (task_startConsumers topic)) ;;
           ret (inr consumerListeningChannel : error + chan_id)) w.
Proof.
  intros Hmap.
  unfold returns, addTopicToConsumerChannelMap, bind, fresh, store, getClient, emit, ret,
    modifyClient; simpl.
  destruct (registry (sc w) !! Name topic); [by eexists _, _|].
  destruct (topicToConsumerChannelMap (sc w)); [|done]. by eexists _, _.
Qed.

Lemma returns_bind {A B : Type} (m : M A) (k : A -> M B) (w w1 : World) (a : A) :
  m w = Done a w1 -> returns (k a) w1 -> returns (bind m k) w.
Proof. intros Hm Hk. unfold returns. by rewrite (bind_Done _ _ _ _ _ Hm). Qed.

(** [Subscribe] on a started client with a registry in good order returns. *)
Lemma Subscribe_returns (w : World) (topic : Topic) :
  started (sc w) -> registry_wf w -> returns (Subscribe topic) w.
Proof.
  intros (Hadmin & Hcons & Hmap) (H1 & _).
  destruct (registry (sc w) !! Name topic) as [l|] eqn:Hreg.
  - destruct (H1 _ _ Hreg) as (_ & cc & Hcc & _). eexists _, _. by apply Subscribe_existing.
  - unfold Subscribe. eapply returns_bind; [apply getConsumerChannel_eq|]. rewrite Hreg.
    eapply returns_bind; [reflexivity|].
    destruct (consumerType (sc w) =? PartitionConsumer)%Z.
    + assert (exists r wa,
                 (if autoCreateTopic (sc w)
                  then CreateTopic topic (numPartitions (sc w)) (numReplicas (sc w))
                  else ret None) w = Done r wa
                 /\ steady w wa /\ handles_kept w wa) as (r & wa & Hc & Hs & Hk).
      { destruct (autoCreateTopic (sc w)).
        - destruct (CreateTopic_returns w topic (numPartitions (sc w)) (numReplicas (sc w))
                      Hadmin) as (r & wa & Hc).
          exists r, wa. split; [done|].
          split; eapply preserves_Done;
            [apply steady_CreateTopic|exact Hc|apply kept_CreateTopic|exact Hc].
        - exists None, w. split; [done|]. split; reflexivity. }
      eapply returns_bind; [exact Hc|]. destruct r as [err|]; [by eexists _, _|].
      assert (returns (setupPartitionConsumerChannel topic OffsetNewest) wa)
        as (r & wb & Hsetup).
      { unfold setupPartitionConsumerChannel.
        destruct (createPartionConsumers_returns wa topic OffsetNewest) as (r & wc & Hc2).
        { destruct Hk as [_ ->]. exact Hcons. }
        eapply returns_bind; [exact Hc2|].
        destruct r as [err|pConsumers]; [by eexists _, _|].
        apply register_entry_returns.
        pose proof (preserves_Done _ _ _ _ _ (steady_createPartionConsumers _ _) Hc2)
          as (-> & _).
        destruct Hs as (-> & _). exact Hmap. }
      eapply returns_bind; [exact Hsetup|]. destruct r; by eexists _, _.
    + destruct (consumerType (sc w) =? GroupCustomer)%Z; [|by eexists _, _].
      assert (returns (setupGroupConsumerChannel topic "mytest") w) as (r & wb & Hsetup).
      { unfold setupGroupConsumerChannel.
        destruct (createGroupConsumer_returns w topic (Some "mytest") DefaultMaxRetries)
          as (r & wc & Hc2).
        eapply returns_bind; [exact Hc2|].
        destruct r as [err|pConsumer]; [by eexists _, _|].
        apply register_entry_returns.
        pose proof (preserves_Done _ _ _ _ _ (steady_createGroupConsumer _ _ _) Hc2)
          as (-> & _).
        exact Hmap. }
      eapply returns_bind; [exact Hsetup|]. destruct r; by eexists _, _.
Qed.

(** [Subscribe] keeps a started client started and its registry in good
    order. *)
Lemma Subscribe_wf (w w' : World) (topic : Topic) (r : error + chan_id) :
  started (sc w) -> registry_wf w ->
  Subscribe topic w = Done r w' ->
  started (sc w') /\ registry_wf w'.
Proof.
  intros (Hadmin & Hcons & Hmap) Hwf Hrun.
  pose proof (preserves_Done _ _ _ _ _ (kept_Subscribe topic) Hrun) as [Ha Hc].
  destruct r as [e|ch].
  - pose proof (Subscribe_error_steady _ _ _ _ Hrun) as Hs.
    split; [|by apply (registry_wf_steady w)].
    destruct Hs as (Hm & _). unfold started. by rewrite Ha, Hc, Hm.
  - destruct (registry (sc w) !! Name topic) as [l|] eqn:Hreg.
    + pose proof Hwf as (H1 & _). destruct (H1 _ _ Hreg) as (_ & cc & Hcc & _).
      rewrite (Subscribe_existing w topic l cc Hreg Hcc) in Hrun. injection Hrun as _ <-.
      split; [done|]. by apply (registry_wf_add_channel w topic).
    + destruct (Subscribe_new_topic _ _ _ _ Hreg Hrun) as (wa & cs & m & Hs & -> & Hm & ->).
      split.
      * unfold started in *. simpl in *. by rewrite Ha, Hc.
      * apply (registry_wf_register wa topic cs m); [by apply (registry_wf_steady w)|done|].
        unfold registry. destruct Hs as (-> & _). exact Hreg.
Qed.

(** X16: the channel a [Subscribe] returns is a new identity, different
    from every identity handed out before the call, and after the call the
    entry of the topic holds it. *)
Theorem Subscribe_registers_new_channel
    (w w' : World) (topic : Topic) (ch : chan_id) :
  Subscribe topic w = Done (inr ch) w' ->
  (nextId w <= ch < nextId w')%nat
  /\ exists (l : loc) (cc : consumerChannels),
       registry (sc w') !! Name topic = Some l
       /\ heap w' !! l = Some cc
       /\ ch ∈ channels cc.
Proof.
  intros Hrun.
  destruct (registry (sc w) !! Name topic) as [l|] eqn:Hreg.
  - destruct (heap w !! l) as [cc|] eqn:Hcc.
    + rewrite (Subscribe_existing w topic l cc Hreg Hcc) in Hrun. injection Hrun as <- <-.
      simpl. split; [lia|]. exists l. eexists. split; [done|].
      split; [apply lookup_insert_eq|]. simpl. set_solver.
    + exfalso. revert Hrun. unfold Subscribe. unfold bind at 1.
      rewrite getConsumerChannel_eq, Hreg.
      unfold addChannelToConsumerChannelMap, bind, fresh, getClient, deref, store, ret; simpl.
      rewrite Hreg; simpl. by rewrite Hcc.
  - destruct (Subscribe_new_topic _ _ _ _ Hreg Hrun) as (wa & cs & m & Hs & -> & Hm & ->).
    destruct Hs as (_ & _ & Hn & _). simpl. split; [lia|].
    exists (S (nextId wa)). eexists. unfold registry; simpl.
    split; [apply lookup_insert_eq|]. split; [apply lookup_insert_eq|]. simpl. set_solver.
Qed.

(** X17: on a started client whose registry is in good order [Subscribe]
    returns, with a channel or with an error, and leaves the client started
    and the registry in good order: every topic keeps an entry of its own
    with channels that are all different and open. *)
Theorem Subscribe_keeps_registry (w : World) (topic : Topic) :
  started (sc w) -> registry_wf w ->
  exists (r : error + chan_id) (w' : World),
    Subscribe topic w = Done r w' /\ started (sc w') /\ registry_wf w'.
Proof.
  intros Hst Hwf. destruct (Subscribe_returns w topic Hst Hwf) as (r & w' & Hrun).
  exists r, w'. split; [done|]. by apply (Subscribe_wf w w' topic r).
Qed.

(** The registry after a channel has left an entry, and the topic perhaps
    the registry. *)
Lemma registry_wf_removed (w : World) (c' : SaramaClient) (T : string) (l : loc)
    (cc : consumerChannels) (ch : chan_id) (remaining : list chan_id) (hs : list handle) :
  registry_wf w ->
  registry (sc w) !! T = Some l ->
  heap w !! l = Some cc ->
  remaining ++ [ch] ≡ₚ channels cc ->
  (forall T0 l0, registry c' !! T0 = Some l0 -> registry (sc w) !! T0 = Some l0) ->
  (registry c' !! T = None \/ remaining <> []) ->
  registry_wf
    {| sc := c';
       heap := <[l := {| consumers := consumers cc; channels := remaining |}]> (heap w);
       nextId := nextId w;
       trace := (trace w ++ [EvCloseChan ch]) ++ map EvClose hs |}.
Proof.
  intros (H1 & H2 & H3 & H4) Hreg Hheap Hperm Hsub Hlast.
  destruct (H1 _ _ Hreg) as (_ & cc1 & Hcc1 & _ & Hnd & Hch).
  rewrite Hheap in Hcc1. injection Hcc1 as <-.
  assert (NoDup (remaining ++ [ch])) as Hnd' by (by rewrite Hperm).
  apply NoDup_app in Hnd' as (Hndr & Hdisj & _).
  assert (ch ∉ remaining) as Hnot
    by (intros Hin; apply (Hdisj ch Hin); by apply list_elem_of_singleton).
  assert (forall x, x ∈ remaining -> x ∈ channels cc) as Hrem
    by (intros x Hx; rewrite <- Hperm; apply elem_of_app; by left).
  assert (ch ∈ channels cc) as Hin
    by (rewrite <- Hperm; apply elem_of_app; right; by apply list_elem_of_singleton).
  assert (forall x, closed ((trace w ++ [EvCloseChan ch]) ++ map EvClose hs) x
                    = closed (trace w) x || Nat.eqb ch x) as Hclosed.
  { intros x. rewrite closed_close_events, closed_app. simpl. by rewrite orb_false_r. }
  assert (forall l0 cc0 x,
             <[l := {| consumers := consumers cc; channels := remaining |}]> (heap w) !! l0
             = Some cc0 ->
             x ∈ channels cc0 ->
             exists cc0', heap w !! l0 = Some cc0' /\ x ∈ channels cc0') as Hback.
  { intros l0 cc0 x Hl0 Hx. destruct (decide (l0 = l)) as [->|Hne].
    - rewrite lookup_insert_eq in Hl0. injection Hl0 as <-. exists cc. split; [done|].
      by apply Hrem.
    - rewrite lookup_insert_ne in Hl0 by done. by exists cc0. }
  unfold registry_wf; simpl. split; [|split; [|split]].
  - intros T0 l0 Hl0'. pose proof (Hsub _ _ Hl0') as Hl0.
    destruct (H1 _ _ Hl0) as (Hlt & cc0 & Hcc0 & Hne0 & Hnd0 & Hch0).
    split; [done|]. destruct (decide (l0 = l)) as [->|Hne].
    + rewrite lookup_insert_eq. eexists. split; [done|].
      pose proof (H2 _ _ _ Hl0 Hreg) as ->.
      destruct Hlast as [Hgone|Hsome]; [by rewrite Hgone in Hl0'|].
      split; [done|]. split; [done|]. simpl. intros x Hx.
      destruct (Hch x (Hrem x Hx)) as [Hx1 Hx2]. split; [done|].
      rewrite Hclosed, Hx2. simpl. apply Nat.eqb_neq. intros <-. done.
    + rewrite lookup_insert_ne by done. exists cc0. split; [done|].
      split; [done|]. split; [done|]. intros x Hx.
      destruct (Hch0 x Hx) as [Hx1 Hx2]. split; [done|].
      rewrite Hclosed, Hx2. simpl. apply Nat.eqb_neq. intros <-.
      pose proof (H3 _ _ _ _ _ _ _ Hl0 Hreg Hcc0 Hheap Hx Hin) as ->.
      rewrite Hreg in Hl0. by injection Hl0 as <-.
  - intros T1 T2 l0 Hl1 Hl2. apply (H2 T1 T2 l0); by apply Hsub.
  - intros T1 T2 l1 l2 cc1 cc2 x Hl1 Hl2 Hcc1 Hcc2 Hx1 Hx2.
    destruct (Hback _ _ _ Hcc1 Hx1) as (cc1' & Hcc1' & Hx1').
    destruct (Hback _ _ _ Hcc2 Hx2) as (cc2' & Hcc2' & Hx2').
    apply (H3 T1 T2 l1 l2 cc1' cc2' x); auto.
  - intros x Hx. rewrite Hclosed in Hx. apply orb_true_iff in Hx as [Hx|Hx].
    + by apply H4.
    + apply Nat.eqb_eq in Hx. subst x. by apply Hch.
Qed.

(** The four ways [UnSubscribe] goes on a registry in good order. *)
Lemma UnSubscribe_cases (w : World) (topic : Topic) (ch : chan_id) :
  registry_wf w ->
  (registry (sc w) !! Name topic = None
   /\ UnSubscribe topic ch w = Done (Some (errorString "topic-does-not-exist")) w)
  \/ exists (l : loc) (cc : consumerChannels),
       registry (sc w) !! Name topic = Some l
       /\ heap w !! l = Some cc
       /\ (((ch ∉ channels cc) /\ UnSubscribe topic ch w = Done None w)
           \/ exists remaining : list chan_id,
                remaining ++ [ch] ≡ₚ channels cc
                /\ ((remaining <> []
                     /\ UnSubscribe topic ch w
                        = Done None
                            {| sc := sc w;
                               heap := <[l := {| consumers := consumers cc;
                                                 channels := remaining |}]> (heap w);
                               nextId := nextId w;
                               trace := trace w ++ [EvCloseChan ch] |})
                    \/ (remaining = []
                        /\ exists err : option error,
                             UnSubscribe topic ch w
                             = Done err
                                 {| sc := set_topicToConsumerChannelMap
                                            (delete (Name topic)
                                               <$> topicToConsumerChannelMap (sc w))
                                            (sc w);
                                    heap := <[l := {| consumers := consumers cc;
                                                      channels := remaining |}]> (heap w);
                                    nextId := nextId w;
                                    trace := (trace w ++ [EvCloseChan ch])
                                             ++ close_events (consumers cc) |}))).
Proof.
  intros (H1 & _).
  destruct (registry (sc w) !! Name topic) as [l|] eqn:Hreg.
  - right. destruct (H1 _ _ Hreg) as (_ & cc & Hcc & Hne & Hnd & Hch).
    exists l, cc. split; [done|]. split; [done|].
    destruct (decide (ch ∈ channels cc)) as [Hin|Hnot].
    + right. destruct (index_of_elem _ _ Hin) as [i Hidx].
      destruct (swap_with_last_spec _ _ _ (index_of_Some _ _ _ Hidx)) as (Hsw & Hperm & _).
      set (remaining := take (pred (length (channels cc))) (swap_with_last (channels cc) i))
        in *.
      exists remaining. split; [by rewrite <- Hsw|].
      rewrite (UnSubscribe_found w topic l cc ch i Hreg Hcc Hidx (proj2 (Hch ch Hin))).
      fold remaining. destruct remaining as [|c rest]; simpl.
      * right. split; [done|]. eexists.
        unfold bind at 1. rewrite closeConsumers_spec.
        unfold delete_topic, bind, getClient, modifyClient, ret, after; simpl. reflexivity.
      * left. by split.
    + left. split; [done|]. by apply (UnSubscribe_absent w topic l cc).
  - left. split; [done|].
    unfold UnSubscribe, removeChannelFromConsumerChannelMap, bind, getClient.
    by rewrite Hreg.
Qed.

(** [UnSubscribe] returns and keeps the registry in good order. *)
Lemma UnSubscribe_wf (w : World) (topic : Topic) (ch : chan_id) :
  registry_wf w ->
  exists (r : option error) (w' : World),
    UnSubscribe topic ch w = Done r w'
    /\ registry_wf w'
    /\ (started (sc w) -> started (sc w')).
Proof.
  intros Hwf.
  destruct (UnSubscribe_cases w topic ch Hwf)
    as [[Hreg ->]|(l & cc & Hreg & Hcc & [[Hnot ->]|(remaining & Hperm & [[Hne ->]|[-> [err ->]]])])].
  - by eexists _, _.
  - by eexists _, _.
  - eexists _, _. split; [done|]. split; [|done].
    rewrite <- (app_nil_r (trace w ++ [EvCloseChan ch])).
    by apply (registry_wf_removed w (sc w) (Name topic) l cc ch remaining []); auto.
  - eexists _, _. split; [done|]. split.
    + apply (registry_wf_removed w _ (Name topic) l cc ch []); auto.
      * intros T0 l0. rewrite registry_delete. intros Hl0.
        by apply lookup_delete_Some in Hl0 as [_ Hl0].
      * left. rewrite registry_delete. apply lookup_delete_eq.
    + intros (Ha & Hc & Hm). unfold started; simpl. split; [done|]. split; [done|].
      by destruct (topicToConsumerChannelMap (sc w)).
Qed.

(** X18: on a registry in good order [UnSubscribe] returns, whatever the
    topic and the channel: it never closes a closed channel.  The registry
    is in good order afterwards, the other topics and their entries are as
    before, and the entry of the topic, when there is one left, does not
    hold the channel. *)
Theorem UnSubscribe_keeps_registry (w : World) (topic : Topic) (ch : chan_id) :
  registry_wf w ->
  exists (r : option error) (w' : World),
    UnSubscribe topic ch w = Done r w'
    /\ registry_wf w'
    /\ (forall (T0 : string) (l0 : loc),
           T0 <> Name topic ->
           registry (sc w) !! T0 = Some l0 ->
           registry (sc w') !! T0 = Some l0 /\ heap w' !! l0 = heap w !! l0)
    /\ (forall (l : loc) (cc : consumerChannels),
           registry (sc w') !! Name topic = Some l ->
           heap w' !! l = Some cc ->
           ch ∉ channels cc).
Proof.
  intros Hwf.
  destruct (UnSubscribe_wf w topic ch Hwf) as (r & w' & Hrun & Hwf' & _).
  exists r, w'. split; [done|]. split; [done|].
  pose proof Hwf as (H1 & H2 & _).
  destruct (UnSubscribe_cases w topic ch Hwf)
    as [[Hreg Hrun']|(l & cc & Hreg & Hcc & [[Hnot Hrun']|(remaining & Hperm & [[Hne Hrun']|[-> [err Hrun']]])])];
    rewrite Hrun' in Hrun; injection Hrun as _ <-; simpl.
  - split; [done|]. intros l cc Hl. by rewrite Hreg in Hl.
  - split; [done|]. intros l0 cc0 Hl0 Hcc0.
    rewrite Hreg in Hl0. injection Hl0 as <-. rewrite Hcc in Hcc0. by injection Hcc0 as <-.
  - destruct (H1 _ _ Hreg) as (_ & cc1 & Hcc1 & _ & Hnd & _).
    rewrite Hcc in Hcc1. injection Hcc1 as <-.
    assert (NoDup (remaining ++ [ch])) as Hnd' by (by rewrite Hperm).
    apply NoDup_app in Hnd' as (_ & Hdisj & _). split.
    + intros T0 l0 HT0 Hl0. split; [done|].
      rewrite lookup_insert_ne; [done|]. intros <-. by apply HT0, (H2 _ _ _ Hl0 Hreg).
    + intros l0 cc0 Hl0 Hcc0. rewrite Hreg in Hl0. injection Hl0 as <-.
      rewrite lookup_insert_eq in Hcc0. injection Hcc0 as <-. simpl.
      intros Hin. apply (Hdisj ch Hin). by apply list_elem_of_singleton.
  - split.
    + intros T0 l0 HT0 Hl0. rewrite registry_delete. split.
      * by rewrite lookup_delete_ne.
      * rewrite lookup_insert_ne; [done|]. intros <-. by apply HT0, (H2 _ _ _ Hl0 Hreg).
    + intros l0 cc0 Hl0. rewrite registry_delete, lookup_delete_eq in Hl0. done.
Qed.

(** *** From Start on *)

(** An empty registry is in good order when the closed channels were handed
    out by the counter. *)
Lemma registry_wf_empty (w : World) :
  registry (sc w) = ∅ ->
  (forall ch, closed (trace w) ch = true -> (ch < nextId w)%nat) ->
  registry_wf w.
Proof.
  intros Hreg Hbound. unfold registry_wf. rewrite Hreg.
  split; [|split; [|split]]; done.
Qed.

(** A [Start] that returns nil. *)
Lemma Start_started (w0 w : World) :
  Start w0 = Done None w ->
  started (sc w)
  /\ topicToConsumerChannelMap (sc w) = Some ∅
  /\ (nextId w0 <= nextId w)%nat
  /\ forall ch, closed (trace w) ch = closed (trace w0) ch.
Proof.
  unfold Start, createClusterAdmin, createPublisher, createConsumer,
    bind, getClient, modifyClient, callBroker, fresh, ret; simpl.
  destruct (broker_err _ _); [done|]. simpl.
  destruct (broker_err _ _); [done|]. simpl.
  destruct (broker_err _ _); [done|]. simpl.
  intros [= <-]. simpl. split; [by repeat split|]. split; [done|]. split; [lia|].
  intros ch. rewrite !closed_app. simpl. by rewrite !orb_false_r.
Qed.

Lemma do_call_wf (w : World) (c : call) :
  started (sc w) -> registry_wf w ->
  exists w', do_call c w = Done tt w' /\ started (sc w') /\ registry_wf w'.
Proof.
  intros Hst Hwf. destruct c as [topic numPartition repFactor|topic|topic ch]; simpl.
  - destruct (CreateTopic_returns w topic numPartition repFactor (proj1 Hst))
      as (r & w' & Hrun).
    exists w'. rewrite (bind_Done _ _ _ _ _ Hrun). split; [done|].
    pose proof (preserves_Done _ _ _ _ _ (steady_CreateTopic _ _ _) Hrun) as Hs.
    pose proof (preserves_Done _ _ _ _ _ (kept_CreateTopic _ _ _) Hrun) as [Ha Hc].
    split; [|by apply (registry_wf_steady w)].
    destruct Hs as (Hm & _). destruct Hst as (? & ? & ?). unfold started.
    by rewrite Ha, Hc, Hm.
  - destruct (Subscribe_returns w topic Hst Hwf) as (r & w' & Hrun).
    exists w'. rewrite (bind_Done _ _ _ _ _ Hrun). split; [done|].
    by apply (Subscribe_wf w w' topic r).
  - destruct (UnSubscribe_wf w topic ch Hwf) as (r & w' & Hrun & Hwf' & Hst').
    exists w'. rewrite (bind_Done _ _ _ _ _ Hrun). split; [done|]. split; [by apply Hst'|done].
Qed.


(** ** A turn of a consumption loop *)

(** X20: a consumption loop of either kind ends on a nil message or on the
    done signal and on nothing else: an error of the consumer, a
    notification and a message that does not decode leave it running.  No
    turn touches the registry.  The partition loop hands a decoded message
    to the dispatch and does nothing more: it never marks an offset; a
    message that does not decode is dropped without a trace. *)
Theorem consumption_loops_turn
    (topic : Topic) (consumer : handle) (consumerChnls : loc) :
  (forall (sel : select_case) (w w' : World),
      consumeFromAPartition_turn topic consumer consumerChnls sel w = Done loop_break w'
      \/ consumeGroupMessages_turn topic consumer consumerChnls sel w = Done loop_break w' ->
      sel = case_Messages None \/ sel = case_doneCh)
  /\ (forall sel : select_case,
         preserves frame (consumeFromAPartition_turn topic consumer consumerChnls sel)
         /\ preserves frame (consumeGroupMessages_turn topic consumer consumerChnls sel))
  /\ (forall (msg : ConsumerMessage) (w : World),
         consumeFromAPartition_turn topic consumer consumerChnls (case_Messages (Some msg)) w
         = match Unmarshal (cm_Value msg) with
           | inr icm =>
               Done loop_continue (after w [EvGo (task_dispatchToConsumers consumerChnls icm)])
           | inl _ => Done loop_continue w
           end).
Proof.
  split; [|split].
  - intros sel w w' H.
    destruct sel as [e|[msg|]| |]; [exfalso| exfalso |by left|exfalso|by right];
      simpl in H; destruct H as [H|H]; try done;
      destruct (Unmarshal (cm_Value msg)); done.
  - intros sel. split.
    + unfold consumeFromAPartition_turn, recv_doneCh. preserves_body.
    + unfold consumeGroupMessages_turn, recv_doneCh. preserves_body.
  - intros msg w. simpl. by destruct (Unmarshal (cm_Value msg)).
Qed.

End Client.

Arguments broker_err {ProtoMessage InterContainerMessage Environment} _ _.
Arguments broker_partitions {ProtoMessage InterContainerMessage Environment} _ _ _.
Arguments KError_text {ProtoMessage InterContainerMessage Environment} _.
Arguments Marshal {ProtoMessage InterContainerMessage Environment} _.
Arguments Unmarshal {ProtoMessage InterContainerMessage Environment} _.
Arguments preserves {InterContainerMessage A} R m.
Arguments frame {InterContainerMessage} _ _.
Arguments steady {InterContainerMessage} _ _.
Arguments is_Close {InterContainerMessage} ev.
Arguments returns {InterContainerMessage A} m w.
Arguments entry_ok {InterContainerMessage} n tr cc.
Arguments registry_wf {InterContainerMessage} w.
Arguments do_calls {ProtoMessage InterContainerMessage consts env} calls _.
Arguments loop_of {InterContainerMessage} topic consumerCh consumer.
Arguments consume_events {InterContainerMessage} h topic initialOffset ps.
Arguments createPartionConsumers {ProtoMessage InterContainerMessage env} topic initialOffset _.
Arguments closeConsumers {ProtoMessage InterContainerMessage env} consumers _.
Arguments Done {InterContainerMessage A} a w.
Arguments Panics {InterContainerMessage A} p w.
Arguments Blocks {InterContainerMessage A} w.
Arguments Build_World {InterContainerMessage} sc heap nextId trace.
Arguments sc {InterContainerMessage} w.
Arguments heap {InterContainerMessage} w.
Arguments nextId {InterContainerMessage} w.
Arguments trace {InterContainerMessage} w.
Arguments EvNewClusterAdmin {InterContainerMessage} addrs.
Arguments EvNewAsyncProducer {InterContainerMessage} addrs.
Arguments EvNewConsumer {InterContainerMessage} addrs.
Arguments EvAdminCreateTopic {InterContainerMessage} h name numPartitions replicationFactor.
Arguments EvAdminDeleteTopic {InterContainerMessage} h name.
Arguments EvPartitions {InterContainerMessage} h topic.
Arguments EvConsumePartition {InterContainerMessage} h topic partition offset.
Arguments EvNewGroupConsumer {InterContainerMessage} addrs groupId topics.
Arguments EvClose {InterContainerMessage} h.
Arguments EvInput {InterContainerMessage} h msg.
Arguments EvMarkOffset {InterContainerMessage} h msg metadata.
Arguments EvCloseChan {InterContainerMessage} ch.
Arguments EvGo {InterContainerMessage} t.
Arguments task_startConsumers {InterContainerMessage} topic.
Arguments task_consumeFromAPartition {InterContainerMessage} topic consumer consumerChnls.
Arguments task_consumeGroupMessages {InterContainerMessage} topic consumer consumerChnls.
Arguments task_dispatchToConsumers {InterContainerMessage} consumerCh protoMessage.
Arguments task_send {InterContainerMessage} c protoMessage.
Arguments any_proto {ProtoMessage} m.
Arguments any_other {ProtoMessage} fmt_s.
Arguments newWorld {InterContainerMessage} client.
Arguments outcome_world {InterContainerMessage A} o.
Arguments after {InterContainerMessage} w evs.
Arguments closed {InterContainerMessage} tr ch.
Arguments registry_ok {InterContainerMessage} w.
Arguments clear_events {InterContainerMessage} h entries.
Arguments close_events {InterContainerMessage} cs.
Arguments close_answers {ProtoMessage InterContainerMessage env} tr cs.
Arguments fold_close_error {ProtoMessage InterContainerMessage env} err answers.
Arguments sends_to {InterContainerMessage} chs protoMessage.
Arguments is_AdminCreateTopic {InterContainerMessage} ev.
Arguments is_NewGroupConsumer {InterContainerMessage} ev.
Arguments Start {ProtoMessage InterContainerMessage env} _.
Arguments Stop {ProtoMessage InterContainerMessage env} _.
Arguments CreateTopic {ProtoMessage InterContainerMessage env} topic numPartition repFactor _.
Arguments DeleteTopic {ProtoMessage InterContainerMessage env} topic _.
Arguments Subscribe {ProtoMessage InterContainerMessage consts env} topic _.
Arguments Subscribe_times {ProtoMessage InterContainerMessage consts env} topic n _.
Arguments UnSubscribe {ProtoMessage InterContainerMessage env} topic ch _.
Arguments Send {ProtoMessage InterContainerMessage env} msg topic keys _.
Arguments startConsumers {InterContainerMessage} topic _.
Arguments dispatchToConsumers {InterContainerMessage} consumerCh protoMessage _.
Arguments consumeFromAPartition_turn {ProtoMessage InterContainerMessage env}
  topic consumer consumerChnls sel _.
Arguments consumeGroupMessages_turn {ProtoMessage InterContainerMessage env}
  topic consumer consumerChnls sel _.
Arguments clearTopicFromConsumerChannelMap {ProtoMessage InterContainerMessage env} topic _.
Arguments clearConsumerChannelMap {ProtoMessage InterContainerMessage env} _.

(** * The client at work on example brokers *)

(** Envelopes are strings here, and their encoding is the bytes of the
    string; an empty buffer does not decode. *)
Definition example_Marshal (m : string) : error + list byte :=
  inr (list_byte_of_string m).

Definition example_Unmarshal (b : list byte) : error + string :=
  match b with
  | [] => inl (errorString "proto: empty buffer")
  | _ => inr (string_of_list_byte b)
  end.

Definition example_KError_text (code : Z) : string :=
  if Z.eqb code 3
  then "kafka server: Request was for a topic or partition that does not exist on this broker."
  else if Z.eqb code 36
  then "kafka server: Topic with this name already exists."
  else "kafka server: error " +:+ pretty code.

(** Whether [name] is on the broker after the admin calls of [tr]. *)
Definition topic_exists (name : string) (tr : list (event string)) : bool :=
  fold_left (fun there ev =>
               match ev with
               | EvAdminCreateTopic _ n _ _ =>
                   if String.eqb n name && negb (String.eqb n "") then true else there
               | EvAdminDeleteTopic _ n => if String.eqb n name then false else there
               | _ => there
               end) tr false.

(** A broker with one partition per topic that knows which topics it has:
    creating a topic twice is [ErrTopicAlreadyExists], the empty name is
    invalid (code 17), deleting a topic it does not have is
    [ErrUnknownTopicOrPartition]; every other call succeeds. *)
Definition example_broker_err (tr : list (event string)) (ev : event string)
  : option error :=
  match ev with
  | EvAdminCreateTopic _ name _ _ =>
      if String.eqb name "" then Some (KError 17)
      else if topic_exists name tr then Some ErrTopicAlreadyExists
      else None
  | EvAdminDeleteTopic _ name =>
      if topic_exists name tr then None else Some ErrUnknownTopicOrPartition
  | _ => None
  end.

Definition example_env : Environment string string :=
  {| broker_err := example_broker_err;
     broker_partitions := fun _ _ _ => [0];
     KError_text := example_KError_text;
     Marshal := example_Marshal;
     Unmarshal := example_Unmarshal |}.

(** The same broker after the topics have vanished under the client: closing
    a partition consumer reports [ErrUnknownTopicOrPartition]. *)
Definition vanished_env : Environment string string :=
  {| broker_err := fun tr ev =>
       match ev with
       | EvClose (sarama_PartitionConsumer _) => Some ErrUnknownTopicOrPartition
       | _ => example_broker_err tr ev
       end;
     broker_partitions := fun _ _ _ => [0];
     KError_text := example_KError_text;
     Marshal := example_Marshal;
     Unmarshal := example_Unmarshal |}.

Definition example_consts : Constants :=
  {| PartitionConsumer := 1;
     GroupCustomer := 2;
     DefaultKafkaHost := "127.0.0.1";
     DefaultKafkaPort := 9092;
     DefaultGroupName := "rw_core";
     DefaultConsumerType := 1;
     DefaultProducerFlushFrequency := 5;
     DefaultProducerFlushMessages := 1;
     DefaultProducerFlushMaxmessages := 5;
     DefaultProducerRetryMax := 3;
     DefaultProducerRetryBackoff := 100;
     DefaultProducerReturnSuccess := false;
     DefaultProducerReturnErrors := true;
     DefaultConsumerMaxwait := 10;
     DefaultMaxProcessingTime := 100;
     DefaultNumberPartitions := 1;
     DefaultNumberReplicas := 1;
     DefaultAutoCreateTopic := false;
     DefaultMaxRetries := 3 |}.

Definition handle_eqb (a b : handle) : bool :=
  match a, b with
  | sarama_ClusterAdmin x, sarama_ClusterAdmin y
  | sarama_AsyncProducer x, sarama_AsyncProducer y
  | sarama_Consumer x, sarama_Consumer y
  | sarama_PartitionConsumer x, sarama_PartitionConsumer y
  | scc_Consumer x, scc_Consumer y => Nat.eqb x y
  | _, _ => false
  end.

(** How many times [Close] was called on [h] in [tr]. *)
Definition close_count {I : Type} (h : handle) (tr : list (event I)) : nat :=
  length (List.filter (fun ev => match ev with
                                 | EvClose h' => handle_eqb h h'
                                 | _ => false
                                 end) tr).

#[local] Existing Instance example_consts.
#[local] Existing Instance example_env.

Definition events_topic : Topic := {| Name := "events" |}.

(** A client of the partition strategy and one of the group strategy, both
    with topic auto-creation on. *)
Definition partition_client : SaramaClient :=
  NewSaramaClient [ConsumerType PartitionConsumer; AutoCreateTopic true].
Definition group_client : SaramaClient :=
  NewSaramaClient [ConsumerType GroupCustomer; AutoCreateTopic true].

(** The partition client started, then with one and with two subscribers of
    "events": admin 0, producer 1, consumer 2, partition consumer 3,
    channels 4 and 6, entry 5. *)
Definition w_started : World string := outcome_world (Start (newWorld partition_client)).
Definition w_one : World string := outcome_world (Subscribe events_topic w_started).
Definition w_two : World string := outcome_world (Subscribe events_topic w_one).

(** The group client started, and with one subscriber: group consumer 3,
    channel 4, entry 5. *)
Definition w_group_started : World string := outcome_world (Start (newWorld group_client)).
Definition w_group_one : World string := outcome_world (Subscribe events_topic w_group_started).

Definition entry_one : consumerChannels :=
  {| consumers := [sarama_PartitionConsumer 3]; channels := [4%nat] |}.
Definition entry_two : consumerChannels :=
  {| consumers := [sarama_PartitionConsumer 3]; channels := [4%nat; 6%nat] |}.

Definition example_message : ConsumerMessage :=
  {| cm_Topic := "events"; cm_Partition := 0; cm_Offset := 42;
     cm_Value := list_byte_of_string "hi" |}.
Definition broken_message : ConsumerMessage :=
  {| cm_Topic := "events"; cm_Partition := 0; cm_Offset := 43; cm_Value := [] |}.

(** The registered channel 4 is removed from an entry with two channels, then
    the last channel 6 is removed and the entry goes. *)
Definition w_one_left : World string := outcome_world (UnSubscribe events_topic 4%nat w_two).

(** The partition client with its consumption loop started, stopped, with
    the loop having taken the signal, and stopped again. *)
Definition w_running : World string := outcome_world (startConsumers events_topic w_one).
Definition w_stopped : World string := outcome_world (Stop w_running).
Definition w_signal_taken : World string :=
  outcome_world (consumeFromAPartition_turn events_topic (sarama_PartitionConsumer 3) 5%nat
                   case_doneCh w_stopped).
Definition w_stopped_twice : World string := outcome_world (Stop w_signal_taken).

(** A broker with no room for a producer, and one whose master consumer
    does not close. *)
Definition no_producer_env : Environment string string :=
  {| broker_err := fun tr ev =>
       match ev with
       | EvNewAsyncProducer _ => Some (errorString "kafka: client has run out of available brokers")
       | _ => example_broker_err tr ev
       end;
     broker_partitions := fun _ _ _ => [0];
     KError_text := example_KError_text;
     Marshal := example_Marshal;
     Unmarshal := example_Unmarshal |}.

Definition stuck_consumer_env : Environment string string :=
  {| broker_err := fun tr ev =>
       match ev with
       | EvClose (sarama_Consumer _) => Some (errorString "kafka: tried to use a client that was closed")
       | _ => example_broker_err tr ev
       end;
     broker_partitions := fun _ _ _ => [0];
     KError_text := example_KError_text;
     Marshal := example_Marshal;
     Unmarshal := example_Unmarshal |}.

(** A client with a consumer strategy the package does not know, started. *)
Definition odd_client : SaramaClient := NewSaramaClient [ConsumerType 7].
Definition w_odd_started : World string := outcome_world (Start (newWorld odd_client)).

(** The partition client before [Start]. *)
Definition w_new : World string := newWorld partition_client.

(** The topic without a name, which the broker refuses to create. *)
Definition unnamed_topic : Topic := {| Name := "" |}.
Definition w_refused : World string := outcome_world (Subscribe unnamed_topic w_started).

(** ** The theorems at work *)

(** Three subscriptions to "events" on the started partition client: the
    channels 4, 6 and 7, one entry, one partition consumer. *)
Lemma Subscribe_N_times_one_entry_witness :
  Subscribe events_topic w_started = Done (inr 4%nat) w_one
  /\ exists (l : loc) (cc1 : consumerChannels) (wN : World string),
       let chs := 4%nat :: seq (nextId w_one) 2 in
       Subscribe_times events_topic 3 w_started = Done (map inr chs) wN
       /\ NoDup chs
       /\ length chs = 3%nat
       /\ registry (sc w_one) !! "events" = Some l
       /\ heap w_one !! l = Some cc1
       /\ sc wN = sc w_one
       /\ heap wN = <[l := {| consumers := consumers cc1;
                              channels := channels cc1 ++ seq (nextId w_one) 2 |}]> (heap w_one)
       /\ trace wN = trace w_one.
Proof.
  split; [vm_compute; reflexivity|].
  apply (Subscribe_N_times_one_entry string string w_started w_one events_topic 2 4%nat).
  vm_compute; reflexivity.
Defined.

(** Channel 99 was never handed out: unsubscribing it from "events" changes
    nothing. *)
Lemma UnSubscribe_channel_not_found_witness :
  registry (sc w_one) !! "events" = Some 5%nat
  /\ heap w_one !! 5%nat = Some entry_one
  /\ (channels entry_one <> [])
  /\ (99%nat ∉ channels entry_one)
  /\ UnSubscribe events_topic 99%nat w_one = Done None w_one.
Proof.
  assert (registry (sc w_one) !! Name events_topic = Some 5%nat) as H1
    by (vm_compute; reflexivity).
  assert (heap w_one !! 5%nat = Some entry_one) as H2 by (vm_compute; reflexivity).
  assert (channels entry_one <> []) as H3 by (simpl; discriminate).
  assert (99%nat ∉ channels entry_one) as H4
    by (simpl; rewrite list_elem_of_singleton; lia).
  split; [exact H1|]. split; [exact H2|]. split; [exact H3|]. split; [exact H4|].
  exact (UnSubscribe_channel_not_found string string w_one events_topic 5%nat entry_one 99%nat
           H1 H2 H3 H4).
Defined.

(** "events" is on the broker since the first subscription, "alarms" never
    was. *)
Lemma CreateTopic_DeleteTopic_idempotent_witness :
  cAdmin (sc w_one) = Some (sarama_ClusterAdmin 0)
  /\ broker_err (trace w_one)
       (EvAdminCreateTopic (sarama_ClusterAdmin 0) "events" (int32 1) (int16 1))
     = Some ErrTopicAlreadyExists
  /\ CreateTopic events_topic 1 1 w_one
     = Done None
         (after w_one [EvAdminCreateTopic (sarama_ClusterAdmin 0) "events" (int32 1) (int16 1)])
  /\ broker_err (trace w_one) (EvAdminDeleteTopic (sarama_ClusterAdmin 0) "alarms")
     = Some ErrUnknownTopicOrPartition
  /\ DeleteTopic {| Name := "alarms" |} w_one
     = Done None (after w_one [EvAdminDeleteTopic (sarama_ClusterAdmin 0) "alarms"]).
Proof.
  assert (cAdmin (sc w_one) = Some (sarama_ClusterAdmin 0)) as Hadmin
    by (vm_compute; reflexivity).
  split; [exact Hadmin|].
  split; [vm_compute; reflexivity|].
  split.
  - apply (CreateTopic_DeleteTopic_idempotent string string w_one (sarama_ClusterAdmin 0)
             events_topic 1 1 Hadmin).
    vm_compute; reflexivity.
  - split; [vm_compute; reflexivity|].
    apply (CreateTopic_DeleteTopic_idempotent string string w_one (sarama_ClusterAdmin 0)
             {| Name := "alarms" |} 1 1 Hadmin).
    vm_compute; reflexivity.
Defined.

(** An integer is refused, the envelope "hello" goes out under the first
    key, or under the empty key. *)
Lemma Send_payload_and_key_witness :
  Send (any_other "%!s(int=5)") events_topic ["k1"; "k2"] w_one
    = Done (Some (errorString "not-a-proto-msg-%!s(int=5)")) w_one
  /\ Marshal "hello" = inr (list_byte_of_string "hello")
  /\ producer (sc w_one) = Some (sarama_AsyncProducer 1)
  /\ Send (any_proto "hello") events_topic ["k1"; "k2"] w_one
     = Done None
         (after w_one [EvInput (sarama_AsyncProducer 1)
                         {| pm_Topic := "events";
                            pm_Key := "k1";
                            pm_Value := list_byte_of_string "hello" |}])
  /\ Send (any_proto "hello") events_topic [] w_one
     = Done None
         (after w_one [EvInput (sarama_AsyncProducer 1)
                         {| pm_Topic := "events";
                            pm_Key := "";
                            pm_Value := list_byte_of_string "hello" |}]).
Proof.
  assert (Marshal "hello" = inr (list_byte_of_string "hello")) as Hm by reflexivity.
  assert (producer (sc w_one) = Some (sarama_AsyncProducer 1)) as Hp
    by (vm_compute; reflexivity).
  split.
  - apply (Send_payload_and_key string string w_one events_topic ["k1"; "k2"]).
  - split; [exact Hm|]. split; [exact Hp|]. split.
    + exact (proj2 (Send_payload_and_key string string w_one events_topic ["k1"; "k2"])
               "hello" _ _ Hm Hp).
    + exact (proj2 (Send_payload_and_key string string w_one events_topic [])
               "hello" _ _ Hm Hp).
Defined.

(** A message that decodes and one that does not, in the loop of the group
    client. *)
Lemma consumeGroupMessages_dispatch_then_mark_witness :
  Unmarshal (cm_Value example_message) = inr "hi"
  /\ consumeGroupMessages_turn events_topic (scc_Consumer 3) 5%nat
       (case_Messages (Some example_message)) w_group_one
     = Done loop_continue
         (after w_group_one [EvGo (task_dispatchToConsumers 5%nat "hi");
                             EvMarkOffset (scc_Consumer 3) example_message ""])
  /\ dispatchToConsumers 5%nat "hi" w_group_one
     = Done tt (after w_group_one [EvGo (task_send 4%nat "hi")])
  /\ Unmarshal (cm_Value broken_message) = inl (errorString "proto: empty buffer")
  /\ consumeGroupMessages_turn events_topic (scc_Consumer 3) 5%nat
       (case_Messages (Some broken_message)) w_group_one
     = Done loop_continue w_group_one.
Proof.
  assert (Unmarshal (cm_Value example_message) = inr "hi") as Hok by reflexivity.
  assert (Unmarshal (cm_Value broken_message) = inl (errorString "proto: empty buffer"))
    as Hbad by reflexivity.
  destruct (consumeGroupMessages_dispatch_then_mark string string w_group_one events_topic
              (scc_Consumer 3) 5%nat example_message) as [Hdec _].
  destruct (Hdec "hi" Hok) as [Hturn Hdispatch].
  split; [exact Hok|]. split; [exact Hturn|]. split.
  - apply (Hdispatch w_group_one
             {| consumers := [scc_Consumer 3]; channels := [4%nat] |}).
    vm_compute; reflexivity.
  - split; [exact Hbad|].
    exact (proj2 (consumeGroupMessages_dispatch_then_mark string string w_group_one
                    events_topic (scc_Consumer 3) 5%nat broken_message) _ Hbad).
Defined.

(** The first subscription of the group client. *)
Lemma Subscribe_group_id_mytest_witness :
  registry (sc w_group_started) !! "events" = None
  /\ consumerType (sc w_group_started) <> PartitionConsumer
  /\ consumerType (sc w_group_started) = GroupCustomer
  /\ exists tail : list (event string),
       trace (outcome_world (Subscribe events_topic w_group_started))
       = trace w_group_started
         ++ EvNewGroupConsumer [kafkaFullAddr (sc w_group_started)] "mytest" ["events"] :: tail
       /\ Forall (fun ev => ~ is_NewGroupConsumer ev) tail.
Proof.
  assert (registry (sc w_group_started) !! Name events_topic = None) as H1
    by (vm_compute; reflexivity).
  assert (consumerType (sc w_group_started) <> PartitionConsumer) as H2
    by (vm_compute; discriminate).
  assert (consumerType (sc w_group_started) = GroupCustomer) as H3
    by (vm_compute; reflexivity).
  split; [exact H1|]. split; [exact H2|]. split; [exact H3|].
  exact (Subscribe_group_id_mytest string string w_group_started events_topic H1 H2 H3).
Defined.

(** Channel 4 leaves the entry of two, channel 6 leaves last and the entry
    goes; "alarms" has no entry. *)
Lemma UnSubscribe_removes_channel_witness :
  registry (sc w_two) !! "events" = Some 5%nat
  /\ heap w_two !! 5%nat = Some entry_two
  /\ index_of 4%nat (channels entry_two) = Some 0%nat
  /\ closed (trace w_two) 4%nat = false
  /\ UnSubscribe events_topic 4%nat w_two
     = Done None
         {| sc := sc w_two;
            heap := <[5%nat := {| consumers := [sarama_PartitionConsumer 3];
                                  channels := [6%nat] |}]> (heap w_two);
            nextId := nextId w_two;
            trace := trace w_two ++ [EvCloseChan 4%nat] |}
  /\ (exists (err : option error) (w' : World string),
         UnSubscribe events_topic 6%nat w_one_left = Done err w'
         /\ trace w' = trace w_one_left
                       ++ [EvCloseChan 6%nat; EvClose (sarama_PartitionConsumer 3)]
         /\ registry (sc w') = delete "events" (registry (sc w_one_left))
         /\ heap w' = <[5%nat := {| consumers := [sarama_PartitionConsumer 3];
                                    channels := [] |}]> (heap w_one_left)
         /\ err = None)
  /\ UnSubscribe {| Name := "alarms" |} 4%nat w_two
     = Done (Some (errorString "topic-does-not-exist")) w_two.
Proof.
  assert (registry (sc w_two) !! Name events_topic = Some 5%nat) as H1
    by (vm_compute; reflexivity).
  assert (heap w_two !! 5%nat = Some entry_two) as H2 by (vm_compute; reflexivity).
  assert (index_of 4%nat (channels entry_two) = Some 0%nat) as H3 by reflexivity.
  assert (closed (trace w_two) 4%nat = false) as H4 by (vm_compute; reflexivity).
  split; [exact H1|]. split; [exact H2|]. split; [exact H3|]. split; [exact H4|].
  split; [|split].
  - destruct (proj1 (UnSubscribe_removes_channel string string w_two events_topic 4%nat)
                5%nat entry_two 0%nat H1 H2 H3 H4) as (_ & Hmore & _).
    apply Hmore. simpl. discriminate.
  - destruct (proj1 (UnSubscribe_removes_channel string string w_one_left events_topic 6%nat)
                5%nat {| consumers := [sarama_PartitionConsumer 3]; channels := [6%nat] |}
                0%nat) as (_ & _ & Hlast); try (vm_compute; reflexivity).
    destruct (Hlast eq_refl) as (err & w' & Hrun & Htr & Hreg & Hheap & _ & Hnil & _).
    exists err, w'. split; [exact Hrun|]. split; [exact Htr|]. split; [exact Hreg|].
    split; [exact Hheap|]. apply Hnil. repeat constructor.
  - apply (proj2 (UnSubscribe_removes_channel string string w_two {| Name := "alarms" |} 4%nat)).
    vm_compute; reflexivity.
Defined.

(** The claim C2 says every close error is propagated.  On the broker whose
    topics have vanished, the [Close] of the partition consumer fails with
    [ErrUnknownTopicOrPartition], and [UnSubscribe] of the last channel
    returns nil. *)
Lemma UnSubscribe_drops_unknown_topic_close_error :
  Start (env := vanished_env) (newWorld partition_client) = Done None w_started
  /\ Subscribe (env := vanished_env) events_topic w_started = Done (inr 4%nat) w_one
  /\ broker_err (Environment := vanished_env) (trace w_one ++ [EvCloseChan 4%nat])
       (EvClose (sarama_PartitionConsumer 3))
     = Some ErrUnknownTopicOrPartition
  /\ exists w' : World string,
       UnSubscribe (env := vanished_env) events_topic 4%nat w_one = Done None w'
       /\ trace w' = trace w_one ++ [EvCloseChan 4%nat; EvClose (sarama_PartitionConsumer 3)].
Proof.
  split; [vm_compute; reflexivity|].
  split; [vm_compute; reflexivity|].
  split; [vm_compute; reflexivity|].
  eexists. split; vm_compute; reflexivity.
Defined.

(** Two subscribers of "events": clearing the topic, clearing the registry,
    [Stop] and [DeleteTopic] all close channel 4 and panic on closing it
    again; channel 6 stays open. *)
Lemma clear_closes_a_channel_twice_witness :
  registry (sc w_two) !! "events" = Some 5%nat
  /\ heap w_two !! 5%nat = Some entry_two
  /\ NoDup (channels entry_two)
  /\ (2 <= length (channels entry_two))%nat
  /\ (forall ch, ch ∈ channels entry_two -> closed (trace w_two) ch = false)
  /\ registry (sc w_two) = {[ "events" := 5%nat ]}
  /\ doneCh (sc w_two) = Some []
  /\ (forall tr h, h ∈ stop_handles (sc w_two) -> broker_err tr (EvClose h) = None)
  /\ (exists w' : World string,
         clearTopicFromConsumerChannelMap events_topic w_two
           = Panics (panic_close_of_closed_channel 4%nat) w'
         /\ trace w' = trace w_two ++ [EvCloseChan 4%nat])
  /\ (exists w' : World string,
         clearConsumerChannelMap w_two = Panics (panic_close_of_closed_channel 4%nat) w'
         /\ trace w' = trace w_two ++ [EvCloseChan 4%nat])
  /\ (exists w' : World string,
         Stop w_two = Panics (panic_close_of_closed_channel 4%nat) w'
         /\ trace w' = trace w_two
                       ++ [EvClose (sarama_AsyncProducer 1); EvClose (sarama_Consumer 2);
                           EvClose (sarama_ClusterAdmin 0); EvCloseChan 4%nat])
  /\ (exists w' : World string,
         DeleteTopic events_topic w_two = Panics (panic_close_of_closed_channel 4%nat) w'
         /\ trace w' = trace w_two
                       ++ [EvAdminDeleteTopic (sarama_ClusterAdmin 0) "events";
                           EvCloseChan 4%nat]).
Proof.
  assert (registry (sc w_two) !! Name events_topic = Some 5%nat) as H1
    by (vm_compute; reflexivity).
  assert (heap w_two !! 5%nat = Some entry_two) as H2 by (vm_compute; reflexivity).
  assert (NoDup (channels entry_two)) as H3.
  { simpl. apply NoDup_cons. split; [rewrite list_elem_of_singleton; lia|].
    apply NoDup_singleton. }
  assert (2 <= length (channels entry_two))%nat as H4 by (simpl; lia).
  assert (forall ch, ch ∈ channels entry_two -> closed (trace w_two) ch = false) as H5.
  { intros ch Hin. simpl in Hin. apply elem_of_cons in Hin as [->|Hin];
      [vm_compute; reflexivity|].
    apply list_elem_of_singleton in Hin as ->. vm_compute; reflexivity. }
  assert (registry (sc w_two) = {[ "events" := 5%nat ]}) as H6 by (vm_compute; reflexivity).
  assert (doneCh (sc w_two) = Some []) as H7 by (vm_compute; reflexivity).
  assert (forall tr h, h ∈ stop_handles (sc w_two) -> broker_err tr (EvClose h) = None) as H8
    by (intros tr h _; reflexivity).
  split; [exact H1|]. split; [exact H2|]. split; [exact H3|]. split; [exact H4|].
  split; [exact H5|]. split; [exact H6|]. split; [exact H7|]. split; [exact H8|].
  destruct (clear_closes_a_channel_twice string string w_two events_topic 5%nat entry_two
              H1 H2 H3 H4 H5) as (c & Hc & Htopic & Hall).
  simpl in Hc. injection Hc as <-.
  destruct (Hall H6) as [Hclear Hstop].
  split; [exact Htopic|]. split; [exact Hclear|].
  destruct (Hstop H7 H8) as (w' & Hrun & Htr).
  split.
  - exists w'. split; [exact Hrun|]. rewrite Htr. vm_compute; reflexivity.
  - eexists. split; vm_compute; reflexivity.
Defined.

(** One subscriber of "events", then [Stop]. *)
Lemma Stop_closes_handles_each_time_witness :
  doneCh (sc w_one) = Some []
  /\ (forall tr h, h ∈ stop_handles (sc w_one) -> broker_err tr (EvClose h) = None)
  /\ registry_ok w_one = true
  /\ exists w' : World string,
       Stop w_one = Done tt w'
       /\ trace w' = trace w_one ++ map EvClose (stop_handles (sc w_one))
                     ++ clear_events (heap w_one) (map_to_list (registry (sc w_one)))
       /\ registry (sc w') = ∅
       /\ stop_handles (sc w') = stop_handles (sc w_one)
       /\ Stop w' = Blocks w'
       /\ forall (topic : Topic) (consumer : handle) (consumerChnls : loc),
            exists wd w'' : World string,
              consumeFromAPartition_turn topic consumer consumerChnls case_doneCh w'
                = Done loop_break wd
              /\ Stop wd = Done tt w''
              /\ trace w'' = trace w' ++ map EvClose (stop_handles (sc w_one))
              /\ registry (sc w'') = ∅.
Proof.
  assert (doneCh (sc w_one) = Some []) as H1 by (vm_compute; reflexivity).
  assert (forall tr h, h ∈ stop_handles (sc w_one) -> broker_err tr (EvClose h) = None) as H2
    by (intros tr h _; reflexivity).
  assert (registry_ok w_one = true) as H3 by (vm_compute; reflexivity).
  split; [exact H1|]. split; [exact H2|]. split; [exact H3|].
  exact (Stop_closes_handles_each_time string string w_one H1 H2 H3).
Defined.

(** The claim C4 says two calls of [Stop] close no handle twice.  After
    [Start] and one [Subscribe], the first [Stop] returns, the consumption
    loop takes the signal and ends, and the second [Stop] returns too: by
    then [Close] has been called twice on the producer, on the consumer and
    on the admin handle.  Under the group strategy one [Stop] alone calls
    [Close] twice on the group consumer, once as the handle of the client
    and once as the consumer of the entry. *)
Lemma Stop_twice_closes_handles_twice :
  (Start (newWorld partition_client) = Done None w_started
   /\ Subscribe events_topic w_started = Done (inr 4%nat) w_one
   /\ startConsumers events_topic w_one = Done None w_running
   /\ trace w_running
      = trace w_one
        ++ [EvGo (task_consumeFromAPartition events_topic (sarama_PartitionConsumer 3) 5%nat)]
   /\ Stop w_running = Done tt w_stopped
   /\ consumeFromAPartition_turn events_topic (sarama_PartitionConsumer 3) 5%nat
        case_doneCh w_stopped = Done loop_break w_signal_taken
   /\ Stop w_signal_taken = Done tt w_stopped_twice
   /\ close_count (sarama_AsyncProducer 1) (trace w_stopped_twice) = 2%nat
   /\ close_count (sarama_Consumer 2) (trace w_stopped_twice) = 2%nat
   /\ close_count (sarama_ClusterAdmin 0) (trace w_stopped_twice) = 2%nat)
  /\ (Start (newWorld group_client) = Done None w_group_started
      /\ Subscribe events_topic w_group_started = Done (inr 4%nat) w_group_one
      /\ groupConsumer (sc w_group_one) = Some (scc_Consumer 3)
      /\ exists w' : World string,
           Stop w_group_one = Done tt w'
           /\ close_count (scc_Consumer 3) (trace w') = 2%nat).
Proof.
  split.
  - do 9 (split; [vm_compute; reflexivity|]). vm_compute; reflexivity.
  - do 3 (split; [vm_compute; reflexivity|]).
    eexists. split; vm_compute; reflexivity.
Defined.

(** The partition client creates "events" before it asks for partitions; the
    empty topic name is refused by the broker and nothing is registered. *)
Lemma Subscribe_autoCreateTopic_partition_only_witness :
  registry (sc w_started) !! "events" = None
  /\ autoCreateTopic (sc w_started) = true
  /\ consumerType (sc w_started) = PartitionConsumer
  /\ cAdmin (sc w_started) = Some (sarama_ClusterAdmin 0)
  /\ (exists tail : list (event string),
         trace (outcome_world (Subscribe events_topic w_started))
         = trace w_started
           ++ EvAdminCreateTopic (sarama_ClusterAdmin 0) "events" (int32 1) (int16 1) :: tail
         /\ Forall (fun ev => ~ is_AdminCreateTopic ev) tail)
  /\ broker_err (trace w_started)
       (EvAdminCreateTopic (sarama_ClusterAdmin 0) "" (int32 1) (int16 1)) = Some (KError 17)
  /\ Subscribe {| Name := "" |} w_started
     = Done (inl (KError 17))
         (after w_started [EvAdminCreateTopic (sarama_ClusterAdmin 0) "" (int32 1) (int16 1)]).
Proof.
  assert (registry (sc w_started) !! Name events_topic = None) as H1
    by (vm_compute; reflexivity).
  assert (registry (sc w_started) !! Name {| Name := "" |} = None) as H1'
    by (vm_compute; reflexivity).
  assert (autoCreateTopic (sc w_started) = true) as H2 by (vm_compute; reflexivity).
  assert (consumerType (sc w_started) = PartitionConsumer) as H3 by (vm_compute; reflexivity).
  assert (cAdmin (sc w_started) = Some (sarama_ClusterAdmin 0)) as H4
    by (vm_compute; reflexivity).
  split; [exact H1|]. split; [exact H2|]. split; [exact H3|]. split; [exact H4|].
  split; [|split; [vm_compute; reflexivity|]].
  - exact (proj1 (proj1 (Subscribe_autoCreateTopic_partition_only string string w_started
                           events_topic H1 H2) (sarama_ClusterAdmin 0) H3 H4)).
  - apply (proj2 (proj1 (Subscribe_autoCreateTopic_partition_only string string w_started
                           {| Name := "" |} H1' H2) (sarama_ClusterAdmin 0) H3 H4));
      vm_compute; reflexivity.
Defined.

(** The claim C5 says the topic is created under either strategy.  The group
    client has auto-creation on and no entry for "events"; its [Subscribe]
    succeeds with a call to [scc.NewConsumer] and the start of the consumers,
    and the topic is not on the broker afterwards. *)
Lemma Subscribe_group_creates_no_topic :
  autoCreateTopic (sc w_group_started) = true
  /\ consumerType (sc w_group_started) = GroupCustomer
  /\ registry (sc w_group_started) !! "events" = None
  /\ Subscribe events_topic w_group_started = Done (inr 4%nat) w_group_one
  /\ trace w_group_one
     = trace w_group_started
       ++ [EvNewGroupConsumer ["127.0.0.1:9092"] "mytest" ["events"];
           EvGo (task_startConsumers events_topic)]
  /\ topic_exists "events" (trace w_group_one) = false.
Proof.
  do 5 (split; [vm_compute; reflexivity|]). vm_compute; reflexivity.
Defined.

(** The broker without room for a producer: [Start] keeps the admin handle
    0 and installs no registry. *)
Lemma Start_fails_fast_witness :
  exists w' : World string,
    Start (env := no_producer_env) (newWorld partition_client)
    = Done (Some (errorString "kafka: client has run out of available brokers")) w'
    /\ cAdmin (sc w') = Some (sarama_ClusterAdmin 0)
    /\ producer (sc w') = None
    /\ topicToConsumerChannelMap (sc w') = None
    /\ doneCh (sc w') = Some [].
Proof.
  pose proof (Start_fails_fast string string (env := no_producer_env)
                (newWorld partition_client)) as H.
  cbv zeta in H. destruct H as (_ & H & _).
  eexists. split.
  - apply H; vm_compute; reflexivity.
  - do 3 (split; [vm_compute; reflexivity|]). vm_compute; reflexivity.
Defined.

(** Strategy 7 on the started client: no subscription to "events". *)
Lemma Subscribe_unknown_consumer_type_witness :
  (consumerType (sc w_odd_started) <> PartitionConsumer)
  /\ (consumerType (sc w_odd_started) <> GroupCustomer)
  /\ registry (sc w_odd_started) !! "events" = None
  /\ Subscribe events_topic w_odd_started
     = Done (inl (errorString "unknown-consumer-type")) w_odd_started.
Proof.
  assert (consumerType (sc w_odd_started) <> PartitionConsumer) as H1
    by (vm_compute; discriminate).
  assert (consumerType (sc w_odd_started) <> GroupCustomer) as H2
    by (vm_compute; discriminate).
  assert (registry (sc w_odd_started) !! Name events_topic = None) as H3
    by (vm_compute; reflexivity).
  split; [exact H1|]. split; [exact H2|]. split; [exact H3|].
  exact (proj1 (Subscribe_unknown_consumer_type string string w_odd_started events_topic
                  H1 H2) H3).
Defined.

(** Three partitions and one replica reach the broker as they are, and
    2^32 + 3 partitions are three partitions. *)
Lemma CreateTopic_counts_wrap_witness :
  cAdmin (sc w_started) = Some (sarama_ClusterAdmin 0)
  /\ trace (outcome_world (CreateTopic events_topic 3 1 w_started))
     = trace w_started ++ [EvAdminCreateTopic (sarama_ClusterAdmin 0) "events" 3 1]
  /\ CreateTopic events_topic (3 + 1 * 2 ^ 32) (1 + 0 * 2 ^ 16) w_started
     = CreateTopic events_topic 3 1 w_started.
Proof.
  assert (cAdmin (sc w_started) = Some (sarama_ClusterAdmin 0)) as Hadmin
    by (vm_compute; reflexivity).
  pose proof (CreateTopic_counts_wrap string string w_started events_topic 3 1) as [Hw Hr].
  split; [exact Hadmin|]. split.
  - apply (Hr (sarama_ClusterAdmin 0) Hadmin); lia.
  - apply (Hw 1 0).
Defined.

(** "hello" marshals, and the client that was never started has no
    producer. *)
Lemma Send_failures_witness :
  Marshal "hello" = inr (list_byte_of_string "hello")
  /\ producer (sc w_new) = None
  /\ Send (any_proto "hello") events_topic [] w_new
     = Panics panic_nil_dereference w_new.
Proof.
  assert (Marshal "hello" = inr (list_byte_of_string "hello")) as Hm
    by (vm_compute; reflexivity).
  assert (producer (sc w_new) = None) as Hp
    by (vm_compute; reflexivity).
  split; [exact Hm|]. split; [exact Hp|].
  exact (proj2 (Send_failures string string w_new events_topic []
                  "hello") (list_byte_of_string "hello") Hm Hp).
Defined.

(** The signal of [Stop] is taken by the partition loop of "events"; a group
    loop that looks for it afterwards blocks. *)
Lemma done_signal_ends_one_loop_witness :
  doneCh (sc w_stopped) = Some [1]
  /\ consumeFromAPartition_turn events_topic (sarama_PartitionConsumer 3) 5%nat
       case_doneCh w_stopped
     = Done loop_break w_signal_taken
  /\ consumeGroupMessages_turn events_topic (scc_Consumer 3) 5%nat case_doneCh w_signal_taken
     = Blocks w_signal_taken.
Proof.
  assert (doneCh (sc w_stopped) = Some [1]) as Hd by (vm_compute; reflexivity).
  split; [exact Hd|].
  pose proof (done_signal_ends_one_loop string string w_stopped 1 Hd) as H. cbv zeta in H.
  split.
  - rewrite (proj1 (H events_topic (sarama_PartitionConsumer 3) 5%nat)).
    vm_compute; reflexivity.
  - replace w_signal_taken
      with {| sc := set_doneCh (Some []) (sc w_stopped); heap := heap w_stopped;
              nextId := nextId w_stopped; trace := trace w_stopped |}
      by (vm_compute; reflexivity).
    exact (proj2 (proj2 (proj2 (H events_topic (scc_Consumer 3) 5%nat)))).
Defined.

(** The entry of "events" has one partition consumer: one partition loop. *)
Lemma startConsumers_one_loop_per_consumer_witness :
  registry (sc w_one) !! "events" = Some 5%nat
  /\ heap w_one !! 5%nat = Some entry_one
  /\ forallb is_registry_consumer (consumers entry_one) = true
  /\ startConsumers events_topic w_one
     = Done None
         (after w_one [EvGo (task_consumeFromAPartition events_topic
                               (sarama_PartitionConsumer 3) 5%nat)]).
Proof.
  assert (registry (sc w_one) !! Name events_topic = Some 5%nat) as H1
    by (vm_compute; reflexivity).
  assert (heap w_one !! 5%nat = Some entry_one) as H2 by (vm_compute; reflexivity).
  assert (forallb is_registry_consumer (consumers entry_one) = true) as H3 by reflexivity.
  split; [exact H1|]. split; [exact H2|]. split; [exact H3|].
  exact (proj1 (proj2 (startConsumers_one_loop_per_consumer string w_one events_topic)
                  5%nat entry_one H1 H2) H3).
Defined.

(** The example broker has one partition per topic: one partition consumer,
    with the identity 3, for "events". *)
Lemma createPartionConsumers_one_per_partition_witness :
  consumer (sc w_started) = Some (sarama_Consumer 2)
  /\ broker_err (trace w_started) (EvPartitions (sarama_Consumer 2) "events") = None
  /\ exists w' : World string,
       createPartionConsumers events_topic OffsetNewest w_started
       = Done (inr [sarama_PartitionConsumer 3]) w'
       /\ trace w' = trace w_started
                     ++ [EvPartitions (sarama_Consumer 2) "events";
                         EvConsumePartition (sarama_Consumer 2) "events" 0 OffsetNewest].
Proof.
  assert (consumer (sc w_started) = Some (sarama_Consumer 2)) as Hc
    by (vm_compute; reflexivity).
  assert (broker_err (trace w_started) (EvPartitions (sarama_Consumer 2) "events") = None)
    as Hok by (vm_compute; reflexivity).
  split; [exact Hc|]. split; [exact Hok|].
  pose proof (createPartionConsumers_one_per_partition string string w_started events_topic
                OffsetNewest (sarama_Consumer 2) Hc) as H.
  cbv zeta in H. destruct H as [_ H]. destruct (H Hok) as [Hall _].
  destruct Hall as (Hrun & _ & _); [intros tr p _; reflexivity|].
  eexists. split; [exact Hrun|]. vm_compute; reflexivity.
Defined.

(** On the broker where the topics have vanished, closing the partition
    consumer fails with a tolerated error: nil comes back. *)
Lemma closeConsumers_last_failure_decides_witness :
  close_answers (env := vanished_env) (trace w_one) [sarama_PartitionConsumer 3]
  = [] ++ Some ErrUnknownTopicOrPartition :: []
  /\ closeConsumers (env := vanished_env) [sarama_PartitionConsumer 3] w_one
     = Done None (after w_one [EvClose (sarama_PartitionConsumer 3)]).
Proof.
  assert (close_answers (env := vanished_env) (trace w_one) [sarama_PartitionConsumer 3]
          = [] ++ Some ErrUnknownTopicOrPartition :: []) as Hans
    by (vm_compute; reflexivity).
  split; [exact Hans|].
  pose proof (closeConsumers_last_failure_decides string string (env := vanished_env)
                [sarama_PartitionConsumer 3] w_one) as H.
  cbv zeta in H. destruct H as (err & Hrun & _ & _ & Hlast).
  rewrite Hrun. rewrite (Hlast [] ErrUnknownTopicOrPartition [] Hans (Forall_nil_2 _)).
  vm_compute; reflexivity.
Defined.

(** The topic without a name: the broker refuses to create it, and the
    failed subscription leaves the registry and the heap alone. *)
Lemma Subscribe_error_registers_nothing_witness :
  Subscribe unnamed_topic w_started = Done (inl (KError 17)) w_refused
  /\ topicToConsumerChannelMap (sc w_refused) = topicToConsumerChannelMap (sc w_started)
  /\ heap w_refused = heap w_started.
Proof.
  assert (Subscribe unnamed_topic w_started = Done (inl (KError 17)) w_refused) as Hrun
    by (vm_compute; reflexivity).
  split; [exact Hrun|].
  pose proof (Subscribe_error_registers_nothing string string w_started w_refused
                unnamed_topic (KError 17) Hrun) as (H1 & H2 & _).
  split; [exact H1|exact H2].
Defined.

(** A second subscriber of "events" comes (channel 6) and goes: the entry is
    the one with channel 4 alone again. *)
Lemma Subscribe_UnSubscribe_restores_witness :
  registry (sc w_one) !! "events" = Some 5%nat
  /\ heap w_one !! 5%nat = Some entry_one
  /\ (channels entry_one <> [])
  /\ (nextId w_one ∉ channels entry_one)
  /\ closed (trace w_one) (nextId w_one) = false
  /\ exists w1 : World string,
       Subscribe events_topic w_one = Done (inr (nextId w_one)) w1
       /\ UnSubscribe events_topic (nextId w_one) w1
          = Done None {| sc := sc w_one; heap := heap w_one; nextId := S (nextId w_one);
                         trace := trace w_one ++ [EvCloseChan (nextId w_one)] |}.
Proof.
  assert (registry (sc w_one) !! Name events_topic = Some 5%nat) as H1
    by (vm_compute; reflexivity).
  assert (heap w_one !! 5%nat = Some entry_one) as H2 by (vm_compute; reflexivity).
  assert (channels entry_one <> []) as H3 by (simpl; discriminate).
  assert (nextId w_one ∉ channels entry_one) as H4
    by (simpl; rewrite list_elem_of_singleton; vm_compute; lia).
  assert (closed (trace w_one) (nextId w_one) = false) as H5 by (vm_compute; reflexivity).
  split; [exact H1|]. split; [exact H2|]. split; [exact H3|]. split; [exact H4|].
  split; [exact H5|].
  exact (Subscribe_UnSubscribe_restores string string w_one events_topic 5%nat entry_one
           H1 H2 H3 H4 H5).
Defined.

(** The first subscriber of "events" comes and goes: channel 4 and the
    partition consumer 3 are closed, and the registry is empty again. *)
Lemma Subscribe_UnSubscribe_new_topic_witness :
  registry (sc w_started) !! "events" = None
  /\ Subscribe events_topic w_started = Done (inr 4%nat) w_one
  /\ closed (trace w_one) 4%nat = false
  /\ exists (l : loc) (cs : list handle) (err : option error) (w2 : World string),
       registry (sc w_one) !! "events" = Some l
       /\ heap w_one !! l = Some {| consumers := cs; channels := [4%nat] |}
       /\ UnSubscribe events_topic 4%nat w_one = Done err w2
       /\ trace w2 = trace w_one ++ EvCloseChan 4%nat :: close_events cs
       /\ registry (sc w2) = registry (sc w_started)
       /\ registry (sc w2) !! "events" = None.
Proof.
  assert (registry (sc w_started) !! Name events_topic = None) as H1
    by (vm_compute; reflexivity).
  assert (Subscribe events_topic w_started = Done (inr 4%nat) w_one) as H2
    by (vm_compute; reflexivity).
  assert (closed (trace w_one) 4%nat = false) as H3 by (vm_compute; reflexivity).
  split; [exact H1|]. split; [exact H2|]. split; [exact H3|].
  exact (Subscribe_UnSubscribe_new_topic string string w_started w_one events_topic 4%nat
           H1 H2 H3).
Defined.

(** Channel 4 leaves the entry with the channels 4 and 6; a second
    [UnSubscribe] of channel 4 returns nil and changes nothing. *)
Lemma UnSubscribe_twice_witness :
  registry (sc w_two) !! "events" = Some 5%nat
  /\ heap w_two !! 5%nat = Some entry_two
  /\ NoDup (channels entry_two)
  /\ 4%nat ∈ channels entry_two
  /\ closed (trace w_two) 4%nat = false
  /\ exists (r1 r2 : option error) (w1 : World string),
       UnSubscribe events_topic 4%nat w_two = Done r1 w1
       /\ UnSubscribe events_topic 4%nat w1 = Done r2 w1
       /\ r2 = (if Nat.eqb (length (channels entry_two)) 1
                then Some (errorString "topic-does-not-exist")
                else None).
Proof.
  assert (registry (sc w_two) !! Name events_topic = Some 5%nat) as H1
    by (vm_compute; reflexivity).
  assert (heap w_two !! 5%nat = Some entry_two) as H2 by (vm_compute; reflexivity).
  assert (NoDup (channels entry_two)) as H3.
  { simpl. apply NoDup_cons. split; [|apply NoDup_singleton].
    rewrite list_elem_of_singleton. lia. }
  assert (4%nat ∈ channels entry_two) as H4 by (simpl; apply list_elem_of_here).
  assert (closed (trace w_two) 4%nat = false) as H5 by (vm_compute; reflexivity).
  split; [exact H1|]. split; [exact H2|]. split; [exact H3|]. split; [exact H4|].
  split; [exact H5|].
  exact (UnSubscribe_twice string string w_two events_topic 5%nat entry_two 4%nat
           H1 H2 H3 H4 H5).
Defined.

(** "events" is on the broker and has one subscriber: [DeleteTopic] closes
    channel 4 and the partition consumer 3, and the entry goes. *)
Lemma DeleteTopic_outcomes_witness :
  cAdmin (sc w_one) = Some (sarama_ClusterAdmin 0)
  /\ broker_err (trace w_one) (EvAdminDeleteTopic (sarama_ClusterAdmin 0) "events") = None
  /\ registry (sc w_one) !! "events" = Some 5%nat
  /\ heap w_one !! 5%nat = Some entry_one
  /\ exists w' : World string,
       DeleteTopic events_topic w_one = Done None w'
       /\ trace w' = trace w_one ++ [EvAdminDeleteTopic (sarama_ClusterAdmin 0) "events";
                                     EvCloseChan 4%nat;
                                     EvClose (sarama_PartitionConsumer 3)]
       /\ registry (sc w') !! "events" = None.
Proof.
  assert (cAdmin (sc w_one) = Some (sarama_ClusterAdmin 0)) as Hadmin
    by (vm_compute; reflexivity).
  assert (broker_err (trace w_one)
            (EvAdminDeleteTopic (sarama_ClusterAdmin 0) (Name events_topic)) = None) as Hans
    by (vm_compute; reflexivity).
  assert (registry (sc w_one) !! Name events_topic = Some 5%nat) as Hreg
    by (vm_compute; reflexivity).
  assert (heap w_one !! 5%nat = Some entry_one) as Hheap by (vm_compute; reflexivity).
  assert (length (channels entry_one) <= 1)%nat as Hlen by (simpl; lia).
  assert (forall ch, ch ∈ channels entry_one -> closed (trace w_one) ch = false) as Hopen.
  { intros ch Hin. simpl in Hin. apply list_elem_of_singleton in Hin. subst ch.
    vm_compute; reflexivity. }
  split; [exact Hadmin|]. split; [exact Hans|]. split; [exact Hreg|]. split; [exact Hheap|].
  pose proof (DeleteTopic_outcomes string string w_one (sarama_ClusterAdmin 0) events_topic
                Hadmin) as H.
  cbv zeta in H. destruct H as (_ & _ & H).
  rewrite (H 5%nat entry_one Hans Hreg Hheap Hlen Hopen).
  eexists. split; [vm_compute; reflexivity|].
  split; vm_compute; reflexivity.
Defined.

(** The master consumer does not close: [Stop] has closed the producer,
    panics, and the admin handle stays open. *)
Lemma Stop_panics_at_first_close_failure_witness :
  doneCh (sc w_started) = Some []
  /\ stop_handles (sc w_started)
     = [sarama_AsyncProducer 1] ++ sarama_Consumer 2 :: [sarama_ClusterAdmin 0]
  /\ Stop (env := stuck_consumer_env) w_started
     = Panics (panic_error (errorString "kafka: tried to use a client that was closed"))
         {| sc := set_doneCh (Some [1]) (sc w_started);
            heap := heap w_started;
            nextId := nextId w_started;
            trace := trace w_started
                     ++ map EvClose [sarama_AsyncProducer 1] ++ [EvClose (sarama_Consumer 2)] |}.
Proof.
  assert (doneCh (sc w_started) = Some []) as Hd by (vm_compute; reflexivity).
  assert (stop_handles (sc w_started)
          = [sarama_AsyncProducer 1] ++ sarama_Consumer 2 :: [sarama_ClusterAdmin 0]) as Hh
    by (vm_compute; reflexivity).
  assert (forall (tr : list (event string)) (h' : handle),
             h' ∈ [sarama_AsyncProducer 1] ->
             broker_err (Environment := stuck_consumer_env) tr (EvClose h') = None) as Hb.
  { intros tr h' Hin. apply list_elem_of_singleton in Hin. subst h'. reflexivity. }
  assert (broker_err (Environment := stuck_consumer_env)
            (trace w_started ++ map EvClose [sarama_AsyncProducer 1])
            (EvClose (sarama_Consumer 2))
          = Some (errorString "kafka: tried to use a client that was closed")) as He
    by reflexivity.
  split; [exact Hd|]. split; [exact Hh|].
  exact (Stop_panics_at_first_close_failure string string (env := stuck_consumer_env)
           w_started [sarama_AsyncProducer 1] [sarama_ClusterAdmin 0] (sarama_Consumer 2)
           (errorString "kafka: tried to use a client that was closed") Hd Hh Hb He).
Defined.

(** The partition client before [Start]: [Stop] blocks, nothing can be
    unsubscribed, and no topic can be created. *)
Lemma never_started_client_witness :
  Forall client_option [ConsumerType PartitionConsumer; AutoCreateTopic true]
  /\ sc w_new = NewSaramaClient [ConsumerType PartitionConsumer; AutoCreateTopic true]
  /\ Stop w_new = Blocks w_new
  /\ UnSubscribe events_topic 4%nat w_new
     = Done (Some (errorString "topic-does-not-exist")) w_new
  /\ CreateTopic events_topic 1 1 w_new = Panics panic_nil_dereference w_new.
Proof.
  assert (Forall client_option [ConsumerType PartitionConsumer; AutoCreateTopic true])
    as Hopts by (repeat constructor).
  assert (sc w_new = NewSaramaClient [ConsumerType PartitionConsumer; AutoCreateTopic true])
    as Hsc by reflexivity.
  split; [exact Hopts|]. split; [exact Hsc|].
  destruct (never_started_client string string
              [ConsumerType PartitionConsumer; AutoCreateTopic true] w_new events_topic
              Hopts Hsc) as (H1 & H2 & H3 & _).
  split; [exact H1|]. split; [exact (H2 4%nat)|exact (H3 1 1)].
Defined.

(** The started partition client and its registry, before and after the
    first subscription to "events". *)
Lemma w_started_in_order : started (sc w_started) /\ registry_wf w_started.
Proof.
  split.
  - split; [|split]; vm_compute; discriminate.
  - apply registry_wf_empty; [vm_compute; reflexivity|].
    intros ch Hc. vm_compute in Hc. discriminate Hc.
Qed.

Lemma w_one_in_order : started (sc w_one) /\ registry_wf w_one.
Proof.
  destruct w_started_in_order as [Hst Hwf].
  apply (Subscribe_wf string string w_started w_one events_topic (inr 4%nat) Hst Hwf).
  vm_compute; reflexivity.
Qed.

(** The first subscription to "events" returns channel 4, the next identity
    of the started client, and the new entry 5 holds it. *)
Lemma Subscribe_registers_new_channel_witness :
  Subscribe events_topic w_started = Done (inr 4%nat) w_one
  /\ (nextId w_started <= 4 < nextId w_one)%nat
  /\ exists (l : loc) (cc : consumerChannels),
       registry (sc w_one) !! "events" = Some l
       /\ heap w_one !! l = Some cc
       /\ 4%nat ∈ channels cc.
Proof.
  assert (Subscribe events_topic w_started = Done (inr 4%nat) w_one) as Hrun
    by (vm_compute; reflexivity).
  split; [exact Hrun|].
  exact (Subscribe_registers_new_channel string string w_started w_one events_topic 4%nat
           Hrun).
Defined.

(** A second subscription to "events" returns, and the registry is in good
    order after it. *)
Lemma Subscribe_keeps_registry_witness :
  started (sc w_one)
  /\ registry_wf w_one
  /\ exists (r : error + chan_id) (w' : World string),
       Subscribe events_topic w_one = Done r w' /\ started (sc w') /\ registry_wf w'.
Proof.
  destruct w_one_in_order as [Hst Hwf].
  split; [exact Hst|]. split; [exact Hwf|].
  exact (Subscribe_keeps_registry string string w_one events_topic Hst Hwf).
Defined.

(** Channel 99 was never handed out and "alarms" has no entry: both
    [UnSubscribe] calls return, and the entry of "events" stays. *)
Lemma UnSubscribe_keeps_registry_witness :
  registry_wf w_one
  /\ exists (r : option error) (w' : World string),
       UnSubscribe {| Name := "alarms" |} 99%nat w_one = Done r w'
       /\ registry_wf w'
       /\ (forall (T0 : string) (l0 : loc),
              T0 <> "alarms" ->
              registry (sc w_one) !! T0 = Some l0 ->
              registry (sc w') !! T0 = Some l0 /\ heap w' !! l0 = heap w_one !! l0)
       /\ (forall (l : loc) (cc : consumerChannels),
              registry (sc w') !! "alarms" = Some l ->
              heap w' !! l = Some cc ->
              99%nat ∉ channels cc).
Proof.
  destruct w_one_in_order as [_ Hwf].
  split; [exact Hwf|].
  exact (UnSubscribe_keeps_registry string string w_one {| Name := "alarms" |} 99%nat Hwf).
Defined.


(** The partition loop of "events" ends on the done signal of [Stop]. *)
Lemma consumption_loops_turn_witness :
  consumeFromAPartition_turn events_topic (sarama_PartitionConsumer 3) 5%nat
    case_doneCh w_stopped
  = Done loop_break w_signal_taken
  /\ (case_doneCh = case_Messages None \/ case_doneCh = case_doneCh).
Proof.
  assert (consumeFromAPartition_turn events_topic (sarama_PartitionConsumer 3) 5%nat
            case_doneCh w_stopped
          = Done loop_break w_signal_taken) as Hrun by (vm_compute; reflexivity).
  split; [exact Hrun|].
  exact (proj1 (consumption_loops_turn string string events_topic
                  (sarama_PartitionConsumer 3) 5%nat)
           case_doneCh w_stopped w_signal_taken (or_introl Hrun)).
Defined.
